(** * deck.gl polygon tesselator: a shallow embedding and its properties

    The development follows the polygon tesselator of the solid polygon layer
    (class [PolygonTesselator] and the module-level helpers it calls, in
    [src/core/controllers/map-controller.js]): picking colours, polygon
    offsets, index assembly, the position pass and the colour pass.  It then
    follows the code around it: the solid polygon layer that owns a
    tesselator, the benchmark that drives one, the viewport props of the map
    controller, and the trip shifting of the demo's data decoder. *)

From Stdlib Require Import ZArith Lia Bool QArith Qabs.
From Stdlib Require Import SpecFloat.
From Stdlib Require String.
From stdpp Require Import base numbers list.
Import String.StringSyntax.
Delimit Scope string_scope with string.


(** ** JavaScript numbers

    A JS number is an IEEE-754 binary64 value; [Math.fround] and a store into a
    [Float32Array] round it to binary32.  Both formats are instances of the
    Standard Library's [spec_float]. *)
Module JS.
Local Open Scope Z_scope.

Definition number := spec_float.

Definition prec64 : Z := 53.
Definition emax64 : Z := 1024.
Definition prec32 : Z := 24.
Definition emax32 : Z := 128.

(** The canonical binary64 representative of [(-1)^s * m * 2^e]. *)
Definition mk64 (s : bool) (m : positive) (e : Z) : number :=
  binary_round prec64 emax64 s m e.

(** An integer as a JS number (exact below 2^53). *)
Definition of_Z (z : Z) : number := binary_normalize prec64 emax64 z 0 false.

Definition zero : number := S754_zero false.
Definition nan : number := S754_nan.

Definition add (x y : number) : number := SFadd prec64 emax64 x y.
Definition sub (x y : number) : number := SFsub prec64 emax64 x y.

(** [Math.fround]: round to the nearest binary32 (ties to even), the result
    read back as a binary64. *)
Definition fround (x : number) : number :=
  match x with
  | S754_finite s m e =>
      match binary_round prec32 emax32 s m e with
      | S754_finite s' m' e' => mk64 s' m' e'
      | r => r
      end
  | _ => x
  end.

(** [Number.isFinite] on a number. *)
Definition isFinite (x : number) : bool :=
  match x with
  | S754_zero _ | S754_finite _ _ _ => true
  | _ => false
  end.

(** What an element read can deliver: a number, or [undefined] when the
    element is missing. *)
Inductive value :=
  | Undefined
  | Num (x : number).

(** ToNumber on the values above. *)
Definition ToNumber (v : value) : number :=
  match v with
  | Undefined => nan
  | Num x => x
  end.

(** [Number.isFinite(v)]: false on anything that is not a number. *)
Definition Number_isFinite (v : value) : bool :=
  match v with
  | Undefined => false
  | Num x => isFinite x
  end.

(** Truthiness of a value: [undefined], [NaN], [+0] and [-0] are falsy. *)
Definition truthy (v : value) : bool :=
  match v with
  | Num (S754_finite _ _ _) | Num (S754_infinity _) => true
  | _ => false
  end.

(** [v || 0]. *)
Definition or_zero (v : value) : number :=
  if truthy v then ToNumber v else zero.

(** [experimental.get(container, key)] on an array with an integer key:
    the element, or [undefined] past the end. *)
Definition get {A} (inj : A -> value) (container : list A) (key : nat) : value :=
  match container !! key with
  | Some a => inj a
  | None => Undefined
  end.

(** [array[i] = v] on a plain JS array: in range it replaces the element, past
    the end the array grows and the skipped slots read as [undefined]. *)
Definition array_set (a : list value) (i : nat) (v : value) : list value :=
  if decide (i < length a)%nat then <[i := v]> a
  else a ++ replicate (i - length a) Undefined ++ [v].

(** ToUint8Clamp, the conversion of a store into a [Uint8ClampedArray]:
    NaN becomes 0, the value is rounded to the nearest integer with ties to
    even, and clamped to [0, 255]. *)
Definition round_half_even (m : Z) (k : Z) : Z :=
  let q := m / 2 ^ k in
  let r := m mod 2 ^ k in
  match Z.compare (2 * r) (2 ^ k) with
  | Lt => q
  | Gt => q + 1
  | Eq => if Z.even q then q else q + 1
  end.

Definition ToUint8Clamp (x : number) : Z :=
  match x with
  | S754_nan => 0
  | S754_zero _ => 0
  | S754_infinity s => if s then 0 else 255
  | S754_finite true _ _ => 0
  | S754_finite false m e =>
      if 0 <=? e then Z.min 255 (Z.pos m * 2 ^ e)
      else Z.min 255 (round_half_even (Z.pos m) (- e))
  end.

End JS.


(** ** Iteration

    [array.forEach((element, index) => ...)] with the state the callback
    updates threaded through. *)
Fixpoint forEach_from {A St : Type} (f : St -> A -> nat -> St) (i : nat) (l : list A) (s : St) : St :=
  match l with
  | [] => s
  | a :: l' => forEach_from f (S i) l' (f s a i)
  end.

Definition forEach {A St : Type} (f : St -> A -> nat -> St) (l : list A) (s : St) : St :=
  forEach_from f 0 l s.

(** ** Geometry *)

(** A point has 2 or 3 ordinates; a ring is a sequence of points. *)
Abbreviation Point := (list JS.number).
Abbreviation Ring := (list (list JS.number)).

(** The two accepted shapes of a polygon: one flat ring, or a sequence of
    rings (exterior first, then holes). *)
Inductive polygon :=
  | SimplePolygon (ring : Ring)
  | ComplexPolygon (rings : list Ring).

(** What the tesselator throws: the failure of [Polygon.normalize], and the
    [Error("Vertex count exceeds browser's limit")] of [calculateIndices],
    which the spec names [IndexOverflowError]. *)
Inductive error :=
  | InvalidGeometryError
  | IndexOverflowError.

Module Polygon.

(** Modelled from the spec: [Polygon.isSimple] of the absent module
    [./polygon]; a simple polygon is a single flat ring. *)
Definition isSimple (p : polygon) : bool :=
  match p with
  | SimplePolygon _ => true
  | ComplexPolygon _ => false
  end.

(** The rings of a polygon of either shape. *)
Definition rings (p : polygon) : list Ring :=
  match p with
  | SimplePolygon r => [r]
  | ComplexPolygon rs => rs
  end.

(** Modelled from the spec: [Polygon.normalize] of the absent module
    [./polygon]; a single ring is treated as [[ring]], and a ring with fewer
    than 3 points fails with [InvalidGeometryError]. *)
Definition normalize (p : polygon) : error + polygon :=
  if forallb (fun r => 3 <=? length r) (rings p)
  then inr (ComplexPolygon (rings p))
  else inl InvalidGeometryError.

(** Modelled from the spec: [Polygon.getVertexCount] of the absent module
    [./polygon]; the number of points of all rings of the polygon. *)
Definition getVertexCount (p : polygon) : nat :=
  sum_list (length <$> rings p).

(** Modelled from the spec: [Polygon.getTriangleCount] of the absent module
    [./polygon]; for a polygon of v vertices in r rings the count is
    v - 2 * r + 2 * (r - 1). *)
Definition getTriangleCount (p : polygon) : nat :=
  let v := Z.of_nat (getVertexCount p) in
  let r := Z.of_nat (length (rings p)) in
  Z.to_nat (v - 2 * r + 2 * (r - 1)).

End Polygon.

(** ** Typed arrays and the world

    A typed array is identified by its allocation number and carries its
    elements; an in-place store keeps the identity and changes the elements. *)
Record Buffer (A : Type) := mkBuffer { buf_id : nat; buf_data : list A }.
Arguments mkBuffer {A} _ _.
Arguments buf_id {A} _.
Arguments buf_data {A} _.

(** A colour accessor returns a plain array of the caller (by reference), or
    some other container that is read through [get]. *)
Inductive ColorValue :=
  | ColorArray (ref : nat)
  | ColorOther (elements : list JS.value).

(** The mutable surroundings of a tesselator: the allocation counter of
    typed arrays, the plain JS arrays that colour accessors hand out (by
    reference: the position in [jsArrays]), and the calls the accessors have
    received so far. *)
Record World := mkWorld {
  nextBuffer : nat;
  jsArrays : list (list JS.value);
  heightCalls : list nat;
  colorCalls : list nat
}.

(** The module-level constant [DEFAULT_COLOR = [0, 0, 0, 255]] is the first
    plain array of the world. *)
Definition DEFAULT_COLOR : nat := 0.
Definition DEFAULT_COLOR_value : list JS.value :=
  [JS.Num (JS.of_Z 0); JS.Num (JS.of_Z 0); JS.Num (JS.of_Z 0); JS.Num (JS.of_Z 255)].

Definition initial_world : World :=
  {| nextBuffer := 0; jsArrays := [DEFAULT_COLOR_value]; heightCalls := []; colorCalls := [] |}.

(** Computations that read and update the world and may throw. *)
Definition M (A : Type) : Type := World -> (error + A) * World.

Definition ret {A} (a : A) : M A := fun w => (inr a, w).
Definition throw {A} (e : error) : M A := fun w => (inl e, w).
Definition bind {A B} (c : M A) (k : A -> M B) : M B :=
  fun w => match c w with
           | (inr a, w') => k a w'
           | (inl e, w') => (inl e, w')
           end.

Declare Scope tess_scope.
Delimit Scope tess_scope with tess.
Notation "'let*' x := c 'in' k" := (bind c (fun x => k))
  (at level 10, x name, c at level 100, k at level 200) : tess_scope.

(** [new XArray(n)]: a fresh array of [n] zeros. *)
Definition new_array {A} (zero : A) (n : nat) : M (Buffer A) :=
  fun w => (inr (mkBuffer (nextBuffer w) (replicate n zero)),
            {| nextBuffer := S (nextBuffer w); jsArrays := jsArrays w;
               heightCalls := heightCalls w; colorCalls := colorCalls w |}).

(** [attribute || new XArray(n)]. *)
Definition or_new {A} (zero : A) (attribute : option (Buffer A)) (n : nat) : M (Buffer A) :=
  match attribute with
  | Some b => ret b
  | None => new_array zero n
  end.

(** A store into a typed array: the value is converted to the element type;
    an index past the end is ignored. *)
Definition store {A V} (conv : V -> A) (b : Buffer A) (i : nat) (v : V) : Buffer A :=
  mkBuffer (buf_id b) (<[i := conv v]> (buf_data b)).

(** The conversions of a store: of a value into a [Float32Array] and into a
    [Uint8ClampedArray], and of an integer into a [Uint8ClampedArray]. *)
Definition to_float32 (v : JS.value) : JS.number := JS.fround (JS.ToNumber v).
Definition to_uint8c (v : JS.value) : Z := JS.ToUint8Clamp (JS.ToNumber v).
Definition int_to_uint8c (z : Z) : Z := Z.max 0 (Z.min 255 z).

(** [target[i++] = v] for every [v] of [source], in order. *)
Fixpoint write_from {A V} (conv : V -> A) (target : Buffer A) (i : nat) (source : list V) : Buffer A :=
  match source with
  | [] => target
  | v :: source' => write_from conv (store conv target i v) (S i) source'
  end.

(** Modelled from the spec: [fillArray] of the absent [experimental]
    utilities; it broadcasts [source] over [count] consecutive slots of
    [target], from element [start] on. *)
Fixpoint fillArray {A V} (conv : V -> A) (target : Buffer A) (source : list V)
    (start count : nat) : Buffer A :=
  match count with
  | O => target
  | S count' =>
      fillArray conv (write_from conv target start source) source (start + length source) count'
  end.

(** ** The tesselator's helpers *)

(** [getPickingColor(index)]; the arithmetic is on integers, which a JS
    number holds exactly. *)
Definition getPickingColor (index : Z) : list Z :=
  [ (index + 1) mod 256;
    ((index + 1) / 256) mod 256;
    ((index + 1) / 256 / 256) mod 256 ]%Z.

(** [parseColor(color)]: a container that is not an array is copied into a
    fresh array of four elements; then [color[3]] is overwritten with 255
    unless it is a finite number.  The array is updated in place, and the
    result is the reference to it. *)
Definition parseColor (color : ColorValue) (arrays : list (list JS.value))
    : nat * list (list JS.value) :=
  let '(ref, arrays) :=
    match color with
    | ColorArray ref => (ref, arrays)
    | ColorOther c =>
        (length arrays,
         arrays ++ [[JS.get id c 0; JS.get id c 1; JS.get id c 2; JS.get id c 3]])
    end in
  let c := default [] (arrays !! ref) in
  let c3 := JS.get id c 3 in
  (ref, <[ref := JS.array_set c 3
                   (if JS.Number_isFinite c3 then c3 else JS.Num (JS.of_Z 255))]> arrays).

(** [getPointCount(polygons)]. *)
Definition getPointCount (polygons : list polygon) : nat :=
  foldl (fun points polygon => points + Polygon.getVertexCount polygon) 0 polygons.

(** [getPolygonOffsets(polygons)]; a slot of [new Array(n)] that was never
    assigned is [None]. *)
Definition getPolygonOffsets (polygons : list polygon) : list (option nat) :=
  let offsets := replicate (length polygons + 1) None in
  let offsets := <[0 := Some 0]> offsets in
  snd (forEach
         (fun '(offset, offsets) polygon i =>
            let offset := offset + Polygon.getVertexCount polygon in
            (offset, <[i + 1 := Some offset]> offsets))
         polygons (0, offsets)).

(** [getHoleIndices(complexPolygon)]: [None] is JS [null]. *)
Definition getHoleIndices (complexPolygon : list Ring) : option (list nat) :=
  if 1 <? length complexPolygon then
    let '(_, holeIndices) :=
      forEach
        (fun '(polygonStartIndex, holeIndices) (polygon : Ring) (_ : nat) =>
           let polygonStartIndex := polygonStartIndex + length polygon in
           (polygonStartIndex, holeIndices ++ [polygonStartIndex]))
        complexPolygon (0, []) in
    Some (removelast holeIndices)
  else None.

(** Modelled from the spec: [flattenVertices] of the absent [experimental]
    utilities, on one ring; every point contributes its first three
    ordinates, and a shorter point is padded with one 0. *)
Definition flattenPoint (dimensions : nat) (p : Point) : list JS.number :=
  let kept := take dimensions p in
  if (0 <? length kept) && (length kept <? dimensions) then kept ++ [JS.zero] else kept.

Definition flattenVertices (dimensions : nat) (ring : Ring) : list JS.number :=
  concat (flattenPoint dimensions <$> ring).

(** [flattenVertices2(nestedArray)] on the rings of a complex polygon: every
    element is a container and goes to [flattenVertices]. *)
Definition flattenVertices2 (nestedArray : list Ring) : list JS.number :=
  forEach (fun result (value : Ring) (_ : nat) => result ++ flattenVertices 3 value)
          nestedArray [].

(** [forEachVertex(polygon, visitor)]: the visitor receives every vertex with
    its index in its own ring; the first branch is the one [Polygon.isSimple]
    selects. *)
Definition forEachVertex {St : Type} (p : polygon) (visitor : St -> Point -> nat -> St)
    (s : St) : St :=
  match p with
  | SimplePolygon ring => forEach visitor ring s
  | ComplexPolygon rings =>
      forEach (fun s (simplePolygon : Ring) (_ : nat) => forEach visitor simplePolygon s)
              rings s
  end.

(** [calculatePickingColors({polygons, pointCount})]. *)
Definition calculatePickingColors (polygons : list polygon) (pointCount : nat)
    : M (Buffer Z) :=
  (let* attribute := new_array 0%Z (pointCount * 3) in
   ret (snd (forEach
               (fun '(i, attribute) complexPolygon polygonIndex =>
                  let color := getPickingColor (Z.of_nat polygonIndex) in
                  let vertexCount := Polygon.getVertexCount complexPolygon in
                  (i + length color * vertexCount,
                   fillArray int_to_uint8c attribute color i vertexCount))
               polygons (0, attribute))))%tess.

(** ** The position pass *)

(** The attributes object of a tesselator. [None] is an attribute that was
    never assigned ([undefined]). *)
Record Attributes := mkAttributes {
  pickingColors : Buffer Z;
  positions : option (Buffer JS.number);
  nextPositions : option (Buffer JS.number);
  positions64xyLow : option (Buffer JS.number);
  nextPositions64xyLow : option (Buffer JS.number);
  colors : option (Buffer Z)
}.

(** The object [{x, y, z, xLow, yLow}] kept in [startVertex]. *)
Record StartVertex := mkStartVertex {
  sv_x : JS.value; sv_y : JS.value; sv_z : JS.value;
  sv_xLow : JS.value; sv_yLow : JS.value
}.

(** The four buffers [updatePositions] writes, its four cursors, and
    [startVertex] ([None] is [null]). *)
Record PositionState := mkPositionState {
  ps_positions : option (Buffer JS.number);
  ps_positions64xyLow : option (Buffer JS.number);
  ps_nextPositions : option (Buffer JS.number);
  ps_nextPositions64xyLow : option (Buffer JS.number);
  ps_i : nat;
  ps_j : nat;
  ps_nextI : nat;
  ps_nextJ : nat;
  ps_startVertex : option StartVertex
}.

(** [buffer[i++] = v1; buffer[i++] = v2; ...] on a [Float32Array]. A store
    through an unassigned attribute does not occur: the method allocates every
    buffer the pass writes before it calls the pass. *)
Definition put (b : option (Buffer JS.number)) (i : nat) (vs : list JS.value)
    : option (Buffer JS.number) :=
  (fun b => write_from to_float32 b i vs) <$> b.

(** The closure [popStartVertex]. *)
Definition popStartVertex (extruded fp64 : bool) (s : PositionState) : PositionState :=
  let s :=
    match ps_startVertex s with
    | Some startVertex =>
        if extruded then
          let s :=
            mkPositionState (ps_positions s) (ps_positions64xyLow s)
              (put (ps_nextPositions s) (ps_nextI s)
                   [sv_x startVertex; sv_y startVertex; sv_z startVertex])
              (ps_nextPositions64xyLow s)
              (ps_i s) (ps_j s) (ps_nextI s + 3) (ps_nextJ s) (ps_startVertex s) in
          if fp64 then
            mkPositionState (ps_positions s) (ps_positions64xyLow s) (ps_nextPositions s)
              (put (ps_nextPositions64xyLow s) (ps_nextJ s)
                   [sv_xLow startVertex; sv_yLow startVertex])
              (ps_i s) (ps_j s) (ps_nextI s) (ps_nextJ s + 2) (ps_startVertex s)
          else s
        else s
    | None => s
    end in
  mkPositionState (ps_positions s) (ps_positions64xyLow s) (ps_nextPositions s)
    (ps_nextPositions64xyLow s) (ps_i s) (ps_j s) (ps_nextI s) (ps_nextJ s) None.

(** The visitor of [forEachVertex] inside [updatePositions]. *)
Definition visitVertex (extruded fp64 : bool) (height : JS.number)
    (s : PositionState) (vertex : Point) (vertexIndex : nat) : PositionState :=
  let x := JS.get JS.Num vertex 0 in
  let y := JS.get JS.Num vertex 1 in
  let z := JS.Num (JS.add (JS.or_zero (JS.get JS.Num vertex 2)) height) in
  let s :=
    mkPositionState (put (ps_positions s) (ps_i s) [x; y; z]) (ps_positions64xyLow s)
      (ps_nextPositions s) (ps_nextPositions64xyLow s)
      (ps_i s + 3) (ps_j s) (ps_nextI s) (ps_nextJ s) (ps_startVertex s) in
  let xLow :=
    if fp64 then JS.Num (JS.sub (JS.ToNumber x) (JS.fround (JS.ToNumber x)))
    else JS.Undefined in
  let yLow :=
    if fp64 then JS.Num (JS.sub (JS.ToNumber y) (JS.fround (JS.ToNumber y)))
    else JS.Undefined in
  let s :=
    if fp64 then
      mkPositionState (ps_positions s) (put (ps_positions64xyLow s) (ps_j s) [xLow; yLow])
        (ps_nextPositions s) (ps_nextPositions64xyLow s)
        (ps_i s) (ps_j s + 2) (ps_nextI s) (ps_nextJ s) (ps_startVertex s)
    else s in
  let s :=
    if extruded && (0 <? vertexIndex) then
      let s :=
        mkPositionState (ps_positions s) (ps_positions64xyLow s)
          (put (ps_nextPositions s) (ps_nextI s) [x; y; z]) (ps_nextPositions64xyLow s)
          (ps_i s) (ps_j s) (ps_nextI s + 3) (ps_nextJ s) (ps_startVertex s) in
      if fp64 then
        mkPositionState (ps_positions s) (ps_positions64xyLow s) (ps_nextPositions s)
          (put (ps_nextPositions64xyLow s) (ps_nextJ s) [xLow; yLow])
          (ps_i s) (ps_j s) (ps_nextI s) (ps_nextJ s + 2) (ps_startVertex s)
      else s
    else s in
  if vertexIndex =? 0 then
    let s := popStartVertex extruded fp64 s in
    mkPositionState (ps_positions s) (ps_positions64xyLow s) (ps_nextPositions s)
      (ps_nextPositions64xyLow s) (ps_i s) (ps_j s) (ps_nextI s) (ps_nextJ s)
      (Some (mkStartVertex x y z xLow yLow))
  else s.

(** The module-level [updatePositions(attributes, {polygons, getHeight,
    extruded, fp64})].  The state of the loop over the polygons is the
    position state and the list of the polygon indices [getHeight] was called
    with, oldest first. *)
Definition updatePositions (attributes : Attributes) (polygons : list polygon)
    (getHeight : nat -> JS.number) (extruded fp64 : bool)
    : PositionState * list nat :=
  let s0 :=
    mkPositionState (positions attributes) (positions64xyLow attributes)
      (nextPositions attributes) (nextPositions64xyLow attributes) 0 0 0 0 None in
  let '(s, calls) :=
    forEach
      (fun '(s, calls) polygon polygonIndex =>
         let '(height, calls) :=
           if extruded then (getHeight polygonIndex, calls ++ [polygonIndex])
           else (JS.zero, calls) in
         (forEachVertex polygon (visitVertex extruded fp64 height) s, calls))
      polygons (s0, []) in
  (popStartVertex extruded fp64 s, calls).

(** ** The colour pass *)

(** The state of the loop of [updateColors]: the cursor, the colour buffer,
    the plain arrays of the world, and the polygon indices [getColor] was
    called with, oldest first. *)
Record ColorState := mkColorState {
  cs_i : nat;
  cs_colors : Buffer Z;
  cs_arrays : list (list JS.value);
  cs_calls : list nat
}.

Definition colorStep (getColor : nat -> ColorValue) (s : ColorState)
    (complexPolygon : polygon) (polygonIndex : nat) : ColorState :=
  let color := getColor polygonIndex in
  let '(color, arrays) := parseColor color (cs_arrays s) in
  let source := default [] (arrays !! color) in
  let vertexCount := Polygon.getVertexCount complexPolygon in
  mkColorState (cs_i s + length source * vertexCount)
    (fillArray to_uint8c (cs_colors s) source (cs_i s) vertexCount)
    arrays (cs_calls s ++ [polygonIndex]).

(** The module-level [updateColors({colors}, {polygons, getColor})]. *)
Definition updateColors (colors : Buffer Z) (polygons : list polygon)
    (getColor : nat -> ColorValue) : M (Buffer Z) :=
  fun w =>
    let s := forEach (colorStep getColor) polygons
               (mkColorState 0 colors (jsArrays w) []) in
    (inr (cs_colors s),
     {| nextBuffer := nextBuffer w; jsArrays := cs_arrays s;
        heightCalls := heightCalls w; colorCalls := colorCalls w ++ cs_calls s |}).

(** ** The class [PolygonTesselator] *)

Record PolygonTesselator := mkTesselator {
  polygons : list polygon;
  pointCount : nat;
  attributes : Attributes
}.

(** [polygons.map(polygon => Polygon.normalize(polygon))]: the first failure
    is thrown. *)
Fixpoint normalizeAll (ps : list polygon) : error + list polygon :=
  match ps with
  | [] => inr []
  | p :: ps' =>
      match Polygon.normalize p with
      | inl e => inl e
      | inr q =>
          match normalizeAll ps' with
          | inl e => inl e
          | inr qs => inr (q :: qs)
          end
      end
  end.

Definition lift {A} (r : error + A) : M A := fun w => (r, w).

(** [new PolygonTesselator(polygons)]. *)
Definition constructor (ps : list polygon) : M PolygonTesselator :=
  (let* ps := lift (normalizeAll ps) in
   let pointCount := getPointCount ps in
   let* picking := calculatePickingColors ps pointCount in
   ret (mkTesselator ps pointCount (mkAttributes picking None None None None None)))%tess.

(** The arguments [{fp64, extruded, getHeight}] of the method
    [updatePositions]; an absent flag is falsy. *)
Record UpdateArgs := mkUpdateArgs {
  arg_fp64 : bool;
  arg_extruded : bool;
  arg_getHeight : nat -> JS.number
}.

Definition log_heights (calls : list nat) : M unit :=
  fun w => (inr tt,
            {| nextBuffer := nextBuffer w; jsArrays := jsArrays w;
               heightCalls := heightCalls w ++ calls; colorCalls := colorCalls w |}).

(** The method [updatePositions({fp64, extruded, getHeight})]: the buffers are
    allocated on first need and then overwritten in place. *)
Definition updatePositions_method (args : UpdateArgs) (t : PolygonTesselator)
    : M PolygonTesselator :=
  (let a := attributes t in
   let* pos := or_new JS.zero (positions a) (pointCount t * 3) in
   let* next := or_new JS.zero (nextPositions a) (pointCount t * 3) in
   let a := mkAttributes (pickingColors a) (Some pos) (Some next)
              (positions64xyLow a) (nextPositions64xyLow a) (colors a) in
   let* a :=
     if arg_fp64 args then
       let* low := or_new JS.zero (positions64xyLow a) (pointCount t * 2) in
       let* nextLow := or_new JS.zero (nextPositions64xyLow a) (pointCount t * 2) in
       ret (mkAttributes (pickingColors a) (positions a) (nextPositions a)
              (Some low) (Some nextLow) (colors a))
     else ret a in
   let '(s, calls) :=
     updatePositions a (polygons t) (arg_getHeight args) (arg_extruded args) (arg_fp64 args) in
   let* _ := log_heights calls in
   ret (mkTesselator (polygons t) (pointCount t)
          (mkAttributes (pickingColors a) (ps_positions s) (ps_nextPositions s)
             (ps_positions64xyLow s) (ps_nextPositions64xyLow s) (colors a))))%tess.

(** The accessors that read an attribute. *)
Definition positions_method (t : PolygonTesselator) : option (Buffer JS.number) :=
  positions (attributes t).
Definition positions64xyLow_method (t : PolygonTesselator) : option (Buffer JS.number) :=
  positions64xyLow (attributes t).
Definition nextPositions_method (t : PolygonTesselator) : option (Buffer JS.number) :=
  nextPositions (attributes t).
Definition nextPositions64xyLow_method (t : PolygonTesselator) : option (Buffer JS.number) :=
  nextPositions64xyLow (attributes t).
Definition pickingColors_method (t : PolygonTesselator) : Buffer Z :=
  pickingColors (attributes t).

(** [vertexPositions()]. *)
Definition vertexPositions (t : PolygonTesselator) : M (Buffer JS.number) :=
  new_array JS.zero (pointCount t * 2).

(** [colors({getColor = x => DEFAULT_COLOR} = {})]: [None] is a call without
    an accessor.  The method returns the colour buffer and leaves it in the
    attributes. *)
Definition colors_method (getColor : option (nat -> ColorValue)) (t : PolygonTesselator)
    : M (Buffer Z * PolygonTesselator) :=
  (let getColor := default (fun _ => ColorArray DEFAULT_COLOR) getColor in
   let a := attributes t in
   let* c := or_new 0%Z (colors a) (pointCount t * 4) in
   let* c := updateColors c (polygons t) getColor in
   ret (c, mkTesselator (polygons t) (pointCount t)
             (mkAttributes (pickingColors a) (positions a) (nextPositions a)
                (positions64xyLow a) (nextPositions64xyLow a) (Some c))))%tess.

(** ** Index assembly

    The triangulator [earcut] is a dependency outside the repository and
    [Polygon.getTriangleCount] belongs to the absent module [./polygon]; both
    are parameters of this part. *)
Inductive IndexType := Uint16Array | Uint32Array.

Definition index_modulus (ty : IndexType) : Z :=
  match ty with
  | Uint16Array => 65536
  | Uint32Array => 4294967296
  end.

Section Indices.

Variable earcut : list JS.number -> option (list nat) -> nat -> list nat.
Variable Polygon_getTriangleCount : polygon -> nat.

(** [getTriangleCount(polygons)]. *)
Definition getTriangleCount (polygons : list polygon) : nat :=
  foldl (fun triangles polygon => triangles + Polygon_getTriangleCount polygon) 0 polygons.

(** [calculateSurfaceIndices(complexPolygon)], on a normalized polygon. *)
Definition calculateSurfaceIndices (complexPolygon : polygon) : list nat :=
  let holeIndices := getHoleIndices (Polygon.rings complexPolygon) in
  let verts := flattenVertices2 (Polygon.rings complexPolygon) in
  earcut verts holeIndices 3.

(** The conversion of [index + offsets[polygonIndex]] on a store into the
    index array; an unassigned offset makes the sum NaN, stored as 0. *)
Definition to_index (ty : IndexType) (index : nat) (offset : option (option nat)) : Z :=
  match offset with
  | Some (Some o) => (Z.of_nat (index + o) mod index_modulus ty)%Z
  | _ => 0%Z
  end.

(** [calculateIndices({polygons, IndexType = Uint32Array})]. *)
Definition calculateIndices (polygons : list polygon) (ty : option IndexType)
    : M (Buffer Z) :=
  (let ty := default Uint32Array ty in
   let indexCount := 3 * getTriangleCount polygons in
   let offsets := getPolygonOffsets polygons in
   let* _ :=
     match ty with
     | Uint16Array =>
         if (65535 <? Z.of_nat indexCount)%Z then throw IndexOverflowError else ret tt
     | Uint32Array => ret tt
     end in
   let* attribute := new_array 0%Z indexCount in
   ret (snd (forEach
               (fun '(i, attribute) polygon polygonIndex =>
                  forEach
                    (fun '(i, attribute) index (_ : nat) =>
                       (S i, store (fun index => to_index ty index (offsets !! polygonIndex))
                               attribute i index))
                    (calculateSurfaceIndices polygon) (i, attribute))
               polygons (0, attribute))))%tess.

(** The method [indices()]: it passes [{polygons, indexCount}], so the index
    type is the default one. *)
Definition indices (t : PolygonTesselator) : M (Buffer Z) :=
  calculateIndices (polygons t) None.

End Indices.

(** ** [flattenVertices2] on any nested array

    The exported [flattenVertices2(nestedArray, {result = [], dimensions = 3})]
    with both branches of its loop: an element that is a container goes to
    [flattenVertices] of the absent [experimental] utilities, which is a
    parameter here, and an element that is not is pushed while fewer than
    [dimensions] elements have been pushed. *)
Module Nested.

Section Flatten.

Variable Container : Type.
Variable flattenVertices : Container -> list JS.value -> nat -> list JS.value.

(** An element of the nested array, as [isContainer] sees it. *)
Inductive element :=
  | Scalar (value : JS.value)
  | Contained (value : Container).

Definition flattenVertices2 (nestedArray : list element) (result : list JS.value)
    (dimensions : nat) : list JS.value :=
  let '(result, vertexLength) :=
    forEach
      (fun '(result, vertexLength) (value : element) (_ : nat) =>
         match value with
         | Contained c => (flattenVertices c result dimensions, vertexLength)
         | Scalar v =>
             if vertexLength <? dimensions then (result ++ [v], S vertexLength)
             else (result, vertexLength)
         end)
      nestedArray (result, 0) in
  if (0 <? vertexLength) && (vertexLength <? dimensions)
  then result ++ [JS.Num (JS.of_Z 0)] else result.

End Flatten.

Arguments Scalar {Container}.
Arguments Contained {Container}.
Arguments flattenVertices2 {Container}.

End Nested.

(** ** The benchmark's [testTesselator] *)

Record BenchResult := mkBenchResult {
  r_indices : Buffer Z;
  r_positions : option (Buffer JS.number);
  r_nextPositions : option (Buffer JS.number);
  r_vertexPositions : Buffer JS.number;
  r_colors : Buffer Z;
  r_pickingColors : Buffer Z
}.

Section Bench.

Variable earcut : list JS.number -> option (list nat) -> nat -> list nat.
Variable Polygon_getTriangleCount : polygon -> nat.

(** [testTesselator(tesselator, {getHeight, extruded, fp64})] of
    [test/bench/tesselation.bench.js]: the position pass, then the object of
    the six attributes, evaluated in the order they are written. *)
Definition testTesselator (tesselator : PolygonTesselator) (args : UpdateArgs)
    : M (BenchResult * PolygonTesselator) :=
  (let* tesselator := updatePositions_method args tesselator in
   let* indices := indices earcut Polygon_getTriangleCount tesselator in
   let positions := positions_method tesselator in
   let nextPositions := positions_method tesselator in
   let* vertexPositions := vertexPositions tesselator in
   let* r := colors_method None tesselator in
   let pickingColors := pickingColors_method r.2 in
   ret (mkBenchResult indices positions nextPositions vertexPositions r.1 pickingColors,
        r.2))%tess.

End Bench.

(** ** The solid polygon layer

    The layer that owns a tesselator: [updateGeometry] builds it from the
    data and runs the position pass, and the attribute updaters hand the
    tesselator's arrays to the attribute manager.  The attribute manager is
    followed through the calls it receives. *)

(** What the layer can throw: an error of the tesselator, or the [TypeError]
    of a method call on [undefined]. *)
Inductive layer_error :=
  | TesselatorError (e : error)
  | TypeError.

Definition LM (A : Type) : Type := World -> (layer_error + A) * World.

Definition lret {A} (a : A) : LM A := fun w => (inr a, w).
Definition lthrow {A} (e : layer_error) : LM A := fun w => (inl e, w).
Definition lbind {A B} (c : LM A) (k : A -> LM B) : LM B :=
  fun w => match c w with
           | (inr a, w') => k a w'
           | (inl e, w') => (inl e, w')
           end.

(** A call into the tesselator from the layer. *)
Definition call_tesselator {A} (c : M A) : LM A :=
  fun w => match c w with
           | (inr a, w') => (inr a, w')
           | (inl e, w') => (inl (TesselatorError e), w')
           end.

Declare Scope layer_scope.
Delimit Scope layer_scope with layer.
Notation "'let*' x := c 'in' k" := (lbind c (fun x => k))
  (at level 10, x name, c at level 100, k at level 200) : layer_scope.

(** [changeFlags]: [updateTriggersChanged] is falsy ([None]) or an object with
    the flags of the triggers that changed. *)
Record UpdateTriggersChanged := mkUpdateTriggersChanged {
  utc_all : bool;
  utc_getPolygon : bool
}.

Record ChangeFlags := mkChangeFlags {
  dataChanged : bool;
  updateTriggersChanged : option UpdateTriggersChanged
}.

(** The calls the attribute manager receives. *)
Inductive ManagerCall :=
  | InvalidateAll
  | Invalidate (triggerName : String.string).

(** What [_getModels] passes to [new Model]: the id, the draw
    mode of the geometry, the uniform [isSideVertex] and the two flags. *)
Inductive DrawMode := TRIANGLES | LINE_STRIP | TRIANGLE_STRIP.

Record ModelOptions := mkModelOptions {
  model_id : String.string;
  model_drawMode : DrawMode;
  model_isSideVertex : Z;
  model_isIndexed : bool;
  model_isInstanced : bool
}.

(** The state of the layer: the tesselator ([None] before the first one is
    built), the calls the attribute manager has received, oldest first, and the
    models with the flag that asks to hand them all attributes. *)
Record LayerState := mkLayerState {
  polygonTesselator : option PolygonTesselator;
  attributeManager : list ManagerCall;
  modelsChanged : bool;
  models : list ModelOptions
}.

Section Layer.

(** An element of [props.data], and the value of
    [props.updateTriggers.getElevation]. *)
Variable Datum : Type.
Variable Trigger : Type.

(** Whether [compareProps({oldProps, newProps, triggerName})] of the absent
    module [core/lib/props] returns something truthy. *)
Variable compareProps : Trigger -> Trigger -> bool.

(** [super.updateState(updateParams)] of the absent class [Layer]. *)
Variable Layer_updateState : LayerState -> LayerState.

(** The props the layer reads.  An accessor receives [undefined] ([None]) for
    an index past the end of the data. *)
Record LayerProps := mkLayerProps {
  props_id : String.string;
  props_data : list Datum;
  props_getPolygon : Datum -> polygon;
  props_getElevation : option Datum -> JS.number;
  props_getColor : option Datum -> ColorValue;
  props_extruded : bool;
  props_fp64 : bool;
  props_wireframe : bool;
  props_elevationTrigger : Trigger
}.

(** The three conditions [updateGeometry] computes. *)
Definition geometryConfigChanged (changeFlags : ChangeFlags) : bool :=
  dataChanged changeFlags ||
  match updateTriggersChanged changeFlags with
  | Some u => utc_all u || utc_getPolygon u
  | None => false
  end.

Definition getElevationTriggered (props oldProps : LayerProps) (changeFlags : ChangeFlags)
    : bool :=
  match updateTriggersChanged changeFlags with
  | Some _ => compareProps (props_elevationTrigger oldProps) (props_elevationTrigger props)
  | None => false
  end.

Definition shouldUpdatePositions (props oldProps : LayerProps) (changeFlags : ChangeFlags)
    : bool :=
  geometryConfigChanged changeFlags ||
  getElevationTriggered props oldProps changeFlags ||
  negb (eqb (props_extruded props) (props_extruded oldProps)) ||
  negb (eqb (props_fp64 props) (props_fp64 oldProps)).

(** The arguments [updateGeometry] passes to the position pass. *)
Definition positionArgs (props : LayerProps) : UpdateArgs :=
  mkUpdateArgs (props_fp64 props) (props_extruded props)
    (fun polygonIndex => props_getElevation props (props_data props !! polygonIndex)).

(** [updateGeometry({props, oldProps, changeFlags})]. *)
Definition updateGeometry (props oldProps : LayerProps) (changeFlags : ChangeFlags)
    (state : LayerState) : LM LayerState :=
  (let* state :=
     if geometryConfigChanged changeFlags then
       let polygons := props_getPolygon props <$> props_data props in
       let* tesselator := call_tesselator (constructor polygons) in
       lret (mkLayerState (Some tesselator) (attributeManager state ++ [InvalidateAll])
               (modelsChanged state) (models state))
     else lret state in
   if shouldUpdatePositions props oldProps changeFlags then
     match polygonTesselator state with
     | Some tesselator =>
         let* tesselator :=
           call_tesselator (updatePositions_method (positionArgs props) tesselator) in
         lret (mkLayerState (Some tesselator) (attributeManager state)
                 (modelsChanged state) (models state))
     | None => lthrow TypeError
     end
   else lret state)%layer.

(** [_getModels(gl)]: the top model unless [wireframe], the side model if
    [extruded]; [filter(Boolean)] drops the one that is [false]. *)
Definition _getModels (props : LayerProps) : list ModelOptions :=
  (if negb (props_wireframe props)
   then [mkModelOptions (String.append (props_id props) "-top"%string) TRIANGLES 0 true false] else []) ++
  (if props_extruded props
   then [mkModelOptions (String.append (props_id props) "-side"%string)
           (if props_wireframe props then LINE_STRIP else TRIANGLE_STRIP) 1 false true]
   else []).

(** [updateState(updateParams)]. *)
Definition updateState (props oldProps : LayerProps) (changeFlags : ChangeFlags)
    (state : LayerState) : LM LayerState :=
  (let state := Layer_updateState state in
   let* state := updateGeometry props oldProps changeFlags state in
   let regenerateModels :=
     negb (eqb (props_fp64 props) (props_fp64 oldProps)) ||
     negb (eqb (props_extruded props) (props_extruded oldProps)) ||
     negb (eqb (props_wireframe props) (props_wireframe oldProps)) in
   let state :=
     if regenerateModels then
       mkLayerState (polygonTesselator state) (attributeManager state) true (_getModels props)
     else state in
   let state :=
     if negb (eqb (props_extruded props) (negb (props_extruded oldProps))) then
       mkLayerState (polygonTesselator state) (attributeManager state ++ [Invalidate "extruded"%string])
         (modelsChanged state) (models state)
     else state in
   let state :=
     if negb (eqb (props_fp64 props) (negb (props_fp64 oldProps))) then
       mkLayerState (polygonTesselator state) (attributeManager state ++ [Invalidate "fp64"%string])
         (modelsChanged state) (models state)
     else state in
   lret state)%layer.

(** The attribute updaters that read the position arrays: the value they
    store in the attribute. *)
Definition calculatePositions (state : LayerState) : LM (option (Buffer JS.number)) :=
  match polygonTesselator state with
  | Some tesselator => lret (positions_method tesselator)
  | None => lthrow TypeError
  end.

Definition calculateNextPositions (state : LayerState) : LM (option (Buffer JS.number)) :=
  match polygonTesselator state with
  | Some tesselator => lret (nextPositions_method tesselator)
  | None => lthrow TypeError
  end.

End Layer.

Arguments mkLayerProps {Datum Trigger}.
Arguments props_id {Datum Trigger}.
Arguments props_data {Datum Trigger}.
Arguments props_getPolygon {Datum Trigger}.
Arguments props_getElevation {Datum Trigger}.
Arguments props_getColor {Datum Trigger}.
Arguments props_extruded {Datum Trigger}.
Arguments props_fp64 {Datum Trigger}.
Arguments props_wireframe {Datum Trigger}.
Arguments props_elevationTrigger {Datum Trigger}.
Arguments getElevationTriggered {Datum Trigger}.
Arguments shouldUpdatePositions {Datum Trigger}.
Arguments positionArgs {Datum Trigger}.
Arguments updateGeometry {Datum Trigger}.
Arguments _getModels {Datum Trigger}.
Arguments updateState {Datum Trigger}.



(** ** The map controller: viewport props

    [MapController.getViewportProps] of the same file.  The viewport class
    [WebMercatorViewport] and [Math.log2] are outside the file and are
    parameters.  The function [mod] that the method calls is neither defined
    nor imported in the file: the evaluation of a call of it throws a
    ReferenceError. *)
Module MapController.

(** Arithmetic and comparison on values: an operand is converted to a number
    first, [undefined] to NaN. *)
Definition div (x y : JS.number) : JS.number := SFdiv JS.prec64 JS.emax64 x y.

Definition lt (a b : JS.value) : bool := SFltb (JS.ToNumber a) (JS.ToNumber b).
Definition gt (a b : JS.value) : bool := lt b a.

(** The number a decimal literal [n / d] denotes: the binary64 nearest to the
    quotient. *)
Definition decimal (n d : Z) : JS.number := div (JS.of_Z n) (JS.of_Z d).

(** [MAPBOX_LIMITS]. *)
Record Limits := mkLimits {
  minZoom : JS.value;
  maxZoom : JS.value;
  minPitch : JS.value;
  maxPitch : JS.value;
  maxLatitude : JS.value;
  minLatitude : JS.value
}.

Definition MAPBOX_LIMITS : Limits :=
  mkLimits (JS.Num (JS.of_Z 0)) (JS.Num (JS.of_Z 20))
    (JS.Num (JS.of_Z 0)) (JS.Num (JS.of_Z 60))
    (JS.Num (decimal 8505113 100000)) (JS.Num (decimal (-8505113) 100000)).

(** [viewState.props]: a limit the view state does not define is [None]; a
    property that is read with a default or without one is a value, which is
    [undefined] when the view state does not define it. *)
Record ViewStateProps := mkViewStateProps {
  vs_width : JS.value;
  vs_height : JS.value;
  vs_longitude : JS.value;
  vs_latitude : JS.value;
  vs_zoom : JS.value;
  vs_pitch : JS.value;
  vs_bearing : JS.value;
  vs_altitude : JS.value;
  vs_maxZoom : option JS.value;
  vs_minZoom : option JS.value;
  vs_maxPitch : option JS.value;
  vs_minPitch : option JS.value;
  vs_maxLatitude : option JS.value;
  vs_minLatitude : option JS.value
}.

(** The object [props] that [getViewportProps] builds and returns. *)
Record ViewportProps := mkViewportProps {
  width : JS.value;
  height : JS.value;
  longitude : JS.value;
  latitude : JS.value;
  zoom : JS.value;
  pitch : JS.value;
  bearing : JS.value;
  altitude : JS.value;
  props_maxZoom : JS.value;
  props_minZoom : JS.value;
  props_maxPitch : JS.value;
  props_minPitch : JS.value;
  props_maxLatitude : JS.value;
  props_minLatitude : JS.value
}.

(** What [getViewportProps] can throw. *)
Inductive exception := ReferenceError.

(** A destructuring default: [name = d] takes [d] for [undefined]. *)
Definition or_default (d : JS.number) (v : JS.value) : JS.value :=
  match v with
  | JS.Undefined => JS.Num d
  | _ => v
  end.

Section Viewport.

(** [new WebMercatorViewport(props).project([lng, lat])] and
    [.unproject([x, y])]: the pair of the two elements of the result. *)
Variable project : ViewportProps -> JS.value * JS.value -> JS.value * JS.value.
Variable unproject : ViewportProps -> JS.value * JS.value -> JS.value * JS.value.

(** [Math.log2]. *)
Variable Math_log2 : JS.number -> JS.number.

(** [_getLatitudeRange(props)]: the flat viewport, given by the props it is
    built from, and the pair [topY, bottomY]. *)
Definition _getLatitudeRange (props : ViewportProps)
    : ViewportProps * (JS.value * JS.value) :=
  let flatViewport :=
    mkViewportProps (width props) (height props) (longitude props) (latitude props)
      (zoom props) (JS.Num (JS.of_Z 0)) (JS.Num (JS.of_Z 0)) (altitude props)
      (props_maxZoom props) (props_minZoom props) (props_maxPitch props)
      (props_minPitch props) (props_maxLatitude props) (props_minLatitude props) in
  (flatViewport,
   ((project flatViewport (longitude props, props_maxLatitude props)).2,
    (project flatViewport (longitude props, props_minLatitude props)).2)).

Definition set_zoom (props : ViewportProps) (v : JS.value) : ViewportProps :=
  mkViewportProps (width props) (height props) (longitude props) (latitude props)
    v (pitch props) (bearing props) (altitude props)
    (props_maxZoom props) (props_minZoom props) (props_maxPitch props)
    (props_minPitch props) (props_maxLatitude props) (props_minLatitude props).

Definition set_latitude (props : ViewportProps) (v : JS.value) : ViewportProps :=
  mkViewportProps (width props) (height props) (longitude props) v
    (zoom props) (pitch props) (bearing props) (altitude props)
    (props_maxZoom props) (props_minZoom props) (props_maxPitch props)
    (props_minPitch props) (props_maxLatitude props) (props_minLatitude props).

(** The test [value < -180 || value > 180] on degrees. *)
Definition outside180 (v : JS.value) : bool :=
  lt v (JS.Num (JS.of_Z (-180))) || gt v (JS.Num (JS.of_Z 180)).

(** [getViewportProps(viewState)].  The two assignments under "Normalize
    degrees" call [mod], which is not bound: when the test of one of them
    holds, the method throws. *)
Definition getViewportProps (viewState : ViewStateProps) : exception + ViewportProps :=
  let width := vs_width viewState in
  let height := vs_height viewState in
  let longitude := vs_longitude viewState in
  let latitude := vs_latitude viewState in
  let zoom := vs_zoom viewState in
  let pitch := or_default (JS.of_Z 0) (vs_pitch viewState) in
  let bearing := or_default (JS.of_Z 0) (vs_bearing viewState) in
  let altitude := or_default (decimal 15 10) (vs_altitude viewState) in
  let maxZoom := default (maxZoom MAPBOX_LIMITS) (vs_maxZoom viewState) in
  let minZoom := default (minZoom MAPBOX_LIMITS) (vs_minZoom viewState) in
  let maxPitch := default (maxPitch MAPBOX_LIMITS) (vs_maxPitch viewState) in
  let minPitch := default (minPitch MAPBOX_LIMITS) (vs_minPitch viewState) in
  let maxLatitude := default (maxLatitude MAPBOX_LIMITS) (vs_maxLatitude viewState) in
  let minLatitude := default (minLatitude MAPBOX_LIMITS) (vs_minLatitude viewState) in
  (* Normalize degrees *)
  if outside180 longitude then inl ReferenceError else
  if outside180 bearing then inl ReferenceError else
  (* Ensure zoom is within specified range *)
  let props_zoom := if gt zoom maxZoom then maxZoom else zoom in
  let props_zoom := if lt zoom minZoom then minZoom else zoom in
  (* Ensure pitch is within specified range *)
  let props_pitch := if gt pitch maxPitch then maxPitch else pitch in
  let props_pitch := if lt pitch minPitch then minPitch else pitch in
  let props :=
    mkViewportProps width height longitude latitude props_zoom props_pitch
      bearing altitude maxZoom minZoom maxPitch minPitch maxLatitude minLatitude in
  (* Constrain zoom and shift center at low zoom levels *)
  let '(viewport, (topY, bottomY)) := _getLatitudeRange props in
  let '(props, viewport, topY, bottomY) :=
    if lt (JS.Num (JS.sub (JS.ToNumber bottomY) (JS.ToNumber topY))) height then
      let props :=
        set_zoom props
          (JS.Num (JS.add (JS.ToNumber (MapController.zoom props))
                     (Math_log2 (div (JS.ToNumber height)
                                   (JS.sub (JS.ToNumber bottomY) (JS.ToNumber topY)))))) in
      let '(viewport, (topY, bottomY)) := _getLatitudeRange props in
      (props, viewport, topY, bottomY)
    else (props, viewport, topY, bottomY) in
  let shiftY :=
    if gt topY (JS.Num (JS.of_Z 0)) then topY
    else if lt bottomY height
         then JS.Num (JS.sub (JS.ToNumber bottomY) (JS.ToNumber height))
         else JS.Num (JS.of_Z 0) in
  if JS.truthy shiftY then
    inr (set_latitude props
           (unproject viewport
              (JS.Num (div (JS.ToNumber (MapController.width props)) (JS.of_Z 2)),
               JS.Num (JS.add (div (JS.ToNumber height) (JS.of_Z 2))
                         (JS.ToNumber shiftY)))).2)
  else inr props.

End Viewport.

End MapController.

(** ** The trip decoder: [shiftTrip]

    [shiftTrip] of [demo/src/static/workers/hero-data-decoder.js]; the global
    [TRAIL_LENGTH] is an argument. *)
Module HeroDataDecoder.

Record Trip := mkTrip {
  vendor : JS.value;
  startTime : JS.value;
  endTime : JS.value;
  segments : list (list JS.value)
}.

(** [p[2] + offset]. *)
Definition shiftedTime (offset : JS.number) (p : list JS.value) : JS.number :=
  JS.add (JS.ToNumber (JS.get id p 2)) offset.

(** [shiftTrip(trip, offset)]: the callback of [map] shifts the time of a
    point and moves [cutoffIndex] to the index of the point when the shifted
    time is before [-TRAIL_LENGTH]; [slice(cutoffIndex)] drops the points
    before that index. *)
Definition shiftTrip (TRAIL_LENGTH : JS.number) (trip : Trip) (offset : JS.number) : Trip :=
  let '(cutoffIndex, mapped) :=
    forEach
      (fun '(cutoffIndex, mapped) (p : list JS.value) (i : nat) =>
         let t := shiftedTime offset p in
         let cutoffIndex := if SFltb t (SFopp TRAIL_LENGTH) then i else cutoffIndex in
         (cutoffIndex, mapped ++ [[JS.get id p 0; JS.get id p 1; JS.Num t]]))
      (segments trip) (0, []) in
  mkTrip (vendor trip)
    (JS.Num (JS.add (JS.ToNumber (startTime trip)) offset))
    (JS.Num (JS.add (JS.ToNumber (endTime trip)) offset))
    (drop cutoffIndex mapped).

End HeroDataDecoder.

(** * Properties *)

(** ** Iteration and stores *)

(** A loop whose callback ignores the index is a left fold. *)
Lemma forEach_from_foldl {A St} (f : St -> A -> St) i l s :
  forEach_from (fun s a _ => f s a) i l s = foldl f s l.
Proof. revert i s. induction l as [|a l IH]; intros i s; simpl; [done|]. apply IH. Qed.

Lemma sum_list_fmap_cons {A} (f : A -> nat) a l :
  sum_list (f <$> a :: l) = f a + sum_list (f <$> l).
Proof. done. Qed.

Lemma foldl_add_sum_list (f : polygon -> nat) l n :
  foldl (fun acc p => acc + f p) n l = n + sum_list (f <$> l).
Proof.
  revert n. induction l as [|a l IH]; intros n; [simpl; lia|].
  rewrite sum_list_fmap_cons. simpl. rewrite IH. lia.
Qed.

Section Stores.
Context {A V : Type} (conv : V -> A).

Lemma write_from_id (b : Buffer A) i src : buf_id (write_from conv b i src) = buf_id b.
Proof. revert b i. induction src as [|v src IH]; intros b i; simpl; [done|]. by rewrite IH. Qed.

Lemma write_from_length (b : Buffer A) i src :
  length (buf_data (write_from conv b i src)) = length (buf_data b).
Proof.
  revert b i. induction src as [|v src IH]; intros b i; simpl; [done|].
  rewrite IH. simpl. apply length_insert.
Qed.

Lemma write_from_lookup_out (b : Buffer A) i src j :
  j < i \/ i + length src <= j ->
  buf_data (write_from conv b i src) !! j = buf_data b !! j.
Proof.
  revert b i. induction src as [|v src IH]; intros b i Hj; simpl; [done|].
  rewrite IH by (simpl in Hj; lia). simpl.
  apply list_lookup_insert_ne. simpl in Hj. lia.
Qed.

Lemma write_from_lookup_in (b : Buffer A) i src j v :
  src !! j = Some v -> i + j < length (buf_data b) ->
  buf_data (write_from conv b i src) !! (i + j) = Some (conv v).
Proof.
  revert b i j. induction src as [|u src IH]; intros b i j Hv Hlen; simpl; [done|].
  destruct j as [|j]; simpl in Hv.
  - injection Hv as ->. rewrite write_from_lookup_out by lia. simpl.
    rewrite Nat.add_0_r. apply list_lookup_insert_eq. lia.
  - replace (i + S j) with (S i + j) by lia. apply IH; [done|].
    simpl. rewrite length_insert. lia.
Qed.

Lemma fillArray_id (b : Buffer A) src start count :
  buf_id (fillArray conv b src start count) = buf_id b.
Proof.
  revert b start. induction count as [|n IH]; intros b start; simpl; [done|].
  by rewrite IH, write_from_id.
Qed.

Lemma fillArray_length (b : Buffer A) src start count :
  length (buf_data (fillArray conv b src start count)) = length (buf_data b).
Proof.
  revert b start. induction count as [|n IH]; intros b start; simpl; [done|].
  by rewrite IH, write_from_length.
Qed.

Lemma fillArray_lookup_out (b : Buffer A) src start count j :
  j < start \/ start + length src * count <= j ->
  buf_data (fillArray conv b src start count) !! j = buf_data b !! j.
Proof.
  revert b start. induction count as [|n IH]; intros b start Hj; simpl; [done|].
  rewrite IH by nia. apply write_from_lookup_out. nia.
Qed.

Lemma fillArray_lookup_in (b : Buffer A) src start count k c v :
  k < count -> src !! c = Some v ->
  start + length src * k + c < length (buf_data b) ->
  buf_data (fillArray conv b src start count) !! (start + length src * k + c) = Some (conv v).
Proof.
  revert b start k. induction count as [|n IH]; intros b start k Hk Hv Hlen; [lia|].
  simpl. pose proof (lookup_lt_Some _ _ _ Hv) as Hc.
  destruct k as [|k].
  - rewrite fillArray_lookup_out by nia.
    replace (start + length src * 0 + c) with (start + c) by lia.
    apply write_from_lookup_in; [done|lia].
  - replace (start + length src * S k + c) with ((start + length src) + length src * k + c) by nia.
    apply IH; [lia|done|]. rewrite write_from_length. nia.
Qed.

End Stores.

(** ** Offsets *)

(** The number of vertices of the polygons before polygon [i]: the first
    vertex slot of polygon [i] in every per-vertex buffer. *)
Definition offsetOf (polygons : list polygon) (i : nat) : nat :=
  sum_list (Polygon.getVertexCount <$> take i polygons).

Lemma getPointCount_sum polygons :
  getPointCount polygons = sum_list (Polygon.getVertexCount <$> polygons).
Proof. unfold getPointCount. by rewrite foldl_add_sum_list. Qed.

Lemma offsetOf_0 polygons : offsetOf polygons 0 = 0.
Proof. done. Qed.

Lemma offsetOf_cons p polygons i :
  offsetOf (p :: polygons) (S i) = Polygon.getVertexCount p + offsetOf polygons i.
Proof. done. Qed.

Lemma offsetOf_all polygons : offsetOf polygons (length polygons) = getPointCount polygons.
Proof. unfold offsetOf. by rewrite firstn_all, getPointCount_sum. Qed.

Lemma offsetOf_S polygons i p :
  polygons !! i = Some p ->
  offsetOf polygons (S i) = offsetOf polygons i + Polygon.getVertexCount p.
Proof.
  revert i. induction polygons as [|q polygons IH]; intros i Hp; [done|].
  destruct i as [|i]; simpl in Hp.
  - injection Hp as ->. unfold offsetOf. rewrite take_0. cbn [take].
    rewrite sum_list_fmap_cons. simpl. lia.
  - rewrite !offsetOf_cons. rewrite (IH i Hp). lia.
Qed.

Lemma offsetOf_le_total polygons i p :
  polygons !! i = Some p ->
  offsetOf polygons i + Polygon.getVertexCount p <= getPointCount polygons.
Proof.
  revert i. induction polygons as [|q polygons IH]; intros i Hp; [done|].
  rewrite getPointCount_sum, sum_list_fmap_cons, <- getPointCount_sum.
  destruct i as [|i]; simpl in Hp.
  - injection Hp as ->. rewrite offsetOf_0. lia.
  - rewrite offsetOf_cons. specialize (IH i Hp). lia.
Qed.

Definition offsetsStep : nat * list (option nat) -> polygon -> nat -> nat * list (option nat) :=
  fun '(offset, offsets) p i =>
    let offset := offset + Polygon.getVertexCount p in
    (offset, <[i + 1 := Some offset]> offsets).

Lemma offsets_loop polygons idx offset (offs : list (option nat)) :
  idx + length polygons < length offs ->
  let r := forEach_from offsetsStep idx polygons (offset, offs) in
  fst r = offset + sum_list (Polygon.getVertexCount <$> polygons) /\
  length (snd r) = length offs /\
  (forall j, j <= idx -> snd r !! j = offs !! j) /\
  (forall q, q < length polygons ->
     snd r !! (idx + q + 1) = Some (Some (offset + offsetOf polygons (S q)))).
Proof.
  revert idx offset offs.
  induction polygons as [|p polygons IH]; intros idx offset offs Hlen;
    cbn [forEach_from offsetsStep length] in *; cbv zeta.
  - simpl. repeat split; [lia | intros; lia].
  - 
    destruct (IH (S idx) (offset + Polygon.getVertexCount p)
                (<[idx + 1 := Some (offset + Polygon.getVertexCount p)]> offs))
      as (Hfst & Hl & Hkeep & Hnew).
    { rewrite length_insert. lia. }
    repeat split.
    + rewrite Hfst, sum_list_fmap_cons. lia.
    + by rewrite Hl, length_insert.
    + intros j Hj. rewrite Hkeep by lia. apply list_lookup_insert_ne. lia.
    + intros q Hq. destruct q as [|q].
      * rewrite Hkeep by lia. replace (idx + 0 + 1) with (idx + 1) by lia.
        rewrite list_lookup_insert_eq by lia.
        unfold offsetOf. cbn [take]. rewrite sum_list_fmap_cons. simpl. do 2 f_equal. lia.
      * replace (idx + S q + 1) with (S idx + q + 1) by lia.
        rewrite Hnew by lia. rewrite (offsetOf_cons p polygons (S q)). do 2 f_equal. lia.
Qed.

Lemma getPolygonOffsets_spec polygons :
  length (getPolygonOffsets polygons) = length polygons + 1 /\
  forall i, i <= length polygons ->
    getPolygonOffsets polygons !! i = Some (Some (offsetOf polygons i)).
Proof.
  assert (getPolygonOffsets polygons =
          snd (forEach_from offsetsStep 0 polygons
                 (0, <[0 := Some 0]> (replicate (length polygons + 1) None)))) as ->
    by reflexivity.
  destruct (offsets_loop polygons 0 0
              (<[0 := Some 0]> (replicate (length polygons + 1) None)))
    as (_ & Hl & Hkeep & Hnew).
  { rewrite length_insert, length_replicate. lia. }
  split.
  - by rewrite Hl, length_insert, length_replicate.
  - intros i Hi. destruct i as [|i].
    + rewrite Hkeep by lia. rewrite list_lookup_insert_eq; [done|].
      rewrite length_replicate. lia.
    + replace (S i) with (0 + i + 1) at 1 by lia. rewrite Hnew by lia. done.
Qed.

(** C5: the offsets table of n polygons has n + 1 entries, starts at 0, grows
    by the vertex count of polygon i between entries i and i + 1 (so it never
    decreases), and ends at the total vertex count, which is the sum of the
    vertex counts of the polygons. *)
Theorem getPolygonOffsets_prefix_sums (polygons : list polygon) :
  length (getPolygonOffsets polygons) = length polygons + 1 /\
  getPolygonOffsets polygons !! 0 = Some (Some 0) /\
  (forall i p, polygons !! i = Some p ->
     exists a b,
       getPolygonOffsets polygons !! i = Some (Some a) /\
       getPolygonOffsets polygons !! (i + 1) = Some (Some b) /\
       b - a = Polygon.getVertexCount p /\ a <= b) /\
  getPolygonOffsets polygons !! length polygons = Some (Some (getPointCount polygons)) /\
  getPointCount polygons = sum_list (Polygon.getVertexCount <$> polygons).
Proof.
  destruct (getPolygonOffsets_spec polygons) as [Hlen Hspec].
  split; [done|]. split; [by rewrite Hspec by lia|]. split; [|split].
  - intros i p Hp. pose proof (lookup_lt_Some _ _ _ Hp) as Hi.
    exists (offsetOf polygons i), (offsetOf polygons (S i)).
    rewrite Hspec by lia. replace (i + 1) with (S i) by lia. rewrite Hspec by lia.
    rewrite (offsetOf_S _ _ _ Hp). repeat split; lia.
  - rewrite Hspec by lia. by rewrite offsetOf_all.
  - apply getPointCount_sum.
Qed.

(** ** Picking colours *)

Definition pickingStep : nat * Buffer Z -> polygon -> nat -> nat * Buffer Z :=
  fun '(i, attribute) complexPolygon polygonIndex =>
    let color := getPickingColor (Z.of_nat polygonIndex) in
    let vertexCount := Polygon.getVertexCount complexPolygon in
    (i + length color * vertexCount, fillArray int_to_uint8c attribute color i vertexCount).

Lemma picking_loop polygons idx i (attr : Buffer Z) :
  buf_id (snd (forEach_from pickingStep idx polygons (i, attr))) = buf_id attr /\
  length (buf_data (snd (forEach_from pickingStep idx polygons (i, attr))))
    = length (buf_data attr) /\
  (forall j, j < i ->
     buf_data (snd (forEach_from pickingStep idx polygons (i, attr))) !! j
       = buf_data attr !! j) /\
  (forall q p k c v,
     polygons !! q = Some p -> k < Polygon.getVertexCount p ->
     getPickingColor (Z.of_nat (idx + q)) !! c = Some v ->
     i + 3 * (offsetOf polygons q + k) + c < length (buf_data attr) ->
     buf_data (snd (forEach_from pickingStep idx polygons (i, attr)))
       !! (i + 3 * (offsetOf polygons q + k) + c) = Some (int_to_uint8c v)).
Proof.
  revert idx i attr.
  induction polygons as [|p0 polygons IH]; intros idx i attr;
    cbn [forEach_from pickingStep]; cbv zeta.
  - repeat split; try done.
  - change (length (getPickingColor (Z.of_nat idx))) with 3.
    destruct (IH (S idx) (i + 3 * Polygon.getVertexCount p0)
                (fillArray int_to_uint8c attr (getPickingColor (Z.of_nat idx)) i
                   (Polygon.getVertexCount p0)))
      as (Hid & Hl & Hkeep & Hnew).
    repeat split.
    + by rewrite Hid, fillArray_id.
    + by rewrite Hl, fillArray_length.
    + intros j Hj. rewrite Hkeep by lia. apply fillArray_lookup_out. lia.
    + intros q p k c v Hp Hk Hv Hlen.
      pose proof (lookup_lt_Some _ _ _ Hv) as Hc.
      change (length (getPickingColor (Z.of_nat (idx + q)))) with 3 in Hc.
      destruct q as [|q]; simpl in Hp.
      * injection Hp as ->. rewrite offsetOf_0, Nat.add_0_r in *.
        rewrite Hkeep by lia.
        pose proof (fillArray_lookup_in int_to_uint8c attr
                      (getPickingColor (Z.of_nat idx)) i (Polygon.getVertexCount p)
                      k c v Hk Hv) as Hfill.
        change (length (getPickingColor (Z.of_nat idx))) with 3 in Hfill.
        replace (i + 3 * (0 + k) + c) with (i + 3 * k + c) by lia.
        apply Hfill. lia.
      * rewrite offsetOf_cons in *.
        replace (i + 3 * (Polygon.getVertexCount p0 + offsetOf polygons q + k) + c)
          with (i + 3 * Polygon.getVertexCount p0 + 3 * (offsetOf polygons q + k) + c) by lia.
        apply (Hnew q p k c v Hp Hk).
        -- by replace (S idx + q) with (idx + S q) by lia.
        -- rewrite fillArray_length. lia.
Qed.

Lemma calculatePickingColors_unfold polygons n w :
  calculatePickingColors polygons n w
  = (inr (snd (forEach_from pickingStep 0 polygons
                 (0, mkBuffer (nextBuffer w) (replicate (n * 3) 0%Z)))),
     mkWorld (S (nextBuffer w)) (jsArrays w) (heightCalls w) (colorCalls w)).
Proof. reflexivity. Qed.

(** The picking buffer is a fresh array of 3 bytes per vertex, and every
    vertex slot of polygon [i] holds the three components of
    [getPickingColor i]. *)
Lemma calculatePickingColors_slots polygons w i p k c v :
  polygons !! i = Some p -> k < Polygon.getVertexCount p ->
  getPickingColor (Z.of_nat i) !! c = Some v ->
  exists b,
    calculatePickingColors polygons (getPointCount polygons) w
      = (inr b, mkWorld (S (nextBuffer w)) (jsArrays w) (heightCalls w) (colorCalls w)) /\
    buf_id b = nextBuffer w /\
    length (buf_data b) = getPointCount polygons * 3 /\
    buf_data b !! (3 * (offsetOf polygons i + k) + c) = Some (int_to_uint8c v).
Proof.
  intros Hp Hk Hv.
  pose proof (picking_loop polygons 0 0
                (mkBuffer (nextBuffer w) (replicate (getPointCount polygons * 3) 0%Z)))
    as (Hid & Hl & _ & Hnew).
  eexists. split; [apply calculatePickingColors_unfold|].
  split; [by rewrite Hid|]. split.
  - rewrite Hl. simpl. by rewrite length_replicate.
  - apply (Hnew i p k c v Hp Hk Hv). simpl. rewrite length_replicate.
    pose proof (lookup_lt_Some _ _ _ Hv) as Hc.
    change (length (getPickingColor (Z.of_nat i))) with 3 in Hc.
    pose proof (offsetOf_le_total _ _ _ Hp). lia.
Qed.

Lemma getPickingColor_range index :
  (0 <= index)%Z ->
  Forall (fun v => 0 <= v < 256)%Z (getPickingColor index).
Proof.
  intros H. unfold getPickingColor.
  repeat constructor; apply Z.mod_pos_bound; lia.
Qed.

Lemma int_to_uint8c_id v : (0 <= v < 256)%Z -> int_to_uint8c v = v.
Proof. unfold int_to_uint8c. lia. Qed.

Lemma getPickingColor_decode index :
  (0 <= index)%Z -> (index + 1 < 2 ^ 24)%Z ->
  ((index + 1) mod 256 + ((index + 1) / 256) mod 256 * 256
     + ((index + 1) / 256 / 256) mod 256 * 65536 - 1 = index)%Z.
Proof.
  intros H0 H1.
  assert ((index + 1) / 256 / 256 < 256)%Z as Hhi.
  { rewrite Z.div_div by lia. apply Z.div_lt_upper_bound; lia. }
  assert (0 <= (index + 1) / 256 / 256)%Z as Hlo.
  { apply Z.div_pos; [apply Z.div_pos|]; lia. }
  rewrite (Z.mod_small ((index + 1) / 256 / 256)) by lia.
  pose proof (Z.div_mod (index + 1) 256 ltac:(lia)).
  pose proof (Z.div_mod ((index + 1) / 256) 256 ltac:(lia)).
  lia.
Qed.

(** C2 (amended): every vertex slot of polygon i in the picking-colour buffer
    holds the triple ((i+1) mod 256, floor((i+1)/256) mod 256,
    floor((i+1)/65536) mod 256); and while i + 1 < 2^24, decoding
    r + g*256 + b*65536 - 1 gives back i and the triple is not (0,0,0). *)
Theorem picking_colors_round_trip (polygons : list polygon) (w : World)
    (i : nat) (p : polygon) (k : nat) :
  polygons !! i = Some p -> k < Polygon.getVertexCount p ->
  exists b w' r g bl,
    calculatePickingColors polygons (getPointCount polygons) w = (inr b, w') /\
    buf_data b !! (3 * (offsetOf polygons i + k)) = Some r /\
    buf_data b !! (3 * (offsetOf polygons i + k) + 1) = Some g /\
    buf_data b !! (3 * (offsetOf polygons i + k) + 2) = Some bl /\
    r = ((Z.of_nat i + 1) mod 256)%Z /\
    g = (((Z.of_nat i + 1) / 256) mod 256)%Z /\
    bl = (((Z.of_nat i + 1) / 65536) mod 256)%Z /\
    ((Z.of_nat i + 1 < 2 ^ 24)%Z ->
     (r + g * 256 + bl * 65536 - 1)%Z = Z.of_nat i /\ (r, g, bl) <> (0, 0, 0)%Z).
Proof.
  intros Hp Hk.
  pose proof (getPickingColor_range (Z.of_nat i) ltac:(lia)) as Hr.
  unfold getPickingColor in Hr.
  apply Forall_cons in Hr as [Hr0 Hr]. apply Forall_cons in Hr as [Hr1 Hr].
  apply Forall_cons in Hr as [Hr2 _].
  destruct (calculatePickingColors_slots polygons w i p k 0 _ Hp Hk eq_refl)
    as (b & Hrun & _ & _ & H0).
  destruct (calculatePickingColors_slots polygons w i p k 1 _ Hp Hk eq_refl)
    as (b1 & Hrun1 & _ & _ & H1).
  destruct (calculatePickingColors_slots polygons w i p k 2 _ Hp Hk eq_refl)
    as (b2 & Hrun2 & _ & _ & H2).
  rewrite Hrun in Hrun1, Hrun2.
  injection Hrun1 as <-. injection Hrun2 as <-.
  rewrite int_to_uint8c_id in H0, H1, H2 by done.
  rewrite Nat.add_0_r in H0.
  eexists b, _, _, _, _.
  split; [exact Hrun|]. split; [exact H0|]. split; [exact H1|]. split; [exact H2|].
  split; [done|]. split; [done|]. split; [by rewrite Z.div_div by lia|].
  intros Hi.
  pose proof (getPickingColor_decode (Z.of_nat i) ltac:(lia) Hi) as Hdec.
  split; [exact Hdec|].
  intros Heq. injection Heq as E0 E1 E2. rewrite E0, E1, E2 in Hdec. lia.
Qed.

Definition pt (x y : Z) : Point := [JS.of_Z x; JS.of_Z y].

(** The triangle [[0,0],[1,0],[0,1]], normalized. *)
Definition triangle : polygon := ComplexPolygon [[pt 0 0; pt 1 0; pt 0 1]].

(** A polygon set of 2^24 triangles, and the index of its last polygon. *)
Definition wrapCount : nat := Z.to_nat 16777216.
Definition wrapIndex : nat := Z.to_nat 16777215.
Definition manyTriangles : list polygon := replicate wrapCount triangle.

(** C2, as stated, fails on a set of 2^24 polygons: the vertex slots of the
    polygon of index 2^24 - 1 hold the reserved triple (0,0,0). *)
Lemma picking_colors_wrap_counterexample :
  exists b w',
    calculatePickingColors manyTriangles (getPointCount manyTriangles) initial_world
      = (inr b, w') /\
    manyTriangles !! wrapIndex = Some triangle /\
    buf_data b !! (3 * (offsetOf manyTriangles wrapIndex + 0)) = Some 0%Z /\
    buf_data b !! (3 * (offsetOf manyTriangles wrapIndex + 0) + 1) = Some 0%Z /\
    buf_data b !! (3 * (offsetOf manyTriangles wrapIndex + 0) + 2) = Some 0%Z.
Proof.
  assert (manyTriangles !! wrapIndex = Some triangle) as Hp.
  { apply lookup_replicate_2. unfold wrapIndex, wrapCount. lia. }
  assert (0 < Polygon.getVertexCount triangle) as Hk by (vm_compute; lia).
  assert (Z.of_nat wrapIndex = 16777215%Z) as Hi by (unfold wrapIndex; lia).
  assert (forall c, c < 3 -> getPickingColor (Z.of_nat wrapIndex) !! c = Some 0%Z) as Hv.
  { intros c Hc. rewrite Hi. destruct c as [|[|[|c]]]; [reflexivity..|lia]. }
  destruct (calculatePickingColors_slots manyTriangles initial_world wrapIndex triangle
              0 0 _ Hp Hk (Hv 0 ltac:(lia))) as (b & Hrun & _ & _ & H0).
  destruct (calculatePickingColors_slots manyTriangles initial_world wrapIndex triangle
              0 1 _ Hp Hk (Hv 1 ltac:(lia))) as (b1 & Hrun1 & _ & _ & H1).
  destruct (calculatePickingColors_slots manyTriangles initial_world wrapIndex triangle
              0 2 _ Hp Hk (Hv 2 ltac:(lia))) as (b2 & Hrun2 & _ & _ & H2).
  rewrite Hrun in Hrun1, Hrun2.
  injection Hrun1 as <-. injection Hrun2 as <-.
  rewrite Nat.add_0_r in H0.
  exists b. eexists. split; [exact Hrun|]. split; [exact Hp|].
  split; [exact H0|]. split; [exact H1 | exact H2].
Qed.

(** ** The colour pass: the arrays of the caller *)

(** What [parseColor] leaves in an array: element 3 is kept when it is a
    finite number and is 255 otherwise. *)
Definition fixAlpha (c : list JS.value) : list JS.value :=
  JS.array_set c 3
    (if JS.Number_isFinite (JS.get id c 3) then JS.get id c 3 else JS.Num (JS.of_Z 255)).

(** The array the colour pass broadcasts for an accessor result, in a world
    whose plain arrays are [arrays]. *)
Definition rgba (arrays : list (list JS.value)) (color : ColorValue) : list JS.value :=
  match color with
  | ColorArray ref => fixAlpha (default [] (arrays !! ref))
  | ColorOther c => fixAlpha [JS.get id c 0; JS.get id c 1; JS.get id c 2; JS.get id c 3]
  end.

Lemma parseColor_eq color arrays :
  parseColor color arrays =
  match color with
  | ColorArray ref => (ref, <[ref := fixAlpha (default [] (arrays !! ref))]> arrays)
  | ColorOther c =>
      let a := [JS.get id c 0; JS.get id c 1; JS.get id c 2; JS.get id c 3] in
      (length arrays, arrays ++ [fixAlpha a])
  end.
Proof.
  destruct color as [ref|c]; [reflexivity|].
  unfold parseColor. cbv zeta.
  set (a := [JS.get id c 0; JS.get id c 1; JS.get id c 2; JS.get id c 3]).
  assert ((arrays ++ [a]) !! length arrays = Some a) as Ha.
  { rewrite lookup_app_r by lia. by rewrite Nat.sub_diag. }
  rewrite Ha. simpl default. f_equal.
  fold (fixAlpha a).
  replace (length arrays) with (length arrays + 0) at 1 by lia.
  rewrite insert_app_r. done.
Qed.

Lemma fixAlpha_alpha c :
  exists x, fixAlpha c !! 3 = Some (JS.Num x) /\ JS.isFinite x = true.
Proof.
  unfold fixAlpha, JS.array_set, JS.get.
  destruct (c !! 3) as [v|] eqn:Hv.
  - pose proof (lookup_lt_Some _ _ _ Hv) as Hlen.
    destruct (decide (3 < length c)); [|lia].
    rewrite list_lookup_insert_eq by lia.
    destruct (JS.Number_isFinite (id v)) eqn:Hfin.
    + destruct v as [|x]; [done|]. by exists x.
    + by exists (JS.of_Z 255).
  - pose proof (lookup_ge_None_1 _ _ Hv) as Hlen.
    destruct (decide (3 < length c)); [lia|].
    simpl. exists (JS.of_Z 255). split; [|reflexivity].
    rewrite app_assoc, lookup_app_r; rewrite length_app, length_replicate; [|lia].
    by replace (3 - (length c + (3 - length c))) with 0 by lia.
Qed.

Lemma fixAlpha_idempotent c : fixAlpha (fixAlpha c) = fixAlpha c.
Proof.
  destruct (fixAlpha_alpha c) as (x & Hx & Hfin).
  unfold fixAlpha at 1. unfold JS.get. rewrite Hx. simpl. rewrite Hfin.
  unfold JS.array_set. pose proof (lookup_lt_Some _ _ _ Hx).
  destruct (decide (3 < length (fixAlpha c))); [|lia].
  by apply list_insert_id.
Qed.

Lemma fixAlpha_length c :
  length c = 3 \/ length c = 4 -> length (fixAlpha c) = 4.
Proof.
  intros Hc. unfold fixAlpha, JS.array_set.
  destruct (decide (3 < length c)).
  - rewrite length_insert. lia.
  - rewrite !length_app, length_replicate. simpl. lia.
Qed.

Lemma fixAlpha_three x y z : fixAlpha [x; y; z] = [x; y; z; JS.Num (JS.of_Z 255)].
Proof. reflexivity. Qed.

Lemma fixAlpha_changes c :
  JS.Number_isFinite (JS.get id c 3) = false -> fixAlpha c <> c.
Proof.
  intros Hfin Heq. destruct (fixAlpha_alpha c) as (x & Hx & Hx').
  rewrite Heq in Hx. unfold JS.get in Hfin. rewrite Hx in Hfin. simpl in Hfin. congruence.
Qed.

(** The plain arrays during a colour pass that started from [arrays0]: every
    array of the start is still there, as it was or with its alpha fixed. *)
Definition evolved (arrays0 arrays : list (list JS.value)) : Prop :=
  length arrays0 <= length arrays /\
  forall r c, arrays0 !! r = Some c ->
    arrays !! r = Some c \/ arrays !! r = Some (fixAlpha c).

Lemma evolved_refl arrays : evolved arrays arrays.
Proof. split; [done|]. intros r c Hc. by left. Qed.

Lemma parseColor_evolved arrays0 arrays color :
  evolved arrays0 arrays -> evolved arrays0 (snd (parseColor color arrays)).
Proof.
  intros [Hlen Hev]. rewrite parseColor_eq. destruct color as [ref|c]; simpl.
  - split; [by rewrite length_insert|].
    intros r c Hc. destruct (decide (r = ref)) as [->|Hne].
    + pose proof (lookup_lt_Some _ _ _ Hc).
      rewrite list_lookup_insert_eq by lia. right.
      destruct (Hev _ _ Hc) as [-> | ->]; simpl; [done|].
      by rewrite fixAlpha_idempotent.
    + rewrite list_lookup_insert_ne by done. by apply Hev.
  - split; [rewrite length_app; lia|].
    intros r c' Hc. pose proof (lookup_lt_Some _ _ _ Hc).
    rewrite lookup_app_l by lia. by apply Hev.
Qed.

Lemma parseColor_source arrays0 arrays color :
  evolved arrays0 arrays ->
  match color with ColorArray r => is_Some (arrays0 !! r) | ColorOther _ => True end ->
  snd (parseColor color arrays) !! fst (parseColor color arrays)
    = Some (rgba arrays0 color).
Proof.
  intros [Hlen Hev] Hvalid. rewrite parseColor_eq. destruct color as [ref|c]; simpl.
  - destruct Hvalid as [c Hc]. pose proof (lookup_lt_Some _ _ _ Hc).
    rewrite list_lookup_insert_eq by lia. rewrite Hc. simpl.
    destruct (Hev _ _ Hc) as [-> | ->]; simpl; [done|].
    by rewrite fixAlpha_idempotent.
  - rewrite lookup_app_r by lia. by rewrite Nat.sub_diag.
Qed.

Lemma parseColor_fixes arrays0 arrays r c :
  evolved arrays0 arrays -> arrays0 !! r = Some c ->
  snd (parseColor (ColorArray r) arrays) !! r = Some (fixAlpha c).
Proof.
  intros Hev Hc.
  pose proof (parseColor_source arrays0 arrays (ColorArray r) Hev) as Hs.
  simpl in Hs. rewrite Hc in Hs. apply Hs. by eexists.
Qed.

Lemma parseColor_keeps_fixed arrays0 arrays color r c :
  evolved arrays0 arrays -> arrays0 !! r = Some c ->
  arrays !! r = Some (fixAlpha c) ->
  snd (parseColor color arrays) !! r = Some (fixAlpha c).
Proof.
  intros [Hlen Hev] Hc Hfixed. rewrite parseColor_eq. destruct color as [ref|c']; simpl.
  - destruct (decide (r = ref)) as [->|Hne].
    + pose proof (lookup_lt_Some _ _ _ Hfixed).
      rewrite list_lookup_insert_eq by lia. rewrite Hfixed. simpl.
      by rewrite fixAlpha_idempotent.
    + by rewrite list_lookup_insert_ne.
  - pose proof (lookup_lt_Some _ _ _ Hfixed). by rewrite lookup_app_l by lia.
Qed.

(** ** The colour pass: the loop *)

Definition validColor (arrays0 : list (list JS.value)) (color : ColorValue) : Prop :=
  match color with
  | ColorArray r => is_Some (arrays0 !! r)
  | ColorOther _ => True
  end.

Lemma colorStep_eq getColor s p idx :
  colorStep getColor s p idx =
  let pc := parseColor (getColor idx) (cs_arrays s) in
  let source := default [] (snd pc !! fst pc) in
  mkColorState (cs_i s + length source * Polygon.getVertexCount p)
    (fillArray to_uint8c (cs_colors s) source (cs_i s) (Polygon.getVertexCount p))
    (snd pc) (cs_calls s ++ [idx]).
Proof. unfold colorStep. by destruct (parseColor (getColor idx) (cs_arrays s)). Qed.

Lemma colors_loop_arrays getColor arrays0 polygons idx s :
  evolved arrays0 (cs_arrays s) ->
  cs_calls (forEach_from (colorStep getColor) idx polygons s)
    = cs_calls s ++ seq idx (length polygons) /\
  evolved arrays0 (cs_arrays (forEach_from (colorStep getColor) idx polygons s)) /\
  (forall r c, arrays0 !! r = Some c ->
     cs_arrays s !! r = Some (fixAlpha c) \/
       (exists q, q < length polygons /\ getColor (idx + q) = ColorArray r) ->
     cs_arrays (forEach_from (colorStep getColor) idx polygons s) !! r
       = Some (fixAlpha c)).
Proof.
  revert idx s. induction polygons as [|p polygons IH]; intros idx s Hev; cbn [forEach_from].
  - split; [by rewrite app_nil_r|]. split; [done|].
    intros r c Hc [H|(q & Hq & _)]; [done|simpl in Hq; lia].
  - pose proof (parseColor_evolved _ _ (getColor idx) Hev) as Hev1.
    destruct (IH (S idx) (colorStep getColor s p idx)) as (Hcalls & Hev2 & Hfix).
    { by rewrite colorStep_eq. }
    split; [|split; [done|]].
    + rewrite Hcalls, colorStep_eq. simpl. by rewrite <- app_assoc.
    + intros r c Hc Hcase. apply (Hfix r c Hc).
      rewrite colorStep_eq. simpl.
      destruct Hcase as [Hfixed|(q & Hq & Hget)].
      * left. by apply (parseColor_keeps_fixed arrays0).
      * destruct q as [|q].
        -- left. rewrite Nat.add_0_r in Hget. rewrite Hget.
           by apply (parseColor_fixes arrays0).
        -- right. exists q. split; [simpl in Hq; lia|].
           rewrite <- Hget. f_equal. lia.
Qed.

Lemma colors_loop_buffer getColor arrays0 polygons idx s :
  evolved arrays0 (cs_arrays s) ->
  (forall q, q < length polygons ->
     validColor arrays0 (getColor (idx + q)) /\
     length (rgba arrays0 (getColor (idx + q))) = 4) ->
  buf_id (cs_colors (forEach_from (colorStep getColor) idx polygons s))
    = buf_id (cs_colors s) /\
  length (buf_data (cs_colors (forEach_from (colorStep getColor) idx polygons s)))
    = length (buf_data (cs_colors s)) /\
  (forall j, j < cs_i s ->
     buf_data (cs_colors (forEach_from (colorStep getColor) idx polygons s)) !! j
       = buf_data (cs_colors s) !! j) /\
  (forall q p k ch v,
     polygons !! q = Some p -> k < Polygon.getVertexCount p ->
     rgba arrays0 (getColor (idx + q)) !! ch = Some v ->
     cs_i s + 4 * (offsetOf polygons q + k) + ch < length (buf_data (cs_colors s)) ->
     buf_data (cs_colors (forEach_from (colorStep getColor) idx polygons s))
       !! (cs_i s + 4 * (offsetOf polygons q + k) + ch) = Some (to_uint8c v)).
Proof.
  revert idx s. induction polygons as [|p0 polygons IH]; intros idx s Hev Hok;
    cbn [forEach_from].
  - repeat split; try done.
  - destruct (Hok 0 ltac:(simpl; lia)) as [Hvalid Hlen4].
    rewrite Nat.add_0_r in Hvalid, Hlen4.
    pose proof (parseColor_source _ _ _ Hev Hvalid) as Hsrc.
    assert (colorStep getColor s p0 idx =
            mkColorState (cs_i s + 4 * Polygon.getVertexCount p0)
              (fillArray to_uint8c (cs_colors s) (rgba arrays0 (getColor idx)) (cs_i s)
                 (Polygon.getVertexCount p0))
              (snd (parseColor (getColor idx) (cs_arrays s))) (cs_calls s ++ [idx])) as Hstep.
    { rewrite colorStep_eq. cbv zeta. rewrite Hsrc. simpl default. by rewrite Hlen4. }
    rewrite Hstep.
    match goal with |- context [forEach_from _ _ _ ?s1] => set (s1' := s1) end.
    destruct (IH (S idx) s1') as (Hid & Hl & Hkeep & Hnew).
    { by apply parseColor_evolved. }
    { intros q Hq. replace (S idx + q) with (idx + S q) by lia. apply Hok. simpl. lia. }
    subst s1'. cbn [cs_i cs_colors cs_arrays cs_calls] in Hid, Hl, Hkeep, Hnew.
    repeat split.
    + by rewrite Hid, fillArray_id.
    + by rewrite Hl, fillArray_length.
    + intros j Hj. rewrite Hkeep by lia. apply fillArray_lookup_out. lia.
    + intros q p k ch v Hp Hk Hv Hlen.
      destruct q as [|q]; simpl in Hp.
      * injection Hp as ->. rewrite Nat.add_0_r in Hv.
        pose proof (lookup_lt_Some _ _ _ Hv) as Hch. rewrite Hlen4 in Hch.
        rewrite offsetOf_0 in *. rewrite Hkeep by lia.
        pose proof (fillArray_lookup_in to_uint8c (cs_colors s)
                      (rgba arrays0 (getColor idx)) (cs_i s) (Polygon.getVertexCount p)
                      k ch v Hk Hv) as Hfill.
        rewrite Hlen4 in Hfill.
        replace (cs_i s + 4 * (0 + k) + ch) with (cs_i s + 4 * k + ch) by lia.
        apply Hfill. lia.
      * rewrite offsetOf_cons in *.
        replace (cs_i s + 4 * (Polygon.getVertexCount p0 + offsetOf polygons q + k) + ch)
          with (cs_i s + 4 * Polygon.getVertexCount p0 + 4 * (offsetOf polygons q + k) + ch)
          by lia.
        apply (Hnew q p k ch v Hp Hk).
        -- by replace (S idx + q) with (idx + S q) by lia.
        -- rewrite fillArray_length. lia.
Qed.

(** ** The colour pass: the method *)

(** What every method keeps true of a tesselator: the cached vertex count is
    the one of the cached polygons, and every buffer that exists has the
    length that count asks for. *)
Definition has_length {A} (n : nat) (b : option (Buffer A)) : Prop :=
  forall x, b = Some x -> length (buf_data x) = n.

Record tesselator_ok (t : PolygonTesselator) : Prop := mkTesselatorOk {
  ok_pointCount : pointCount t = getPointCount (polygons t);
  ok_picking : length (buf_data (pickingColors (attributes t))) = pointCount t * 3;
  ok_positions : has_length (pointCount t * 3) (positions (attributes t));
  ok_nextPositions : has_length (pointCount t * 3) (nextPositions (attributes t));
  ok_positions64xyLow : has_length (pointCount t * 2) (positions64xyLow (attributes t));
  ok_nextPositions64xyLow :
    has_length (pointCount t * 2) (nextPositions64xyLow (attributes t));
  ok_colors : has_length (pointCount t * 4) (colors (attributes t))
}.

Lemma has_length_None {A} n : has_length n (@None (Buffer A)).
Proof. by intros x. Qed.

Lemma has_length_Some {A} n (b : Buffer A) :
  length (buf_data b) = n -> has_length n (Some b).
Proof. intros H x [= <-]. done. Qed.

(** The colour buffer the method works on, and the allocation counter after
    it: [attributes.colors || new Uint8ClampedArray(pointCount * 4)]. *)
Definition colorsBuffer (t : PolygonTesselator) (w : World) : Buffer Z :=
  match colors (attributes t) with
  | Some b => b
  | None => mkBuffer (nextBuffer w) (replicate (pointCount t * 4) 0%Z)
  end.

Definition colorsCounter (t : PolygonTesselator) (w : World) : nat :=
  match colors (attributes t) with
  | Some _ => nextBuffer w
  | None => S (nextBuffer w)
  end.

Definition colorsAccessor (getColor : option (nat -> ColorValue)) : nat -> ColorValue :=
  default (fun _ => ColorArray DEFAULT_COLOR) getColor.

Definition colorsLoop (getColor : option (nat -> ColorValue)) (t : PolygonTesselator)
    (w : World) : ColorState :=
  forEach_from (colorStep (colorsAccessor getColor)) 0 (polygons t)
    (mkColorState 0 (colorsBuffer t w) (jsArrays w) []).

Lemma colors_method_eq getColor t w :
  colors_method getColor t w =
  (inr (cs_colors (colorsLoop getColor t w),
        mkTesselator (polygons t) (pointCount t)
          (mkAttributes (pickingColors (attributes t)) (positions (attributes t))
             (nextPositions (attributes t)) (positions64xyLow (attributes t))
             (nextPositions64xyLow (attributes t))
             (Some (cs_colors (colorsLoop getColor t w))))),
   mkWorld (colorsCounter t w) (cs_arrays (colorsLoop getColor t w)) (heightCalls w)
     (colorCalls w ++ cs_calls (colorsLoop getColor t w))).
Proof.
  unfold colors_method, colorsLoop, colorsBuffer, colorsCounter, colorsAccessor, bind, or_new.
  destruct (colors (attributes t)); reflexivity.
Qed.

Lemma colorsBuffer_length t w :
  tesselator_ok t -> length (buf_data (colorsBuffer t w)) = pointCount t * 4.
Proof.
  intros Hok. unfold colorsBuffer. pose proof (ok_colors t Hok) as Hc.
  destruct (colors (attributes t)) as [b|]; [by apply Hc|].
  simpl. by rewrite length_replicate.
Qed.

(** C9: a colour pass calls the accessor once per polygon, in polygon order;
    an array of three channels is completed with alpha 255; the four bytes of
    the resulting colour fill every vertex slot of the polygon; and without an
    accessor every vertex gets (0, 0, 0, 255). An accessor result is an array
    of 3 or 4 channels, or a container other than an array. *)
Theorem colors_broadcast (getColor : option (nat -> ColorValue))
    (t : PolygonTesselator) (w : World) :
  tesselator_ok t ->
  (forall q, q < length (polygons t) ->
     match colorsAccessor getColor q with
     | ColorArray r => exists c, jsArrays w !! r = Some c /\ (length c = 3 \/ length c = 4)
     | ColorOther _ => True
     end) ->
  exists c t' w',
    colors_method getColor t w = (inr (c, t'), w') /\
    colorCalls w' = colorCalls w ++ seq 0 (length (polygons t)) /\
    (forall q p k ch,
       polygons t !! q = Some p -> k < Polygon.getVertexCount p -> ch < 4 ->
       buf_data c !! (4 * (offsetOf (polygons t) q + k) + ch)
         = to_uint8c <$> rgba (jsArrays w) (colorsAccessor getColor q) !! ch) /\
    (forall q r x y z,
       colorsAccessor getColor q = ColorArray r -> jsArrays w !! r = Some [x; y; z] ->
       rgba (jsArrays w) (colorsAccessor getColor q) = [x; y; z; JS.Num (JS.of_Z 255)]) /\
    (getColor = None -> jsArrays w !! DEFAULT_COLOR = Some DEFAULT_COLOR_value ->
     forall q p k,
       polygons t !! q = Some p -> k < Polygon.getVertexCount p ->
       buf_data c !! (4 * (offsetOf (polygons t) q + k) + 0) = Some 0%Z /\
       buf_data c !! (4 * (offsetOf (polygons t) q + k) + 1) = Some 0%Z /\
       buf_data c !! (4 * (offsetOf (polygons t) q + k) + 2) = Some 0%Z /\
       buf_data c !! (4 * (offsetOf (polygons t) q + k) + 3) = Some 255%Z).
Proof.
  intros Hok Hacc. rewrite colors_method_eq. eexists _, _, _. split; [reflexivity|].
  cbn [colorCalls].
  assert (forall q, q < length (polygons t) ->
            validColor (jsArrays w) (colorsAccessor getColor (0 + q)) /\
            length (rgba (jsArrays w) (colorsAccessor getColor (0 + q))) = 4) as Hvalid.
  { intros q Hq. specialize (Hacc q Hq). simpl.
    destruct (colorsAccessor getColor q) as [r|c0]; simpl.
    - destruct Hacc as (c0 & Hc0 & Hlen). rewrite Hc0. split; [by eexists|].
      by apply fixAlpha_length.
    - split; [done|]. first [done | by apply fixAlpha_length; right]. }
  pose proof (colors_loop_arrays (colorsAccessor getColor) (jsArrays w) (polygons t) 0
                (mkColorState 0 (colorsBuffer t w) (jsArrays w) [])
                (evolved_refl _)) as (Hcalls & _ & _).
  pose proof (colors_loop_buffer (colorsAccessor getColor) (jsArrays w) (polygons t) 0
                (mkColorState 0 (colorsBuffer t w) (jsArrays w) [])
                (evolved_refl _) Hvalid) as (_ & _ & _ & Hslots).
  fold (colorsLoop getColor t w) in Hcalls, Hslots.
  cbn [cs_i cs_colors cs_calls] in Hcalls, Hslots.
  assert (forall q p k ch,
            polygons t !! q = Some p -> k < Polygon.getVertexCount p -> ch < 4 ->
            buf_data (cs_colors (colorsLoop getColor t w))
              !! (4 * (offsetOf (polygons t) q + k) + ch)
            = to_uint8c <$> rgba (jsArrays w) (colorsAccessor getColor q) !! ch) as Hall.
  { intros q p k ch Hp Hk Hch.
    destruct (Hvalid q (lookup_lt_Some _ _ _ Hp)) as [_ Hlen4]. simpl in Hlen4.
    destruct (lookup_lt_is_Some_2 (rgba (jsArrays w) (colorsAccessor getColor q)) ch
                ltac:(lia)) as [v Hv].
    rewrite Hv. simpl.
    apply (Hslots q p k ch v Hp Hk Hv).
    rewrite colorsBuffer_length by done.
    pose proof (offsetOf_le_total _ _ _ Hp). rewrite (ok_pointCount t Hok). lia. }
  split; [by rewrite Hcalls|]. split; [exact Hall|]. split.
  - intros q r x y z Hq Hr. rewrite Hq. simpl. rewrite Hr. apply fixAlpha_three.
  - intros -> Hdef q p k Hp Hk.
    assert (rgba (jsArrays w) (colorsAccessor None q) = DEFAULT_COLOR_value) as Hrgba.
    { simpl. rewrite Hdef. reflexivity. }
    rewrite !(Hall q p k) by (done || lia). rewrite Hrgba. repeat split; reflexivity.
Qed.

Lemma fixAlpha_not_finite c :
  JS.Number_isFinite (JS.get id c 3) = false ->
  fixAlpha c !! 3 = Some (JS.Num (JS.of_Z 255)).
Proof.
  intros Hfin. unfold fixAlpha. rewrite Hfin. unfold JS.array_set.
  destruct (decide (3 < length c)).
  - by apply list_lookup_insert_eq.
  - rewrite app_assoc, lookup_app_r; rewrite length_app, length_replicate; [|lia].
    by replace (3 - (length c + (3 - length c))) with 0 by lia.
Qed.

(** C10: when the accessor hands out an array whose element 3 is missing or
    is not a finite number, the colour pass writes 255 into element 3 of that
    very array: after the call the caller's array differs from what it was. *)
Theorem colors_mutates_accessor_array (getColor : nat -> ColorValue)
    (t : PolygonTesselator) (w : World) (q r : nat) (c : list JS.value) :
  q < length (polygons t) ->
  getColor q = ColorArray r ->
  jsArrays w !! r = Some c ->
  JS.Number_isFinite (JS.get id c 3) = false ->
  exists out w' c',
    colors_method (Some getColor) t w = (inr out, w') /\
    jsArrays w' !! r = Some c' /\
    c' !! 3 = Some (JS.Num (JS.of_Z 255)) /\
    c' <> c.
Proof.
  intros Hq Hget Hc Hfin. rewrite colors_method_eq.
  eexists _, _, (fixAlpha c). split; [reflexivity|]. cbn [jsArrays].
  pose proof (colors_loop_arrays getColor (jsArrays w) (polygons t) 0
                (mkColorState 0 (colorsBuffer t w) (jsArrays w) [])
                (evolved_refl _)) as (_ & _ & Hfix).
  split; [|split].
  - apply (Hfix r c Hc). right. exists q. by split.
  - by apply fixAlpha_not_finite.
  - by apply fixAlpha_changes.
Qed.

(** ** The position pass: what is written, in order

    Every buffer of the position pass is written front to back through its
    own cursor, so a state of the pass is determined by the values written to
    each buffer so far. *)
Record Streams := mkStreams {
  st_pos : list JS.value;
  st_low : list JS.value;
  st_next : list JS.value;
  st_nextLow : list JS.value;
  st_start : option StartVertex
}.

(** The state of the pass that has written [ch] into the buffers of [a]. *)
Definition realize (a : Attributes) (ch : Streams) : PositionState :=
  mkPositionState
    (put (positions a) 0 (st_pos ch)) (put (positions64xyLow a) 0 (st_low ch))
    (put (nextPositions a) 0 (st_next ch)) (put (nextPositions64xyLow a) 0 (st_nextLow ch))
    (length (st_pos ch)) (length (st_low ch))
    (length (st_next ch)) (length (st_nextLow ch))
    (st_start ch).

(** The three values a vertex contributes to the position buffer. *)
Definition vertexXYZ (height : JS.number) (vertex : Point) : list JS.value :=
  [JS.get JS.Num vertex 0; JS.get JS.Num vertex 1;
   JS.Num (JS.add (JS.or_zero (JS.get JS.Num vertex 2)) height)].

Definition lowPart (v : JS.value) : JS.value :=
  JS.Num (JS.sub (JS.ToNumber v) (JS.fround (JS.ToNumber v))).

(** The two values a vertex contributes to the low-part buffer. *)
Definition vertexLow (vertex : Point) : list JS.value :=
  [lowPart (JS.get JS.Num vertex 0); lowPart (JS.get JS.Num vertex 1)].

Definition startOf (fp64 : bool) (height : JS.number) (vertex : Point) : StartVertex :=
  mkStartVertex (JS.get JS.Num vertex 0) (JS.get JS.Num vertex 1)
    (JS.Num (JS.add (JS.or_zero (JS.get JS.Num vertex 2)) height))
    (if fp64 then lowPart (JS.get JS.Num vertex 0) else JS.Undefined)
    (if fp64 then lowPart (JS.get JS.Num vertex 1) else JS.Undefined).

Definition popA (extruded fp64 : bool) (ch : Streams) : Streams :=
  match st_start ch with
  | Some sv =>
      mkStreams (st_pos ch) (st_low ch)
        (st_next ch ++ (if extruded then [sv_x sv; sv_y sv; sv_z sv] else []))
        (st_nextLow ch ++ (if extruded && fp64 then [sv_xLow sv; sv_yLow sv] else []))
        None
  | None => mkStreams (st_pos ch) (st_low ch) (st_next ch) (st_nextLow ch) None
  end.

Definition visitA (extruded fp64 : bool) (height : JS.number)
    (ch : Streams) (vertex : Point) (vertexIndex : nat) : Streams :=
  let ch :=
    mkStreams (st_pos ch ++ vertexXYZ height vertex)
      (st_low ch ++ (if fp64 then vertexLow vertex else []))
      (st_next ch ++ (if extruded && (0 <? vertexIndex) then vertexXYZ height vertex else []))
      (st_nextLow ch ++
         (if extruded && (0 <? vertexIndex) && fp64 then vertexLow vertex else []))
      (st_start ch) in
  if vertexIndex =? 0 then
    let ch := popA extruded fp64 ch in
    mkStreams (st_pos ch) (st_low ch) (st_next ch) (st_nextLow ch)
      (Some (startOf fp64 height vertex))
  else ch.

Lemma write_from_app {A V} (conv : V -> A) (b : Buffer A) i l1 l2 :
  write_from conv b i (l1 ++ l2)
  = write_from conv (write_from conv b i l1) (i + length l1) l2.
Proof.
  revert b i. induction l1 as [|v l1 IH]; intros b i; simpl.
  - by rewrite Nat.add_0_r.
  - rewrite IH. f_equal. lia.
Qed.

Lemma put_app b l1 l2 : put (put b 0 l1) (length l1) l2 = put b 0 (l1 ++ l2).
Proof. destruct b as [b|]; simpl; [|done]. by rewrite write_from_app. Qed.

Lemma put_nil b i : put b i [] = b.
Proof. by destruct b. Qed.

Lemma pop_realize extruded fp64 a ch :
  popStartVertex extruded fp64 (realize a ch) = realize a (popA extruded fp64 ch).
Proof.
  unfold popStartVertex, popA, realize. cbn [ps_startVertex].
  destruct (st_start ch) as [sv|]; [|done].
  destruct extruded, fp64; cbn -[put];
    rewrite ?app_nil_r, ?put_app, ?length_app; cbn [length];
    by rewrite ?Nat.add_0_r.
Qed.

Lemma visit_realize extruded fp64 height a ch vertex vertexIndex :
  visitVertex extruded fp64 height (realize a ch) vertex vertexIndex
  = realize a (visitA extruded fp64 height ch vertex vertexIndex).
Proof.
  unfold visitVertex, visitA. cbv zeta.
  destruct vertexIndex as [|k]; cbn [Nat.eqb Nat.ltb Nat.leb andb].
  - rewrite andb_false_r. cbn [andb].
    match goal with |- context [popStartVertex _ _ ?s] =>
      assert (s = realize a
                    (mkStreams (st_pos ch ++ vertexXYZ height vertex)
                       (st_low ch ++ (if fp64 then vertexLow vertex else []))
                       (st_next ch) (st_nextLow ch) (st_start ch))) as ->
    end.
    { unfold realize, vertexXYZ, vertexLow, lowPart. cbn -[put].
      destruct fp64; cbn -[put];
        rewrite ?app_nil_r, ?put_app, ?length_app; cbn [length]; by rewrite ?Nat.add_0_r. }
    rewrite pop_realize. rewrite !app_nil_r.
    unfold realize, popA. cbn -[put].
    by destruct (st_start ch).
  - rewrite !andb_true_r.
    unfold realize, vertexXYZ, vertexLow, lowPart. cbn -[put].
    destruct extruded, fp64; cbn -[put];
      rewrite ?app_nil_r, ?put_app, ?length_app; cbn [length]; by rewrite ?Nat.add_0_r.
Qed.

Lemma ring_realize extruded fp64 height a (ring : Ring) i ch :
  forEach_from (visitVertex extruded fp64 height) i ring (realize a ch)
  = realize a (forEach_from (visitA extruded fp64 height) i ring ch).
Proof.
  revert i ch. induction ring as [|v ring IH]; intros i ch; cbn [forEach_from]; [done|].
  by rewrite visit_realize, IH.
Qed.

(** The vertices of a polygon as the visitor of [forEachVertex] meets them. *)
Definition forEachVertexA (extruded fp64 : bool) (height : JS.number) (p : polygon)
    (ch : Streams) : Streams :=
  foldl (fun ch ring => forEach_from (visitA extruded fp64 height) 0 ring ch)
        ch (Polygon.rings p).

Lemma forEachVertex_realize extruded fp64 height a p ch :
  forEachVertex p (visitVertex extruded fp64 height) (realize a ch)
  = realize a (forEachVertexA extruded fp64 height p ch).
Proof.
  unfold forEachVertex, forEachVertexA, forEach. destruct p as [ring|rings]; simpl.
  - apply ring_realize.
  - rewrite (forEach_from_foldl
               (fun s r => forEach_from (visitVertex extruded fp64 height) 0 r s)).
    revert ch. induction rings as [|r rings IH]; intros ch; cbn [foldl]; [done|].
    by rewrite ring_realize, IH.
Qed.

Definition heightOf (extruded : bool) (getHeight : nat -> JS.number) (polygonIndex : nat)
    : JS.number :=
  if extruded then getHeight polygonIndex else JS.zero.

Definition polygonStep (getHeight : nat -> JS.number) (extruded fp64 : bool)
    : PositionState * list nat -> polygon -> nat -> PositionState * list nat :=
  fun '(s, calls) polygon polygonIndex =>
    let '(height, calls) :=
      if extruded then (getHeight polygonIndex, calls ++ [polygonIndex])
      else (JS.zero, calls) in
    (forEachVertex polygon (visitVertex extruded fp64 height) s, calls).

Fixpoint polygonsA (getHeight : nat -> JS.number) (extruded fp64 : bool)
    (idx : nat) (polygons : list polygon) (ch : Streams) : Streams :=
  match polygons with
  | [] => ch
  | p :: polygons' =>
      polygonsA getHeight extruded fp64 (S idx) polygons'
        (forEachVertexA extruded fp64 (heightOf extruded getHeight idx) p ch)
  end.

Lemma polygons_realize getHeight extruded fp64 a polygons idx ch calls :
  forEach_from (polygonStep getHeight extruded fp64) idx polygons (realize a ch, calls)
  = (realize a (polygonsA getHeight extruded fp64 idx polygons ch),
     calls ++ (if extruded then seq idx (length polygons) else [])).
Proof.
  revert idx ch calls.
  induction polygons as [|p polygons IH]; intros idx ch calls;
    cbn [forEach_from polygonsA polygonStep length seq].
  - by destruct extruded; rewrite app_nil_r.
  - destruct extruded; cbv zeta; cbn [heightOf]; rewrite forEachVertex_realize, IH.
    + by rewrite <- app_assoc.
    + done.
Qed.

Definition emptyStreams : Streams := mkStreams [] [] [] [] None.

Lemma realize_empty a :
  mkPositionState (positions a) (positions64xyLow a) (nextPositions a)
    (nextPositions64xyLow a) 0 0 0 0 None = realize a emptyStreams.
Proof. unfold realize, emptyStreams. simpl. by rewrite !put_nil. Qed.

(** The position pass as streams: the final state is the one that has written
    the streams of [polygonsA], closed by a last [popStartVertex]. *)
Lemma updatePositions_streams a polygons getHeight extruded fp64 :
  updatePositions a polygons getHeight extruded fp64
  = (realize a (popA extruded fp64 (polygonsA getHeight extruded fp64 0 polygons emptyStreams)),
     if extruded then seq 0 (length polygons) else []).
Proof.
  unfold updatePositions. cbv zeta. rewrite realize_empty.
  unfold forEach.
  change (fun '(s, calls) polygon polygonIndex =>
            let '(height, calls0) :=
              if extruded then (getHeight polygonIndex, calls ++ [polygonIndex])
              else (JS.zero, calls) in
            (forEachVertex polygon (visitVertex extruded fp64 height) s, calls0))
    with (polygonStep getHeight extruded fp64).
  rewrite polygons_realize. by rewrite pop_realize.
Qed.

(** ** The position pass: the streams in closed form *)

Definition posOf (height : JS.number) (ring : Ring) : list JS.value :=
  concat (vertexXYZ height <$> ring).

Definition lowOf (ring : Ring) : list JS.value :=
  concat (vertexLow <$> ring).

(** A ring seen from the next vertex on: its first vertex follows its last. *)
Definition nextAlong (ring : Ring) : Ring :=
  match ring with
  | [] => []
  | v0 :: rest => rest ++ [v0]
  end.

Definition pendXYZ (ch : Streams) : list JS.value :=
  match st_start ch with
  | Some sv => [sv_x sv; sv_y sv; sv_z sv]
  | None => []
  end.

Definition pendLow (ch : Streams) : list JS.value :=
  match st_start ch with
  | Some sv => [sv_xLow sv; sv_yLow sv]
  | None => []
  end.

(** The next-position streams once the pending start vertex is written. *)
Definition fullNext (extruded : bool) (ch : Streams) : list JS.value :=
  st_next ch ++ (if extruded then pendXYZ ch else []).

Definition fullNextLow (extruded fp64 : bool) (ch : Streams) : list JS.value :=
  st_nextLow ch ++ (if extruded && fp64 then pendLow ch else []).

Lemma posOf_cons h v r : posOf h (v :: r) = vertexXYZ h v ++ posOf h r.
Proof. done. Qed.

Lemma lowOf_cons v r : lowOf (v :: r) = vertexLow v ++ lowOf r.
Proof. done. Qed.

Lemma posOf_app h r1 r2 : posOf h (r1 ++ r2) = posOf h r1 ++ posOf h r2.
Proof. unfold posOf. by rewrite fmap_app, concat_app. Qed.

Lemma lowOf_app r1 r2 : lowOf (r1 ++ r2) = lowOf r1 ++ lowOf r2.
Proof. unfold lowOf. by rewrite fmap_app, concat_app. Qed.

Lemma posOf_singleton h v : posOf h [v] = vertexXYZ h v.
Proof. reflexivity. Qed.

Lemma lowOf_singleton v : lowOf [v] = vertexLow v.
Proof. reflexivity. Qed.

Lemma rest_streams extruded fp64 h rest idx ch :
  forEach_from (visitA extruded fp64 h) (S idx) rest ch
  = mkStreams (st_pos ch ++ posOf h rest)
      (st_low ch ++ (if fp64 then lowOf rest else []))
      (st_next ch ++ (if extruded then posOf h rest else []))
      (st_nextLow ch ++ (if extruded && fp64 then lowOf rest else []))
      (st_start ch).
Proof.
  revert idx ch. induction rest as [|v rest IH]; intros idx ch; cbn [forEach_from].
  - destruct ch, extruded, fp64; simpl; by rewrite ?app_nil_r.
  - rewrite IH. unfold visitA. cbn [Nat.eqb Nat.ltb Nat.leb st_pos st_low st_next st_nextLow st_start].
    rewrite posOf_cons, lowOf_cons.
    destruct extruded, fp64; cbn [andb]; by rewrite ?app_nil_r, <- ?app_assoc.
Qed.

Lemma ring_streams extruded fp64 h v0 rest ch :
  forEach_from (visitA extruded fp64 h) 0 (v0 :: rest) ch
  = mkStreams (st_pos ch ++ posOf h (v0 :: rest))
      (st_low ch ++ (if fp64 then lowOf (v0 :: rest) else []))
      (st_next ch ++ (if extruded then pendXYZ ch ++ posOf h rest else []))
      (st_nextLow ch ++ (if extruded && fp64 then pendLow ch ++ lowOf rest else []))
      (Some (startOf fp64 h v0)).
Proof.
  cbn [forEach_from]. rewrite rest_streams.
  unfold visitA, popA, pendXYZ, pendLow.
  cbn [Nat.eqb Nat.ltb Nat.leb st_pos st_low st_next st_nextLow st_start].
  rewrite posOf_cons, lowOf_cons, andb_false_r. cbn [andb].
  destruct (st_start ch) as [sv|], extruded, fp64;
    cbn [andb st_pos st_low st_next st_nextLow st_start];
    by rewrite ?app_nil_r, <- ?app_assoc.
Qed.

Lemma ring_view extruded fp64 h ring ch :
  let ch' := forEach_from (visitA extruded fp64 h) 0 ring ch in
  st_pos ch' = st_pos ch ++ posOf h ring /\
  st_low ch' = st_low ch ++ (if fp64 then lowOf ring else []) /\
  fullNext extruded ch' = fullNext extruded ch
                          ++ (if extruded then posOf h (nextAlong ring) else []) /\
  fullNextLow extruded fp64 ch' = fullNextLow extruded fp64 ch
                          ++ (if extruded && fp64 then lowOf (nextAlong ring) else []).
Proof.
  destruct ring as [|v0 rest]; cbv zeta.
  - cbn [forEach_from nextAlong]. unfold posOf, lowOf. simpl.
    destruct extruded, fp64; by rewrite ?app_nil_r.
  - rewrite ring_streams. unfold fullNext, fullNextLow, pendXYZ, pendLow.
    cbn [st_pos st_low st_next st_nextLow st_start nextAlong startOf
         sv_x sv_y sv_z sv_xLow sv_yLow].
    rewrite posOf_app, lowOf_app, posOf_singleton, lowOf_singleton.
    unfold vertexXYZ, vertexLow.
    destruct (st_start ch), extruded, fp64; cbn [andb];
      rewrite ?app_nil_r, <- ?app_assoc; done.
Qed.

(** The rings of a polygon set in buffer order, each with the index of its
    polygon. *)
Fixpoint ringsFrom (idx : nat) (polygons : list polygon) : list (nat * Ring) :=
  match polygons with
  | [] => []
  | p :: polygons' => (pair idx <$> Polygon.rings p) ++ ringsFrom (S idx) polygons'
  end.

Definition allRings (polygons : list polygon) : list (nat * Ring) := ringsFrom 0 polygons.

Definition posStream (hf : nat -> JS.number) (trs : list (nat * Ring)) : list JS.value :=
  concat ((fun qr => posOf (hf qr.1) qr.2) <$> trs).
Definition lowStream (trs : list (nat * Ring)) : list JS.value :=
  concat ((fun qr => lowOf qr.2) <$> trs).
Definition nextStream (hf : nat -> JS.number) (trs : list (nat * Ring)) : list JS.value :=
  concat ((fun qr => posOf (hf qr.1) (nextAlong qr.2)) <$> trs).
Definition nextLowStream (trs : list (nat * Ring)) : list JS.value :=
  concat ((fun qr => lowOf (nextAlong qr.2)) <$> trs).

(** The four streams a list of rings contributes, under the flags. *)
Definition viewOf (extruded fp64 : bool) (hf : nat -> JS.number) (trs : list (nat * Ring))
    : list JS.value * list JS.value * list JS.value * list JS.value :=
  (posStream hf trs,
   if fp64 then lowStream trs else [],
   if extruded then nextStream hf trs else [],
   if extruded && fp64 then nextLowStream trs else []).

Definition view (extruded fp64 : bool) (ch : Streams)
    : list JS.value * list JS.value * list JS.value * list JS.value :=
  (st_pos ch, st_low ch, fullNext extruded ch, fullNextLow extruded fp64 ch).

Definition app4 {A} (x y : list A * list A * list A * list A)
    : list A * list A * list A * list A :=
  (x.1.1.1 ++ y.1.1.1, x.1.1.2 ++ y.1.1.2, x.1.2 ++ y.1.2, x.2 ++ y.2).

Lemma app4_assoc {A} (x y z : list A * list A * list A * list A) :
  app4 (app4 x y) z = app4 x (app4 y z).
Proof. unfold app4. simpl. by rewrite <- !app_assoc. Qed.

Lemma viewOf_nil extruded fp64 hf : viewOf extruded fp64 hf [] = ([], [], [], []).
Proof. unfold viewOf. by destruct extruded, fp64. Qed.

Lemma app4_nil_r {A} (x : list A * list A * list A * list A) : app4 x ([], [], [], []) = x.
Proof. destruct x as [[[a b] c] d]. unfold app4. simpl. by rewrite !app_nil_r. Qed.

Lemma viewOf_app extruded fp64 hf trs1 trs2 :
  viewOf extruded fp64 hf (trs1 ++ trs2)
  = app4 (viewOf extruded fp64 hf trs1) (viewOf extruded fp64 hf trs2).
Proof.
  unfold viewOf, app4, posStream, lowStream, nextStream, nextLowStream. simpl.
  rewrite !fmap_app, !concat_app. by destruct extruded, fp64.
Qed.

Lemma viewOf_cons extruded fp64 hf q r trs :
  viewOf extruded fp64 hf ((q, r) :: trs)
  = app4 (posOf (hf q) r,
          if fp64 then lowOf r else [],
          if extruded then posOf (hf q) (nextAlong r) else [],
          if extruded && fp64 then lowOf (nextAlong r) else [])
         (viewOf extruded fp64 hf trs).
Proof.
  unfold viewOf, app4, posStream, lowStream, nextStream, nextLowStream. simpl.
  by destruct extruded, fp64.
Qed.

Lemma ring_view4 extruded fp64 h ring ch :
  view extruded fp64 (forEach_from (visitA extruded fp64 h) 0 ring ch)
  = app4 (view extruded fp64 ch)
      (posOf h ring,
       if fp64 then lowOf ring else [],
       if extruded then posOf h (nextAlong ring) else [],
       if extruded && fp64 then lowOf (nextAlong ring) else []).
Proof.
  destruct (ring_view extruded fp64 h ring ch) as (H1 & H2 & H3 & H4).
  unfold view, app4. cbn [fst snd]. by rewrite H1, H2, H3, H4.
Qed.

Lemma rings_view extruded fp64 hf q rs ch :
  view extruded fp64
    (foldl (fun ch ring => forEach_from (visitA extruded fp64 (hf q)) 0 ring ch) ch rs)
  = app4 (view extruded fp64 ch) (viewOf extruded fp64 hf (pair q <$> rs)).
Proof.
  revert ch. induction rs as [|r rs IH]; intros ch; cbn [foldl].
  - by rewrite fmap_nil, viewOf_nil, app4_nil_r.
  - rewrite IH, ring_view4, fmap_cons, viewOf_cons. apply app4_assoc.
Qed.

Lemma polygons_view getHeight extruded fp64 idx polygons ch :
  view extruded fp64 (polygonsA getHeight extruded fp64 idx polygons ch)
  = app4 (view extruded fp64 ch)
      (viewOf extruded fp64 (heightOf extruded getHeight) (ringsFrom idx polygons)).
Proof.
  revert idx ch. induction polygons as [|p polygons IH]; intros idx ch;
    cbn [polygonsA ringsFrom].
  - by rewrite viewOf_nil, app4_nil_r.
  - rewrite IH. unfold forEachVertexA.
    rewrite (rings_view extruded fp64 (heightOf extruded getHeight) idx).
    by rewrite viewOf_app, app4_assoc.
Qed.

Lemma popA_view extruded fp64 ch :
  (st_pos (popA extruded fp64 ch), st_low (popA extruded fp64 ch),
   st_next (popA extruded fp64 ch), st_nextLow (popA extruded fp64 ch))
  = view extruded fp64 ch.
Proof.
  unfold view, fullNext, fullNextLow, pendXYZ, pendLow, popA.
  destruct (st_start ch), extruded, fp64; simpl; by rewrite ?app_nil_r.
Qed.

(** The streams of a whole position pass. *)
Lemma streams_final getHeight extruded fp64 polygons :
  let ch := popA extruded fp64
              (polygonsA getHeight extruded fp64 0 polygons emptyStreams) in
  (st_pos ch, st_low ch, st_next ch, st_nextLow ch)
  = viewOf extruded fp64 (heightOf extruded getHeight) (allRings polygons).
Proof.
  cbv zeta. rewrite popA_view, polygons_view.
  unfold view, emptyStreams, fullNext, fullNextLow, pendXYZ, pendLow, app4. simpl.
  by destruct extruded, fp64.
Qed.

(** ** The position pass: streams by slot *)

Section Uniform.
Context {A B : Type} (f : A -> list B) (n : nat).
Hypothesis f_length : forall a, length (f a) = n.

Lemma length_concat_uniform l : length (concat (f <$> l)) = n * length l.
Proof.
  induction l as [|a l IH]; [simpl; lia|].
  rewrite fmap_cons. cbn [concat]. rewrite length_app, f_length, IH. simpl. lia.
Qed.

Lemma lookup_concat_uniform l m a c x :
  l !! m = Some a -> f a !! c = Some x ->
  concat (f <$> l) !! (n * m + c) = Some x.
Proof.
  revert m. induction l as [|a0 l IH]; intros m Ha Hx; [done|].
  rewrite fmap_cons. cbn [concat].
  pose proof (lookup_lt_Some _ _ _ Hx) as Hc. rewrite f_length in Hc.
  destruct m as [|m]; simpl in Ha.
  - injection Ha as ->. rewrite lookup_app_l by (rewrite f_length; lia).
    by replace (n * 0 + c) with c by lia.
  - rewrite lookup_app_r by (rewrite f_length; lia). rewrite f_length.
    replace (n * S m + c - n) with (n * m + c) by lia. by apply IH.
Qed.

End Uniform.

Lemma length_posOf h ring : length (posOf h ring) = 3 * length ring.
Proof. by apply length_concat_uniform. Qed.

Lemma length_lowOf ring : length (lowOf ring) = 2 * length ring.
Proof. by apply length_concat_uniform. Qed.

Lemma posOf_concat h (rs : list Ring) : posOf h (concat rs) = concat (posOf h <$> rs).
Proof.
  induction rs as [|r rs IH]; [done|].
  cbn [concat]. by rewrite posOf_app, IH.
Qed.

Lemma lowOf_concat (rs : list Ring) : lowOf (concat rs) = concat (lowOf <$> rs).
Proof.
  induction rs as [|r rs IH]; [done|].
  cbn [concat]. by rewrite lowOf_app, IH.
Qed.

Lemma getVertexCount_concat p : Polygon.getVertexCount p = length (concat (Polygon.rings p)).
Proof.
  unfold Polygon.getVertexCount. induction (Polygon.rings p) as [|r rs IH]; [done|].
  rewrite sum_list_fmap_cons. cbn [concat]. rewrite length_app. lia.
Qed.

Lemma posStream_polygon_rings hf q rs :
  posStream hf (pair q <$> rs) = posOf (hf q) (concat rs).
Proof.
  unfold posStream. rewrite posOf_concat. f_equal.
  rewrite <- list_fmap_compose. done.
Qed.

Lemma lowStream_polygon_rings q rs :
  lowStream (pair q <$> rs) = lowOf (concat rs).
Proof.
  unfold lowStream. rewrite lowOf_concat. f_equal.
  rewrite <- list_fmap_compose. done.
Qed.

Lemma posStream_app hf trs1 trs2 :
  posStream hf (trs1 ++ trs2) = posStream hf trs1 ++ posStream hf trs2.
Proof. unfold posStream. by rewrite fmap_app, concat_app. Qed.

Lemma lowStream_app trs1 trs2 :
  lowStream (trs1 ++ trs2) = lowStream trs1 ++ lowStream trs2.
Proof. unfold lowStream. by rewrite fmap_app, concat_app. Qed.

(** The values of vertex [k] of polygon [q] stand in the position stream at
    the vertex slot [offsetOf polygons q + k]. *)
Lemma posStream_polygon hf idx polygons q p k v c x :
  polygons !! q = Some p -> concat (Polygon.rings p) !! k = Some v ->
  vertexXYZ (hf (idx + q)) v !! c = Some x ->
  posStream hf (ringsFrom idx polygons) !! (3 * (offsetOf polygons q + k) + c) = Some x.
Proof.
  revert idx q. induction polygons as [|p0 polygons IH]; intros idx q Hp Hv Hx; [done|].
  cbn [ringsFrom]. rewrite posStream_app, posStream_polygon_rings.
  pose proof (lookup_lt_Some _ _ _ Hx) as Hc. change (length (vertexXYZ _ _)) with 3 in Hc.
  destruct q as [|q]; simpl in Hp.
  - injection Hp as ->. rewrite offsetOf_0, Nat.add_0_r in *.
    pose proof (lookup_lt_Some _ _ _ Hv) as Hk.
    rewrite lookup_app_l by (rewrite length_posOf; lia).
    by apply (lookup_concat_uniform (vertexXYZ (hf idx)) 3) with (a := v).
  - rewrite offsetOf_cons.
    rewrite lookup_app_r; rewrite length_posOf, <- getVertexCount_concat; [|lia].
    replace (3 * (Polygon.getVertexCount p0 + offsetOf polygons q + k) + c
             - 3 * Polygon.getVertexCount p0)
      with (3 * (offsetOf polygons q + k) + c) by lia.
    apply (IH (S idx) q Hp Hv). by replace (S idx + q) with (idx + S q) by lia.
Qed.

Lemma lowStream_polygon idx polygons q p k v c x :
  polygons !! q = Some p -> concat (Polygon.rings p) !! k = Some v ->
  vertexLow v !! c = Some x ->
  lowStream (ringsFrom idx polygons) !! (2 * (offsetOf polygons q + k) + c) = Some x.
Proof.
  revert idx q. induction polygons as [|p0 polygons IH]; intros idx q Hp Hv Hx; [done|].
  cbn [ringsFrom]. rewrite lowStream_app, lowStream_polygon_rings.
  pose proof (lookup_lt_Some _ _ _ Hx) as Hc. change (length (vertexLow _)) with 2 in Hc.
  destruct q as [|q]; simpl in Hp.
  - injection Hp as ->. rewrite offsetOf_0. cbn [Nat.add].
    pose proof (lookup_lt_Some _ _ _ Hv) as Hk.
    rewrite lookup_app_l by (rewrite length_lowOf; lia).
    by apply (lookup_concat_uniform vertexLow 2) with (a := v).
  - rewrite offsetOf_cons.
    rewrite lookup_app_r; rewrite length_lowOf, <- getVertexCount_concat; [|lia].
    replace (2 * (Polygon.getVertexCount p0 + offsetOf polygons q + k) + c
             - 2 * Polygon.getVertexCount p0)
      with (2 * (offsetOf polygons q + k) + c) by lia.
    by apply (IH (S idx) q Hp Hv).
Qed.

(** The first vertex slot of ring [R] of the set: the number of vertices of
    the rings before it. *)
Definition ringStart (trs : list (nat * Ring)) (R : nat) : nat :=
  sum_list ((fun qr => length qr.2) <$> take R trs).

Lemma ringStart_cons qr trs R :
  ringStart (qr :: trs) (S R) = length qr.2 + ringStart trs R.
Proof. done. Qed.

Section RingStreams.
Context (g : Ring -> Ring).
Hypothesis g_length : forall r, length (g r) = length r.

Lemma ring_posStream_lookup hf trs R q ring m v c x :
  trs !! R = Some (q, ring) -> g ring !! m = Some v ->
  vertexXYZ (hf q) v !! c = Some x ->
  concat ((fun qr => posOf (hf qr.1) (g qr.2)) <$> trs)
    !! (3 * (ringStart trs R + m) + c) = Some x.
Proof.
  revert R. induction trs as [|[q0 r0] trs IH]; intros R HR Hv Hx; [done|].
  rewrite fmap_cons. cbn [concat fst snd].
  pose proof (lookup_lt_Some _ _ _ Hx) as Hc. change (length (vertexXYZ _ _)) with 3 in Hc.
  destruct R as [|R]; simpl in HR.
  - injection HR as -> ->. unfold ringStart. cbn [take fmap list_fmap sum_list Nat.add].
    pose proof (lookup_lt_Some _ _ _ Hv) as Hm.
    rewrite lookup_app_l by (rewrite length_posOf; lia).
    by apply (lookup_concat_uniform (vertexXYZ (hf q)) 3) with (a := v).
  - rewrite ringStart_cons. cbn [snd].
    rewrite lookup_app_r; rewrite length_posOf, g_length; [|lia].
    replace (3 * (length r0 + ringStart trs R + m) + c - 3 * length r0)
      with (3 * (ringStart trs R + m) + c) by lia.
    by apply IH.
Qed.

End RingStreams.

Lemma length_nextAlong ring : length (nextAlong ring) = length ring.
Proof. destruct ring as [|v0 rest]; [done|]. simpl. rewrite length_app. simpl. lia. Qed.

Lemma nextAlong_lookup ring m :
  m < length ring -> nextAlong ring !! m = ring !! ((m + 1) mod length ring).
Proof.
  destruct ring as [|v0 rest]; cbn [nextAlong length]; [lia|]. intros Hm.
  destruct (decide (m < length rest)) as [Hlt|Hge].
  - rewrite lookup_app_l by done.
    rewrite (Nat.mod_small (m + 1) (S (length rest))) by lia.
    by replace (m + 1) with (S m) by lia.
  - replace m with (length rest) by lia.
    rewrite lookup_app_r by lia. rewrite Nat.sub_diag.
    replace (length rest + 1) with (S (length rest)) by lia.
    by rewrite Nat.Div0.mod_same.
Qed.

(** ** The position pass: reading the buffers *)

Lemma put_lookup (b : Buffer JS.number) l :
  length l <= length (buf_data b) ->
  exists b', put (Some b) 0 l = Some b' /\ buf_id b' = buf_id b /\
    length (buf_data b') = length (buf_data b) /\
    (forall j v, l !! j = Some v -> buf_data b' !! j = Some (to_float32 v)) /\
    (forall j, length l <= j -> buf_data b' !! j = buf_data b !! j).
Proof.
  intros Hlen. eexists. split; [reflexivity|].
  split; [apply write_from_id|]. split; [apply write_from_length|]. split.
  - intros j v Hv. pose proof (lookup_lt_Some _ _ _ Hv).
    apply (write_from_lookup_in to_float32 b 0 l j v Hv). lia.
  - intros j Hj. apply write_from_lookup_out. lia.
Qed.

(** [attribute || new Float32Array(n)], with the allocation counter. *)
Definition orNew (attribute : option (Buffer JS.number)) (n counter : nat)
    : Buffer JS.number * nat :=
  match attribute with
  | Some b => (b, counter)
  | None => (mkBuffer counter (replicate n JS.zero), S counter)
  end.

(** The attributes the position pass works on, and the allocation counter
    after the method has made sure they exist. *)
Definition ensured (args : UpdateArgs) (t : PolygonTesselator) (w : World)
    : Attributes * nat :=
  let a := attributes t in
  let '(pos, n1) := orNew (positions a) (pointCount t * 3) (nextBuffer w) in
  let '(next, n2) := orNew (nextPositions a) (pointCount t * 3) n1 in
  if arg_fp64 args then
    let '(low, n3) := orNew (positions64xyLow a) (pointCount t * 2) n2 in
    let '(nextLow, n4) := orNew (nextPositions64xyLow a) (pointCount t * 2) n3 in
    (mkAttributes (pickingColors a) (Some pos) (Some next) (Some low) (Some nextLow)
       (colors a), n4)
  else
    (mkAttributes (pickingColors a) (Some pos) (Some next)
       (positions64xyLow a) (nextPositions64xyLow a) (colors a), n2).

Definition finalStreams (args : UpdateArgs) (t : PolygonTesselator) : Streams :=
  popA (arg_extruded args) (arg_fp64 args)
    (polygonsA (arg_getHeight args) (arg_extruded args) (arg_fp64 args) 0 (polygons t)
       emptyStreams).

Lemma updatePositions_method_eq args t w :
  updatePositions_method args t w =
  let a := (ensured args t w).1 in
  let ch := finalStreams args t in
  (inr (mkTesselator (polygons t) (pointCount t)
          (mkAttributes (pickingColors a)
             (put (positions a) 0 (st_pos ch)) (put (nextPositions a) 0 (st_next ch))
             (put (positions64xyLow a) 0 (st_low ch))
             (put (nextPositions64xyLow a) 0 (st_nextLow ch)) (colors a))),
   mkWorld (ensured args t w).2 (jsArrays w)
     (heightCalls w ++ (if arg_extruded args then seq 0 (length (polygons t)) else []))
     (colorCalls w)).
Proof.
  unfold updatePositions_method, ensured, finalStreams, bind, or_new, orNew, ret, new_array,
    log_heights.
  destruct t as [ps pc [pk pos next low nextLow col]], w as [nb ja hc cc].
  cbn [attributes polygons pointCount positions nextPositions positions64xyLow
       nextPositions64xyLow colors pickingColors nextBuffer jsArrays heightCalls colorCalls].
  destruct pos, next, (arg_fp64 args) eqn:Hfp, low, nextLow;
    cbn [positions nextPositions positions64xyLow nextPositions64xyLow colors
         pickingColors nextBuffer jsArrays heightCalls colorCalls fst snd];
    rewrite ?Hfp, updatePositions_streams; reflexivity.
Qed.

Definition ringsTotal (trs : list (nat * Ring)) : nat :=
  sum_list ((fun qr => length qr.2) <$> trs).

Lemma ringsTotal_app trs1 trs2 : ringsTotal (trs1 ++ trs2) = ringsTotal trs1 + ringsTotal trs2.
Proof. unfold ringsTotal. by rewrite fmap_app, sum_list_with_app. Qed.

Lemma ringsTotal_polygon q rs : ringsTotal (pair q <$> rs) = length (concat rs).
Proof.
  unfold ringsTotal. induction rs as [|r rs IH]; [done|].
  rewrite fmap_cons, sum_list_fmap_cons. cbn [concat snd]. rewrite length_app.
  by rewrite IH.
Qed.

Lemma ringsTotal_ringsFrom idx polygons :
  ringsTotal (ringsFrom idx polygons) = getPointCount polygons.
Proof.
  rewrite getPointCount_sum. revert idx.
  induction polygons as [|p polygons IH]; intros idx; [done|].
  cbn [ringsFrom]. rewrite ringsTotal_app, ringsTotal_polygon, IH, sum_list_fmap_cons.
  by rewrite getVertexCount_concat.
Qed.

Lemma length_ring_streams (g : Ring -> Ring) hf trs :
  (forall r, length (g r) = length r) ->
  length (concat ((fun qr => posOf (hf qr.1) (g qr.2)) <$> trs)) = 3 * ringsTotal trs /\
  length (concat ((fun qr => lowOf (g qr.2)) <$> trs)) = 2 * ringsTotal trs.
Proof.
  intros Hg. unfold ringsTotal. induction trs as [|[q r] trs [IH1 IH2]]; [done|].
  rewrite sum_list_fmap_cons, !fmap_cons. cbn [concat fst snd].
  rewrite !length_app, length_posOf, length_lowOf, Hg, IH1, IH2. lia.
Qed.

Lemma viewOf_lengths extruded fp64 hf polygons :
  let v := viewOf extruded fp64 hf (allRings polygons) in
  length v.1.1.1 = 3 * getPointCount polygons /\
  length v.1.1.2 <= 2 * getPointCount polygons /\
  length v.1.2 <= 3 * getPointCount polygons /\
  length v.2 <= 2 * getPointCount polygons.
Proof.
  cbv zeta. unfold viewOf, allRings. cbn [fst snd].
  destruct (length_ring_streams id hf (ringsFrom 0 polygons) ltac:(done)) as [Hp Hl].
  destruct (length_ring_streams nextAlong hf (ringsFrom 0 polygons) length_nextAlong)
    as [Hn Hnl].
  rewrite ringsTotal_ringsFrom in Hp, Hl, Hn, Hnl.
  unfold posStream, lowStream, nextStream, nextLowStream.
  split; [exact Hp|].
  change (fun qr : nat * Ring => lowOf (id qr.2)) with (fun qr : nat * Ring => lowOf qr.2) in Hl.
  destruct extruded, fp64; cbn [andb length]; lia.
Qed.

Lemma orNew_spec attribute n counter :
  has_length n attribute ->
  length (buf_data (orNew attribute n counter).1) = n /\
  (forall b, attribute = Some b -> (orNew attribute n counter).1 = b) /\
  (attribute = None -> buf_id (orNew attribute n counter).1 = counter).
Proof.
  intros Hlen. unfold orNew. destruct attribute as [b|]; simpl.
  - split; [by apply Hlen|]. split; [by intros ? [= ->]|done].
  - rewrite length_replicate. split; [done|]. split; done.
Qed.

(** The buffers the position pass works on exist and have the lengths the
    cached vertex count asks for. *)
Lemma ensured_spec args t w :
  tesselator_ok t ->
  exists bp bn,
    positions (ensured args t w).1 = Some bp /\
    length (buf_data bp) = pointCount t * 3 /\
    nextPositions (ensured args t w).1 = Some bn /\
    length (buf_data bn) = pointCount t * 3 /\
    has_length (pointCount t * 2) (positions64xyLow (ensured args t w).1) /\
    has_length (pointCount t * 2) (nextPositions64xyLow (ensured args t w).1) /\
    (arg_fp64 args = true ->
       is_Some (positions64xyLow (ensured args t w).1) /\
       is_Some (nextPositions64xyLow (ensured args t w).1)) /\
    pickingColors (ensured args t w).1 = pickingColors (attributes t) /\
    colors (ensured args t w).1 = colors (attributes t).
Proof.
  intros Hok. unfold ensured. cbv zeta.
  destruct (orNew (positions (attributes t)) (pointCount t * 3) (nextBuffer w))
    as [pos n1] eqn:E1.
  destruct (orNew (nextPositions (attributes t)) (pointCount t * 3) n1) as [next n2] eqn:E2.
  pose proof (orNew_spec _ _ (nextBuffer w) (ok_positions t Hok)) as [H1 _].
  pose proof (orNew_spec _ _ n1 (ok_nextPositions t Hok)) as [H2 _].
  rewrite E1 in H1. rewrite E2 in H2. cbn [fst] in H1, H2.
  destruct (arg_fp64 args).
  - destruct (orNew (positions64xyLow (attributes t)) (pointCount t * 2) n2)
      as [low n3] eqn:E3.
    destruct (orNew (nextPositions64xyLow (attributes t)) (pointCount t * 2) n3)
      as [nextLow n4] eqn:E4.
    pose proof (orNew_spec _ _ n2 (ok_positions64xyLow t Hok)) as [H3 _].
    pose proof (orNew_spec _ _ n3 (ok_nextPositions64xyLow t Hok)) as [H4 _].
    rewrite E3 in H3. rewrite E4 in H4. cbn [fst] in H3, H4.
    exists pos, next. cbn. repeat split; try done; try (by apply has_length_Some);
      by eexists.
  - exists pos, next. cbn. repeat split; try done.
    + apply (ok_positions64xyLow t Hok).
    + apply (ok_nextPositions64xyLow t Hok).
Qed.

Lemma finalStreams_view args t :
  st_pos (finalStreams args t)
    = posStream (heightOf (arg_extruded args) (arg_getHeight args)) (allRings (polygons t)) /\
  st_low (finalStreams args t)
    = (if arg_fp64 args then lowStream (allRings (polygons t)) else []) /\
  st_next (finalStreams args t)
    = (if arg_extruded args
       then nextStream (heightOf (arg_extruded args) (arg_getHeight args))
              (allRings (polygons t))
       else []) /\
  st_nextLow (finalStreams args t)
    = (if arg_extruded args && arg_fp64 args
       then nextLowStream (allRings (polygons t)) else []).
Proof.
  pose proof (streams_final (arg_getHeight args) (arg_extruded args) (arg_fp64 args)
                (polygons t)) as H.
  cbv zeta in H. unfold viewOf in H. fold (finalStreams args t) in H.
  by injection H as -> -> -> ->.
Qed.

Lemma put_some_lookup (attribute : option (Buffer JS.number)) b l :
  attribute = Some b -> length l <= length (buf_data b) ->
  exists b', put attribute 0 l = Some b' /\ buf_id b' = buf_id b /\
    length (buf_data b') = length (buf_data b) /\
    (forall j v, l !! j = Some v -> buf_data b' !! j = Some (to_float32 v)).
Proof.
  intros -> Hlen. destruct (put_lookup b l Hlen) as (b' & H1 & H2 & H3 & H4 & _).
  by exists b'.
Qed.

Lemma put_has_length n attribute i l : has_length n attribute -> has_length n (put attribute i l).
Proof.
  intros H x Hx. destruct attribute as [b|]; simpl in Hx; [|done].
  injection Hx as <-. rewrite write_from_length. by apply H.
Qed.

(** What a call of the method [updatePositions] leaves behind. *)
Lemma updatePositions_method_spec args t w :
  tesselator_ok t ->
  let hf := heightOf (arg_extruded args) (arg_getHeight args) in
  exists t' w' bp bn,
    updatePositions_method args t w = (inr t', w') /\
    tesselator_ok t' /\
    polygons t' = polygons t /\ pointCount t' = pointCount t /\
    heightCalls w' = heightCalls w
                     ++ (if arg_extruded args then seq 0 (length (polygons t)) else []) /\
    positions (attributes t') = Some bp /\
    nextPositions (attributes t') = Some bn /\
    length (buf_data bp) = pointCount t * 3 /\
    length (buf_data bn) = pointCount t * 3 /\
    (forall j v, posStream hf (allRings (polygons t)) !! j = Some v ->
       buf_data bp !! j = Some (to_float32 v)) /\
    (arg_extruded args = true ->
     forall j v, nextStream hf (allRings (polygons t)) !! j = Some v ->
       buf_data bn !! j = Some (to_float32 v)) /\
    (arg_fp64 args = true ->
     exists bl bnl,
       positions64xyLow (attributes t') = Some bl /\
       nextPositions64xyLow (attributes t') = Some bnl /\
       length (buf_data bl) = pointCount t * 2 /\
       length (buf_data bnl) = pointCount t * 2 /\
       (forall j v, lowStream (allRings (polygons t)) !! j = Some v ->
          buf_data bl !! j = Some (to_float32 v)) /\
       (arg_extruded args = true ->
        forall j v, nextLowStream (allRings (polygons t)) !! j = Some v ->
          buf_data bnl !! j = Some (to_float32 v))).
Proof.
  intros Hok hf. rewrite updatePositions_method_eq. cbv zeta.
  destruct (ensured_spec args t w Hok)
    as (bp0 & bn0 & Hp0 & Hlp0 & Hn0 & Hln0 & Hl0 & Hnl0 & Hfp & Hpick & Hcol).
  destruct (finalStreams_view args t) as (Sp & Sl & Sn & Snl).
  pose proof (viewOf_lengths (arg_extruded args) (arg_fp64 args) hf (polygons t)) as Hlens.
  cbv zeta in Hlens. unfold viewOf in Hlens. cbn [fst snd] in Hlens.
  fold hf in Sp, Sn. rewrite <- Sp, <- Sl, <- Sn, <- Snl in Hlens.
  destruct Hlens as (L1 & L2 & L3 & L4).
  rewrite <- (ok_pointCount t Hok) in L1, L2, L3, L4.
  destruct (put_some_lookup _ bp0 (st_pos (finalStreams args t)) Hp0 ltac:(lia))
    as (bp & Ebp & _ & Lbp & Rbp).
  destruct (put_some_lookup _ bn0 (st_next (finalStreams args t)) Hn0 ltac:(lia))
    as (bn & Ebn & _ & Lbn & Rbn).
  eexists _, _, bp, bn. split; [reflexivity|].
  cbn [attributes polygons pointCount positions nextPositions positions64xyLow
       nextPositions64xyLow colors pickingColors heightCalls].
  split; [|split; [done|split; [done|split; [done|]]]].
  { constructor;
      cbn [attributes polygons pointCount positions nextPositions positions64xyLow
           nextPositions64xyLow colors pickingColors].
    - apply (ok_pointCount t Hok).
    - rewrite Hpick. apply (ok_picking t Hok).
    - rewrite Ebp. apply has_length_Some. lia.
    - rewrite Ebn. apply has_length_Some. lia.
    - by apply put_has_length.
    - by apply put_has_length.
    - rewrite Hcol. apply (ok_colors t Hok). }
  split; [done|]. split; [done|]. split; [lia|]. split; [lia|]. split; [|split].
  - intros j v Hv. apply Rbp. by rewrite Sp.
  - intros He j v Hv. apply Rbn. rewrite Sn, He. done.
  - intros Hf. destruct (Hfp Hf) as [[bl0 Ebl0] [bnl0 Ebnl0]].
    pose proof (Hl0 _ Ebl0) as Hll. pose proof (Hnl0 _ Ebnl0) as Hlnl.
    destruct (put_some_lookup _ bl0 (st_low (finalStreams args t)) Ebl0 ltac:(lia))
      as (bl & Ebl & _ & Lbl & Rbl).
    destruct (put_some_lookup _ bnl0 (st_nextLow (finalStreams args t)) Ebnl0 ltac:(lia))
      as (bnl & Ebnl & _ & Lbnl & Rbnl).
    exists bl, bnl. split; [done|]. split; [done|]. split; [lia|]. split; [lia|]. split.
    + intros j v Hv. apply Rbl. by rewrite Sl, Hf.
    + intros He j v Hv. apply Rbnl. by rewrite Snl, He, Hf.
Qed.

(** A point without a third ordinate has z = 0. *)
Example or_zero_missing (x y : JS.number) : JS.or_zero (JS.get JS.Num [x; y] 2) = JS.zero.
Proof. reflexivity. Qed.


(** C7: after [updatePositions] with the extrusion flag, the entry of
    [nextPositions] at the slot of vertex m of a ring of k vertices holds the
    stored coordinates of vertex (m + 1) mod k of the same ring, which are the
    entry of [positions] at that vertex's slot; the entry at the slot of the
    last vertex of the ring is the entry of [positions] at the slot of its
    first vertex. *)
Theorem updatePositions_next_wraps (args : UpdateArgs) (t : PolygonTesselator) (w : World) :
  tesselator_ok t -> arg_extruded args = true ->
  exists t' w' bp bn,
    updatePositions_method args t w = (inr t', w') /\
    positions_method t' = Some bp /\
    nextPositions_method t' = Some bn /\
    (forall R q ring m c,
       allRings (polygons t) !! R = Some (q, ring) -> m < length ring -> c < 3 ->
       exists v x,
         ring !! ((m + 1) mod length ring) = Some v /\
         vertexXYZ (arg_getHeight args q) v !! c = Some x /\
         buf_data bn !! (3 * (ringStart (allRings (polygons t)) R + m) + c)
           = Some (to_float32 x) /\
         buf_data bp
           !! (3 * (ringStart (allRings (polygons t)) R + (m + 1) mod length ring) + c)
           = Some (to_float32 x)) /\
    (forall R q ring c,
       allRings (polygons t) !! R = Some (q, ring) -> 0 < length ring -> c < 3 ->
       is_Some (buf_data bp !! (3 * (ringStart (allRings (polygons t)) R + 0) + c)) /\
       buf_data bn !! (3 * (ringStart (allRings (polygons t)) R + (length ring - 1)) + c)
         = buf_data bp !! (3 * (ringStart (allRings (polygons t)) R + 0) + c)).
Proof.
  intros Hok He.
  destruct (updatePositions_method_spec args t w Hok)
    as (t' & w' & bp & bn & Hrun & _ & _ & _ & _ & Hbp & Hbn & _ & _ & Hpos & Hnext & _).
  specialize (Hnext He). rewrite He in Hpos, Hnext. cbn [heightOf] in Hpos, Hnext.
  assert (forall R q ring m c,
            allRings (polygons t) !! R = Some (q, ring) -> m < length ring -> c < 3 ->
            exists v x,
              ring !! ((m + 1) mod length ring) = Some v /\
              vertexXYZ (arg_getHeight args q) v !! c = Some x /\
              buf_data bn !! (3 * (ringStart (allRings (polygons t)) R + m) + c)
                = Some (to_float32 x) /\
              buf_data bp
                !! (3 * (ringStart (allRings (polygons t)) R + (m + 1) mod length ring) + c)
                = Some (to_float32 x)) as Hall.
  { intros R q ring m c HR Hm Hc.
    assert ((m + 1) mod length ring < length ring) as Hmod
      by (apply Nat.mod_upper_bound; lia).
    destruct (lookup_lt_is_Some_2 ring _ Hmod) as [v Hv].
    destruct (lookup_lt_is_Some_2 (vertexXYZ (arg_getHeight args q) v) c Hc) as [x Hx].
    exists v, x. split; [done|]. split; [done|]. split.
    - apply Hnext. unfold nextStream.
      apply (ring_posStream_lookup nextAlong length_nextAlong
               (fun q => arg_getHeight args q) _ R q ring m v c x HR); [|done].
      by rewrite nextAlong_lookup.
    - apply Hpos. unfold posStream.
      by apply (ring_posStream_lookup id ltac:(done)
                  (fun q => arg_getHeight args q) _ R q ring _ v c x HR). }
  exists t', w', bp, bn. split; [done|]. split; [done|]. split; [done|]. split; [exact Hall|].
  intros R q ring c HR Hlen Hc.
  destruct (Hall R q ring (length ring - 1) c HR ltac:(lia) Hc) as (v & x & _ & _ & Hn & Hp).
  replace (length ring - 1 + 1) with (length ring) in Hp by lia.
  rewrite Nat.Div0.mod_same in Hp. rewrite Hn, Hp. split; [by eexists|done].
Qed.

(** The low parts of [updatePositions] with the 64-bit flag: the two entries
    of the low-part buffer at the slot of a vertex are the stored values of
    x - fround(x) and y - fround(y). *)
Lemma updatePositions_low_parts args t w :
  tesselator_ok t -> arg_fp64 args = true ->
  exists t' w' bp bl,
    updatePositions_method args t w = (inr t', w') /\
    positions_method t' = Some bp /\
    positions64xyLow_method t' = Some bl /\
    forall q p k v,
      polygons t !! q = Some p -> concat (Polygon.rings p) !! k = Some v ->
      buf_data bp !! (3 * (offsetOf (polygons t) q + k))
        = Some (JS.fround (JS.ToNumber (JS.get JS.Num v 0))) /\
      buf_data bp !! (3 * (offsetOf (polygons t) q + k) + 1)
        = Some (JS.fround (JS.ToNumber (JS.get JS.Num v 1))) /\
      buf_data bl !! (2 * (offsetOf (polygons t) q + k))
        = Some (JS.fround (JS.sub (JS.ToNumber (JS.get JS.Num v 0))
                             (JS.fround (JS.ToNumber (JS.get JS.Num v 0))))) /\
      buf_data bl !! (2 * (offsetOf (polygons t) q + k) + 1)
        = Some (JS.fround (JS.sub (JS.ToNumber (JS.get JS.Num v 1))
                             (JS.fround (JS.ToNumber (JS.get JS.Num v 1))))).
Proof.
  intros Hok Hf.
  destruct (updatePositions_method_spec args t w Hok)
    as (t' & w' & bp & bn & Hrun & _ & _ & _ & _ & Hbp & _ & _ & _ & Hpos & _ & Hlow).
  destruct (Hlow Hf) as (bl & bnl & Hbl & _ & _ & _ & Hl & _).
  exists t', w', bp, bl. split; [done|]. split; [done|]. split; [done|].
  intros q p k v Hp Hv.
  pose proof (fun c x => posStream_polygon
                (heightOf (arg_extruded args) (arg_getHeight args)) 0 (polygons t)
                q p k v c x Hp Hv) as Hs.
  pose proof (fun c x => lowStream_polygon 0 (polygons t) q p k v c x Hp Hv) as Hsl.
  split; [|split; [|split]].
  - rewrite <- (Nat.add_0_r (3 * _)). apply (Hpos _ (JS.get JS.Num v 0)). by apply Hs.
  - apply (Hpos _ (JS.get JS.Num v 1)). by apply Hs.
  - rewrite <- (Nat.add_0_r (2 * _)). apply (Hl _ (lowPart (JS.get JS.Num v 0))).
    by apply Hsl.
  - apply (Hl _ (lowPart (JS.get JS.Num v 1))). by apply Hsl.
Qed.

(** ** The facade *)

Lemma constructor_inv ps w t w1 :
  constructor ps w = (inr t, w1) ->
  exists qs,
    normalizeAll ps = inr qs /\
    polygons t = qs /\ pointCount t = getPointCount qs /\
    w1 = mkWorld (S (nextBuffer w)) (jsArrays w) (heightCalls w) (colorCalls w) /\
    buf_id (pickingColors (attributes t)) = nextBuffer w /\
    length (buf_data (pickingColors (attributes t))) = getPointCount qs * 3 /\
    positions (attributes t) = None /\ nextPositions (attributes t) = None /\
    positions64xyLow (attributes t) = None /\ nextPositions64xyLow (attributes t) = None /\
    colors (attributes t) = None.
Proof.
  unfold constructor, bind, lift. destruct (normalizeAll ps) as [e|qs]; [done|].
  rewrite calculatePickingColors_unfold. unfold ret. intros [= <- <-].
  exists qs. cbn.
  destruct (picking_loop qs 0 0
              (mkBuffer (nextBuffer w) (replicate (getPointCount qs * 3) 0%Z)))
    as (Hid & Hl & _).
  rewrite Hid, Hl. cbn. rewrite length_replicate. by repeat split.
Qed.

Lemma constructor_ok ps w t w1 :
  constructor ps w = (inr t, w1) -> tesselator_ok t.
Proof.
  intros H. destruct (constructor_inv _ _ _ _ H)
    as (qs & _ & Hq & Hpc & _ & _ & Hl & Hp & Hn & Hlo & Hnl & Hc).
  constructor; rewrite ?Hp, ?Hn, ?Hlo, ?Hnl, ?Hc.
  - by rewrite Hq.
  - by rewrite Hl, Hpc.
  - apply has_length_None.
  - apply has_length_None.
  - apply has_length_None.
  - apply has_length_None.
  - apply has_length_None.
Qed.

Lemma colors_method_length getColor t w :
  tesselator_ok t ->
  exists c t' w',
    colors_method getColor t w = (inr (c, t'), w') /\
    colors (attributes t') = Some c /\
    length (buf_data c) = pointCount t * 4.
Proof.
  intros Hok. rewrite colors_method_eq. eexists _, _, _. split; [reflexivity|].
  split; [done|]. unfold colorsLoop.
  assert (forall pl idx s,
            length (buf_data (cs_colors (forEach_from
                      (colorStep (colorsAccessor getColor)) idx pl s)))
            = length (buf_data (cs_colors s))) as Hlen.
  { intros pl. induction pl as [|p pl IH]; intros idx s; cbn [forEach_from]; [done|].
    rewrite IH, colorStep_eq. cbn [cs_colors]. apply fillArray_length. }
  rewrite Hlen. cbn [cs_colors]. by apply colorsBuffer_length.
Qed.

(** C3 (amended): right after construction the four position accessors
    return [undefined]; after a call of [updatePositions], [positions()] and
    [nextPositions()] return buffers of 3 entries per cached vertex, and the
    two low-part accessors return buffers of 2 entries per cached vertex when
    the call had the 64-bit flag and [undefined] otherwise; [colors()] runs its
    own pass and returns a buffer of 4 entries per cached vertex even as the
    first call. *)
Theorem accessors_before_and_after_update (ps : list polygon) (w : World)
    (t : PolygonTesselator) (w1 : World) :
  constructor ps w = (inr t, w1) ->
  (positions_method t = None /\ nextPositions_method t = None /\
   positions64xyLow_method t = None /\ nextPositions64xyLow_method t = None) /\
  (forall args, exists t2 w2 bp bn,
     updatePositions_method args t w1 = (inr t2, w2) /\
     positions_method t2 = Some bp /\ length (buf_data bp) = pointCount t * 3 /\
     nextPositions_method t2 = Some bn /\ length (buf_data bn) = pointCount t * 3 /\
     if arg_fp64 args then
       exists bl bnl,
         positions64xyLow_method t2 = Some bl /\ length (buf_data bl) = pointCount t * 2 /\
         nextPositions64xyLow_method t2 = Some bnl /\
         length (buf_data bnl) = pointCount t * 2
     else
       positions64xyLow_method t2 = None /\ nextPositions64xyLow_method t2 = None) /\
  (forall getColor, exists c t2 w2,
     colors_method getColor t w1 = (inr (c, t2), w2) /\
     length (buf_data c) = pointCount t * 4).
Proof.
  intros Hc. pose proof (constructor_ok _ _ _ _ Hc) as Hok.
  destruct (constructor_inv _ _ _ _ Hc)
    as (qs & _ & _ & _ & _ & _ & _ & Hp & Hn & Hlo & Hnl & _).
  split; [done|]. split.
  - intros args.
    destruct (updatePositions_method_spec args t w1 Hok)
      as (t2 & w2 & bp & bn & Hrun & _ & _ & _ & _ & Hbp & Hbn & Lp & Ln & _ & _ & Hlow).
    exists t2, w2, bp, bn. split; [done|]. split; [done|]. split; [done|].
    split; [done|]. split; [done|].
    destruct (arg_fp64 args) eqn:Hf.
    + destruct (Hlow eq_refl) as (bl & bnl & Hbl & Hbnl & Ll & Lnl & _).
      by exists bl, bnl.
    + rewrite updatePositions_method_eq in Hrun. cbv zeta in Hrun.
      injection Hrun as <- _. unfold positions64xyLow_method, nextPositions64xyLow_method.
      cbn [attributes positions64xyLow nextPositions64xyLow].
      unfold ensured. cbv zeta. rewrite Hf.
      destruct (orNew (positions (attributes t)) _ _) as [? ?].
      destruct (orNew (nextPositions (attributes t)) _ _) as [? ?].
      cbn. by rewrite Hlo, Hnl.
  - intros getColor.
    destruct (colors_method_length getColor t w1 Hok) as (c & t2 & w2 & Hrun & _ & Hl).
    by exists c, t2, w2.
Qed.

Definition triangle0 : polygon := SimplePolygon [pt 0 0; pt 1 0; pt 0 1].

(** C3, as stated, fails: on the set of one triangle, [positions()] and the
    three other position accessors return [undefined] right after
    construction. *)
Lemma accessors_undefined_counterexample :
  exists t w1,
    constructor [triangle0] initial_world = (inr t, w1) /\
    positions_method t = None /\ nextPositions_method t = None /\
    positions64xyLow_method t = None /\ nextPositions64xyLow_method t = None.
Proof. eexists _, _. split; [vm_compute; reflexivity|]. by repeat split. Qed.

(** ** Index assembly *)

Section IndexProperties.

Variable earcut : list JS.number -> option (list nat) -> nat -> list nat.
Variable Polygon_getTriangleCount : polygon -> nat.

Abbreviation calculateIndices' := (calculateIndices earcut Polygon_getTriangleCount).
Abbreviation indices' := (indices earcut Polygon_getTriangleCount).

Definition indexInner (ty : IndexType) (offset : option (option nat))
    : nat * Buffer Z -> nat -> nat -> nat * Buffer Z :=
  fun '(i, attribute) index _ =>
    (S i, store (fun index => to_index ty index offset) attribute i index).

Definition indexOuter (ty : IndexType) (offsets : list (option nat))
    : nat * Buffer Z -> polygon -> nat -> nat * Buffer Z :=
  fun '(i, attribute) polygon polygonIndex =>
    forEach (indexInner ty (offsets !! polygonIndex))
            (calculateSurfaceIndices earcut polygon) (i, attribute).

(** The same loops on the elements alone. *)
Definition dataInner (ty : IndexType) (offset : option (option nat))
    : nat * list Z -> nat -> nat -> nat * list Z :=
  fun '(i, d) index _ => (S i, <[i := to_index ty index offset]> d).

Definition dataOuter (ty : IndexType) (offsets : list (option nat))
    : nat * list Z -> polygon -> nat -> nat * list Z :=
  fun '(i, d) polygon polygonIndex =>
    forEach (dataInner ty (offsets !! polygonIndex))
            (calculateSurfaceIndices earcut polygon) (i, d).

Definition indexData (ty : IndexType) (ps : list polygon) : list Z :=
  snd (forEach (dataOuter ty (getPolygonOffsets ps)) ps
         (0, replicate (3 * getTriangleCount Polygon_getTriangleCount ps) 0%Z)).

Lemma indexInner_data ty offset l j i (b : Buffer Z) :
  forEach_from (indexInner ty offset) j l (i, b)
  = ((forEach_from (dataInner ty offset) j l (i, buf_data b)).1,
     mkBuffer (buf_id b) (forEach_from (dataInner ty offset) j l (i, buf_data b)).2).
Proof.
  revert j i b. induction l as [|x l IH]; intros j i b; cbn [forEach_from].
  - by destruct b.
  - cbn [indexInner dataInner]. by rewrite IH.
Qed.

Lemma indexOuter_data ty offsets ps j i (b : Buffer Z) :
  forEach_from (indexOuter ty offsets) j ps (i, b)
  = ((forEach_from (dataOuter ty offsets) j ps (i, buf_data b)).1,
     mkBuffer (buf_id b) (forEach_from (dataOuter ty offsets) j ps (i, buf_data b)).2).
Proof.
  revert j i b. induction ps as [|p ps IH]; intros j i b; cbn [forEach_from].
  - by destruct b.
  - cbn [indexOuter dataOuter]. unfold forEach. rewrite indexInner_data.
    rewrite IH. cbn [buf_id buf_data].
    by destruct (forEach_from (dataInner ty (offsets !! j)) 0
                   (calculateSurfaceIndices earcut p) (i, buf_data b)).
Qed.

Definition overflows (ty : option IndexType) (ps : list polygon) : bool :=
  match default Uint32Array ty with
  | Uint16Array => (65535 <? Z.of_nat (3 * getTriangleCount Polygon_getTriangleCount ps))%Z
  | Uint32Array => false
  end.

(** [calculateIndices] either throws, on the 16-bit type with more than
    65535 indices, or returns a fresh array whose elements depend on the
    polygons and the index type alone. *)
Lemma calculateIndices_eq ps ty w :
  calculateIndices' ps ty w =
  if overflows ty ps then (inl IndexOverflowError, w)
  else (inr (mkBuffer (nextBuffer w) (indexData (default Uint32Array ty) ps)),
        mkWorld (S (nextBuffer w)) (jsArrays w) (heightCalls w) (colorCalls w)).
Proof.
  unfold calculateIndices, overflows, bind, throw, ret, new_array. cbv zeta.
  assert (forall ty0,
            (forEach
               (fun '(i, attribute) polygon polygonIndex =>
                  forEach
                    (fun '(i, attribute) index (_ : nat) =>
                       (S i, store (fun index => to_index ty0 index
                                                   (getPolygonOffsets ps !! polygonIndex))
                               attribute i index))
                    (calculateSurfaceIndices earcut polygon) (i, attribute)) ps
               (0, mkBuffer (nextBuffer w)
                     (replicate (3 * getTriangleCount Polygon_getTriangleCount ps) 0%Z))).2
            = mkBuffer (nextBuffer w) (indexData ty0 ps)) as Hloop.
  { intros ty0. unfold forEach at 1.
    change (fun '(i, attribute) polygon polygonIndex =>
              forEach
                (fun '(i0, attribute0) index (_ : nat) =>
                   (S i0, store (fun index0 => to_index ty0 index0
                                                 (getPolygonOffsets ps !! polygonIndex))
                            attribute0 i0 index))
                (calculateSurfaceIndices earcut polygon) (i, attribute))
      with (indexOuter ty0 (getPolygonOffsets ps)).
    by rewrite indexOuter_data. }
  destruct (default Uint32Array ty).
  - destruct (65535 <? _)%Z; [done|]. by rewrite Hloop.
  - by rewrite Hloop.
Qed.

(** X1: the 16-bit check of [calculateIndices] is on the index count: the call
    throws exactly when three times the triangle count exceeds 65535; with the
    32-bit type, or with no type given, it never throws. *)
Lemma calculateIndices_throws_iff ps w :
  ((exists w', calculateIndices' ps (Some Uint16Array) w = (inl IndexOverflowError, w'))
   <-> (65535 < Z.of_nat (3 * getTriangleCount Polygon_getTriangleCount ps))%Z) /\
  (exists b w', calculateIndices' ps (Some Uint32Array) w = (inr b, w')) /\
  (exists b w', calculateIndices' ps None w = (inr b, w')).
Proof.
  rewrite !calculateIndices_eq. unfold overflows. cbn [default].
  split; [|split; by eexists _, _].
  destruct (65535 <? _)%Z eqn:E.
  - apply Z.ltb_lt in E. split; [done|]. intros _. by eexists.
  - apply Z.ltb_ge in E. split; [|lia]. by intros [w' [=]].
Qed.

(** C4 (amended): [indices()] does not read a cached buffer; every call runs
    [calculateIndices] again on the cached polygons and returns a newly
    allocated array, so two successive calls return two different arrays; the
    two arrays have the same elements. *)
Theorem indices_recomputed_each_call (t : PolygonTesselator) (w : World) :
  exists b1 w2 b2 w3,
    indices' t w = (inr b1, w2) /\
    indices' t w2 = (inr b2, w3) /\
    buf_id b1 = nextBuffer w /\
    buf_id b2 = S (nextBuffer w) /\
    nextBuffer w3 = S (S (nextBuffer w)) /\
    buf_data b1 = buf_data b2.
Proof.
  unfold indices. eexists _, _, _, _.
  split; [rewrite calculateIndices_eq; reflexivity|].
  split; [rewrite calculateIndices_eq; reflexivity|].
  by repeat split.
Qed.

End IndexProperties.

(** C4, as stated, fails: construction of a tesselator on one triangle
    allocates the picking-colour buffer alone, and two successive calls of
    [indices()] return two arrays of different identity, whatever the
    triangulator. *)
Lemma indices_not_cached_counterexample :
  exists t w1,
    constructor [triangle0] initial_world = (inr t, w1) /\
    nextBuffer w1 = 1 /\
    forall earcut triangleCount,
    exists b1 w2 b2 w3,
      indices earcut triangleCount t w1 = (inr b1, w2) /\
      indices earcut triangleCount t w2 = (inr b2, w3) /\
      buf_id b1 = 1 /\ buf_id b2 = 2 /\ buf_id b1 <> buf_id b2.
Proof.
  eexists _, _. split; [vm_compute; reflexivity|]. split; [reflexivity|].
  intros earcut triangleCount.
  unfold indices. eexists _, _, _, _.
  split; [rewrite calculateIndices_eq; reflexivity|].
  split; [rewrite calculateIndices_eq; reflexivity|].
  cbn. by repeat split.
Qed.

(** ** Rounding to float32 and the low part

    [Math.fround] and the subtraction of binary64 numbers, followed through
    the Standard Library's [binary_round]: the value of a result is read as
    an integer, scaled by 2^1074. *)
Module Float32.
Local Open Scope Z_scope.

Lemma digits2_pos_size m : digits2_pos m = Pos.size m.
Proof. induction m as [m IH|m IH|]; simpl; by rewrite ?IH. Qed.

Lemma digits2_bounds m :
  2 ^ (Z.pos (digits2_pos m) - 1) <= Z.pos m < 2 ^ Z.pos (digits2_pos m).
Proof.
  rewrite digits2_pos_size.
  pose proof (Pos.size_gt m) as Hgt. pose proof (Pos.size_le m) as Hle.
  split.
  - assert (2 ^ Z.pos (Pos.size m) <= 2 * Z.pos m).
    { change (2 * Z.pos m) with (Z.pos m~0). rewrite <- Pos2Z.inj_pow. lia. }
    replace (Z.pos (Pos.size m)) with (Z.pos (Pos.size m) - 1 + 1) in H by lia.
    rewrite Z.pow_add_r in H by lia. lia.
  - rewrite <- Pos2Z.inj_pow. lia.
Qed.

Lemma Zdigits2_bounds n : 0 < n -> 2 ^ (Zdigits2 n - 1) <= n < 2 ^ Zdigits2 n.
Proof. destruct n as [|m|m]; try lia. intros _. apply digits2_bounds. Qed.

Lemma Zdigits2_nonneg n : 0 <= Zdigits2 n.
Proof. destruct n; simpl; lia. Qed.

(* digits characterised *)
Lemma Zdigits2_unique n d : 0 < n -> 2 ^ (d - 1) <= n < 2 ^ d -> Zdigits2 n = d.
Proof.
  intros Hn [H1 H2]. pose proof (Zdigits2_bounds n Hn) as [H3 H4].
  pose proof (Zdigits2_nonneg n).
  assert (0 < d).
  { destruct (Z_lt_le_dec 0 d); [done|].
    destruct (Z.eq_dec d 0) as [->|]; [simpl in H2; lia|].
    rewrite Z.pow_neg_r in H2 by lia. lia. }
  destruct (Z_lt_le_dec (Zdigits2 n) d) as [Hlt|Hge].
  - assert (2 ^ Zdigits2 n <= 2 ^ (d - 1)) by (apply Z.pow_le_mono_r; lia). lia.
  - destruct (Z_lt_le_dec d (Zdigits2 n)) as [Hlt'|Hge']; [|lia].
    assert (2 ^ d <= 2 ^ (Zdigits2 n - 1)) by (apply Z.pow_le_mono_r; lia). lia.
Qed.

Lemma shr_1_m mrs : 0 <= shr_m mrs -> shr_m (shr_1 mrs) = shr_m mrs / 2.
Proof.
  destruct mrs as [m r s]. simpl. intros Hm.
  destruct m as [|[p|p|]|p]; simpl; try lia; try reflexivity.
  - rewrite Pos2Z.inj_xI. rewrite (Z.mul_comm 2), Z.div_add_l by lia. reflexivity.
  - rewrite Pos2Z.inj_xO. rewrite (Z.mul_comm 2), Z.div_mul by lia. reflexivity.
Qed.

Lemma iter_pos_shr_m p mrs :
  0 <= shr_m mrs -> shr_m (SpecFloat.iter_pos shr_1 p mrs) = shr_m mrs / 2 ^ Z.pos p.
Proof.
  revert mrs. induction p as [p IH|p IH|]; intros mrs Hm; cbn [SpecFloat.iter_pos].
  - assert (0 <= shr_m (shr_1 mrs)) as H1 by (rewrite shr_1_m by done; apply Z.div_pos; lia).
    assert (0 <= shr_m (SpecFloat.iter_pos shr_1 p (shr_1 mrs))) as H2
      by (rewrite IH by done; apply Z.div_pos; lia).
    rewrite IH, IH, shr_1_m by done.
    rewrite !Z.div_div by lia. f_equal.
    rewrite Pos2Z.inj_xI. rewrite Z.pow_add_r, Z.pow_mul_r by lia.
    change (2 ^ 2) with 4. rewrite <- Z.pow_add_r by lia.
    replace (Z.pos p + Z.pos p) with (2 * Z.pos p) by lia.
    rewrite Z.pow_mul_r by lia. change (2 ^ 2) with 4. change (2 ^ 1) with 2. lia.
  - assert (0 <= shr_m (SpecFloat.iter_pos shr_1 p mrs)) as H2
      by (rewrite IH by done; apply Z.div_pos; lia).
    rewrite IH, IH by done. rewrite Z.div_div by lia. f_equal.
    rewrite Pos2Z.inj_xO, <- Z.pow_add_r by lia. f_equal. lia.
  - rewrite shr_1_m by done. reflexivity.
Qed.

Lemma round_nearest_even_bounds mx lx :
  mx <= round_nearest_even mx lx <= mx + 1.
Proof. destruct lx as [|[| |]]; simpl; try lia. destruct (Z.even mx); lia. Qed.

Lemma pos_iter_xO mx d : Z.pos (Pos.iter xO mx d) = Z.pos mx * 2 ^ Z.pos d.
Proof.
  induction d as [|d IH] using Pos.peano_ind.
  - simpl. lia.
  - rewrite Pos.iter_succ, Pos2Z.inj_xO, IH, Pos2Z.inj_succ, Z.pow_succ_r by lia. lia.
Qed.

Lemma shl_align_spec mx ex ex' :
  snd (shl_align mx ex ex') = Z.min ex ex' /\
  Z.pos (fst (shl_align mx ex ex')) = Z.pos mx * 2 ^ (ex - Z.min ex ex').
Proof.
  unfold shl_align. destruct (ex' - ex) as [|d|d] eqn:E; simpl.
  - split; [lia|]. replace (ex - Z.min ex ex') with 0 by lia. lia.
  - split; [lia|]. replace (ex - Z.min ex ex') with 0 by lia. lia.
  - split; [lia|]. rewrite pos_iter_xO. f_equal. f_equal. lia.
Qed.

Lemma Zdigits2_shift m k : 0 < m -> 0 <= k -> Zdigits2 (m * 2 ^ k) = Zdigits2 m + k.
Proof.
  intros Hm Hk. pose proof (Zdigits2_bounds m Hm) as [H1 H2].
  pose proof (Zdigits2_nonneg m).
  assert (0 < Zdigits2 m).
  { destruct m; simpl in *; lia. }
  apply Zdigits2_unique; [nia|].
  replace (Zdigits2 m + k - 1) with (Zdigits2 m - 1 + k) by lia.
  rewrite !Z.pow_add_r by lia. nia.
Qed.

Lemma div_pow2_lt m p b : 0 <= m -> 0 <= p -> 0 <= b -> m < 2 ^ (p + b) -> m / 2 ^ p < 2 ^ b.
Proof.
  intros Hm Hp Hb Hlt. apply Z.div_lt_upper_bound; [lia|].
  by rewrite <- Z.pow_add_r by lia.
Qed.

Section Round.
Variables prec emax : Z.
Hypothesis prec_pos : 0 < prec.

Abbreviation fexp := (fexp prec emax).
Abbreviation emin := (emin prec emax).

Lemma fexp_ge_emin e : emin <= fexp e.
Proof. unfold SpecFloat.fexp. lia. Qed.

Lemma fexp_ge e : e - prec <= fexp e.
Proof. unfold SpecFloat.fexp. lia. Qed.

Lemma fexp_spec e : fexp e = Z.max (e - prec) emin.
Proof. reflexivity. Qed.

Definition mkfloat (s : bool) (n fe : Z) : spec_float :=
  if n =? 0 then S754_zero s
  else if n <? 2 ^ prec then S754_finite s (Z.to_pos n) fe
  else S754_finite s (Z.to_pos (2 ^ (prec - 1))) (fe + 1).

Lemma shr_fexp_noshift m e :
  fexp (Zdigits2 m + e) <= e ->
  shr_fexp prec emax m e loc_Exact = (Build_shr_record m false false, e).
Proof.
  intros H. unfold shr_fexp, shr. simpl shr_record_of_loc.
  destruct (fexp (Zdigits2 m + e) - e) eqn:E; try reflexivity. lia.
Qed.

Lemma shr_fexp_shift m e l :
  0 <= m -> e < fexp (Zdigits2 m + e) ->
  snd (shr_fexp prec emax m e l) = fexp (Zdigits2 m + e) /\
  shr_m (fst (shr_fexp prec emax m e l)) = m / 2 ^ (fexp (Zdigits2 m + e) - e).
Proof.
  intros Hm H. unfold shr_fexp, shr.
  destruct (fexp (Zdigits2 m + e) - e) as [|p|p] eqn:E; try lia.
  simpl. split; [lia|]. rewrite iter_pos_shr_m; [|by destruct l as [|[| |]]].
  by destruct l as [|[| |]].
Qed.

(** Rounding [mz * 2^ez] when [ez] is at most the target exponent. *)
Lemma binary_round_aux_spec s mz ez :
  let fe := fexp (Z.pos (digits2_pos mz) + ez) in
  ez <= fe -> fe + 1 <= emax - prec ->
  exists n,
    0 <= n <= 2 ^ prec /\
    (ez = fe -> n = Z.pos mz) /\
    (ez < fe -> Z.pos mz / 2 ^ (fe - ez) <= n <= Z.pos mz / 2 ^ (fe - ez) + 1) /\
    binary_round_aux prec emax s (Z.pos mz) ez loc_Exact = mkfloat s n fe.
Proof.
  intros fe Hle Hov. unfold binary_round_aux.
  pose proof (digits2_bounds mz) as [Hd1 Hd2].
  set (d := Z.pos (digits2_pos mz)) in *.
  assert (0 < d) as Hd by (unfold d; lia).
  pose proof (fexp_ge (d + ez)) as Hfe1. pose proof (fexp_ge_emin (d + ez)) as Hfe2.
  fold fe in Hfe1, Hfe2.
  (* the first shift *)
  assert (exists mrs',
            shr_fexp prec emax (Z.pos mz) ez loc_Exact = (mrs', fe) /\
            shr_m mrs' = Z.pos mz / 2 ^ (fe - ez) /\
            (ez = fe -> loc_of_shr_record mrs' = loc_Exact)) as (mrs' & E1 & Hm1 & Hex).
  { destruct (Z.eq_dec ez fe) as [Heq|Hne].
    - eexists. rewrite shr_fexp_noshift by (simpl Zdigits2; fold d; fold fe; lia).
      split; [by rewrite Heq|]. simpl. rewrite Heq, Z.sub_diag, Z.div_1_r. done.
    - destruct (shr_fexp_shift (Z.pos mz) ez loc_Exact ltac:(lia)) as [H1 H2].
      { simpl Zdigits2. fold d. fold fe. lia. }
      simpl Zdigits2 in H1, H2. fold d in H1, H2. fold fe in H1, H2.
      destruct (shr_fexp prec emax (Z.pos mz) ez loc_Exact) as [mrs' e'].
      simpl in H1, H2. subst e'. exists mrs'. split; [done|]. split; [done|]. lia. }
  rewrite E1.
  set (m1 := shr_m mrs') in *.
  set (n := round_nearest_even m1 (loc_of_shr_record mrs')).
  assert (0 <= m1) as Hm1pos by (rewrite Hm1; apply Z.div_pos; lia).
  assert (m1 < 2 ^ prec) as Hm1lt.
  { rewrite Hm1. apply div_pow2_lt; try lia.
    eapply Z.lt_le_trans; [exact Hd2|]. apply Z.pow_le_mono_r; lia. }
  pose proof (round_nearest_even_bounds m1 (loc_of_shr_record mrs')) as Hn. fold n in Hn.
  exists n. split; [lia|]. split; [|split].
  - intros Heq. unfold n. rewrite (Hex Heq). simpl. rewrite Hm1, Heq, Z.sub_diag, Z.div_1_r. done.
  - intros _. rewrite <- Hm1. done.
  - unfold mkfloat.
    destruct (Z.eqb_spec n 0) as [Hn0|Hn0].
    + rewrite Hn0. rewrite shr_fexp_noshift; [done|]. rewrite fexp_spec. simpl Zdigits2. lia.
    + destruct (Z.ltb_spec n (2 ^ prec)) as [Hlt|Hge].
      * assert (Zdigits2 n <= prec) as Hdn.
        { pose proof (Zdigits2_bounds n ltac:(lia)) as [Hb _].
          destruct (Z_lt_le_dec prec (Zdigits2 n)); [|lia].
          assert (2 ^ prec <= 2 ^ (Zdigits2 n - 1)) by (apply Z.pow_le_mono_r; lia). lia. }
        rewrite shr_fexp_noshift by (rewrite fexp_spec; lia).
        simpl. destruct n as [|pn|pn]; try lia.
        destruct (Z.leb_spec fe (emax - prec)); [done|lia].
      * assert (n = 2 ^ prec) as Hn2 by lia.
        assert (Zdigits2 n = prec + 1) as Hdn.
        { apply Zdigits2_unique; [lia|]. rewrite Hn2.
          replace (prec + 1 - 1) with prec by lia. split; [lia|].
          apply Z.pow_lt_mono_r; lia. }
        destruct (shr_fexp_shift n fe loc_Exact ltac:(lia)) as [H1 H2].
        { rewrite Hdn, fexp_spec. lia. }
        rewrite Hdn in H1, H2.
        assert (fexp (prec + 1 + fe) = fe + 1) as Hfe' by (rewrite fexp_spec; lia).
        rewrite Hfe' in H1, H2.
        destruct (shr_fexp prec emax n fe loc_Exact) as [mrs'' e''].
        simpl in H1, H2. subst e''. rewrite H2.
        replace (fe + 1 - fe) with 1 by lia. rewrite Hn2.
        replace prec with (prec - 1 + 1) at 1 by lia.
        rewrite Z.pow_add_r by lia. change (2 ^ 1) with 2. rewrite Z.div_mul by lia.
        assert (0 < 2 ^ (prec - 1)) by (apply Z.pow_pos_nonneg; lia).
        destruct (2 ^ (prec - 1)) as [|pp|pp] eqn:Epp; try lia.
        destruct (Z.leb_spec (fe + 1) (emax - prec)); [done|lia].
Qed.

Lemma binary_round_spec s mx ex :
  let fe := fexp (Z.pos (digits2_pos mx) + ex) in
  fe + 1 <= emax - prec ->
  exists n,
    0 <= n <= 2 ^ prec /\
    (fe <= ex -> n = Z.pos mx * 2 ^ (ex - fe)) /\
    (ex < fe -> Z.pos mx / 2 ^ (fe - ex) <= n <= Z.pos mx / 2 ^ (fe - ex) + 1) /\
    binary_round prec emax s mx ex = mkfloat s n fe.
Proof.
  intros fe Hov. unfold binary_round. fold fe.
  pose proof (shl_align_spec mx ex fe) as [Hez Hmz].
  destruct (shl_align mx ex fe) as [mz ez]. simpl in Hez, Hmz.
  assert (Z.pos (digits2_pos mz) + ez = Z.pos (digits2_pos mx) + ex) as Hdig.
  { change (Z.pos (digits2_pos mz)) with (Zdigits2 (Z.pos mz)).
    rewrite Hmz, Zdigits2_shift by lia. simpl. lia. }
  destruct (binary_round_aux_spec s mz ez) as (n & Hn & Hex & Hrd & Hres).
  { rewrite Hdig. fold fe. lia. }
  { rewrite Hdig. by fold fe. }
  rewrite Hdig in Hex, Hrd, Hres. fold fe in Hex, Hrd, Hres.
  exists n. split; [done|]. split; [|split; [|done]].
  - intros Hle. rewrite Hex by lia. rewrite Hmz. do 2 f_equal. lia.
  - intros Hlt. assert (ez = ex) as -> by lia.
    assert (mz = mx) as ->.
    { replace (ex - Z.min ex fe) with 0 in Hmz by lia. simpl in Hmz. lia. }
    by apply Hrd.
Qed.

End Round.


(** The value of a binary64 number, scaled by 2^1074 (the exponent of a
    binary64 is at least -1074). *)
Definition scaled (x : spec_float) : Z :=
  match x with
  | S754_finite s m e => cond_Zopp s (Z.pos m) * 2 ^ (e + 1074)
  | _ => 0
  end.

Lemma cond_Zopp_mul s a b : cond_Zopp s a * b = cond_Zopp s (a * b).
Proof. destruct s; simpl; lia. Qed.

Lemma cond_Zopp_abs s a : Z.abs (cond_Zopp s a) = Z.abs a.
Proof. destruct s; simpl; lia. Qed.

Lemma mkfloat_cases prec s n fe :
  0 < prec -> 0 <= n <= 2 ^ prec ->
  (n = 0 /\ mkfloat prec s n fe = S754_zero s) \/
  (0 < n /\ exists m e, mkfloat prec s n fe = S754_finite s m e /\
     fe <= e <= fe + 1 /\ Z.pos m * 2 ^ (e - fe) = n /\ Z.pos m < 2 ^ prec).
Proof.
  intros Hprec Hn. unfold mkfloat.
  destruct (Z.eqb_spec n 0) as [->|Hn0]; [by left|]. right. split; [lia|].
  destruct (Z.ltb_spec n (2 ^ prec)) as [Hlt|Hge].
  - exists (Z.to_pos n), fe. rewrite Z2Pos.id by lia.
    rewrite Z.sub_diag. simpl. split; [done|]. split; [lia|]. split; lia.
  - assert (0 < 2 ^ (prec - 1)) by (apply Z.pow_pos_nonneg; lia).
    assert (2 ^ prec = 2 ^ (prec - 1) * 2) as Hp.
    { replace prec with (prec - 1 + 1) at 1 by lia. rewrite Z.pow_add_r by lia. done. }
    exists (Z.to_pos (2 ^ (prec - 1))), (fe + 1). rewrite Z2Pos.id by lia.
    replace (fe + 1 - fe) with 1 by lia. change (2 ^ 1) with 2.
    split; [done|]. split; [lia|]. split; lia.
Qed.

Lemma scaled_mkfloat prec s n fe :
  0 < prec -> 0 <= n <= 2 ^ prec -> 0 <= fe + 1074 ->
  scaled (mkfloat prec s n fe) = cond_Zopp s n * 2 ^ (fe + 1074).
Proof.
  intros Hprec Hn Hfe.
  destruct (mkfloat_cases prec s n fe Hprec Hn) as [[-> ->]|(Hpos & m & e & -> & He & Hm & _)].
  - destruct s; simpl; lia.
  - simpl. rewrite <- Hm. rewrite !cond_Zopp_mul. f_equal.
    rewrite <- Z.mul_assoc, <- Z.pow_add_r by lia. do 2 f_equal. lia.
Qed.

Lemma fexp64_exact d e : d <= 53 -> -1074 <= e -> fexp 53 1024 (d + e) <= e.
Proof. intros. unfold fexp, emin. lia. Qed.

Lemma mk64_exact s m e :
  Z.pos (digits2_pos m) <= 53 -> -1074 <= e -> e <= 900 ->
  exists m2 e2,
    JS.mk64 s m e = S754_finite s m2 e2 /\
    -1074 <= e2 /\ e - 52 <= e2 <= e /\
    scaled (S754_finite s m2 e2) = scaled (S754_finite s m e) /\
    Z.pos (digits2_pos m2) + e2 = Z.pos (digits2_pos m) + e.
Proof.
  intros Hd He1 He2. unfold JS.mk64, JS.prec64, JS.emax64.
  set (d := Z.pos (digits2_pos m)) in *.
  pose proof (fexp64_exact d e Hd He1) as Hfe.
  assert (d + e - 53 <= fexp 53 1024 (d + e)) as Hfe' by (unfold fexp; lia).
  assert (-1074 <= fexp 53 1024 (d + e)) as Hfe'' by (unfold fexp, emin; lia).
  destruct (binary_round_spec 53 1024 ltac:(lia) s m e) as (n & Hn & Hex & _ & Hres).
  { fold d. lia. }
  fold d in Hex, Hres. specialize (Hex Hfe).
  set (fe := fexp 53 1024 (d + e)) in *.
  assert (0 <= e - fe) as Hk by lia.
  assert (0 < n) as Hnpos by (rewrite Hex; apply Z.mul_pos_pos; [lia|apply Z.pow_pos_nonneg; lia]).
  assert (Zdigits2 n = d + (e - fe)) as Hdn.
  { rewrite Hex. rewrite Zdigits2_shift by lia. done. }
  assert (n < 2 ^ 53) as Hlt.
  { pose proof (Zdigits2_bounds n Hnpos) as [_ Hb].
    eapply Z.lt_le_trans; [exact Hb|]. apply Z.pow_le_mono_r; lia. }
  rewrite Hres. unfold mkfloat.
  destruct (Z.eqb_spec n 0); [lia|]. destruct (Z.ltb_spec n (2 ^ 53)); [|lia].
  exists (Z.to_pos n), fe. split; [done|]. split; [done|]. split; [lia|]. split.
  - simpl. rewrite Z2Pos.id by lia. rewrite Hex, !cond_Zopp_mul. f_equal.
    rewrite <- Z.mul_assoc, <- Z.pow_add_r by lia. do 2 f_equal. lia.
  - change (Z.pos (digits2_pos (Z.to_pos n))) with (Zdigits2 (Z.pos (Z.to_pos n))).
    rewrite Z2Pos.id by lia. rewrite Hdn. lia.
Qed.

Lemma binary_normalize_exact D ez :
  -1074 <= ez -> ez <= 900 -> Z.abs D < 2 ^ 53 ->
  scaled (binary_normalize 53 1024 D ez false) = D * 2 ^ (ez + 1074) /\
  (binary_normalize 53 1024 D ez false = S754_zero false \/
   exists s m e, binary_normalize 53 1024 D ez false = S754_finite s m e /\
     -1074 <= e <= ez /\
     Z.pos (digits2_pos m) + e = Zdigits2 D + ez).
Proof.
  intros He1 He2 HD. unfold binary_normalize.
  assert (forall s p, Z.pos p < 2 ^ 53 ->
            scaled (binary_round 53 1024 s p ez) = cond_Zopp s (Z.pos p) * 2 ^ (ez + 1074) /\
            exists m e, binary_round 53 1024 s p ez = S754_finite s m e /\
              -1074 <= e <= ez /\
              Z.pos (digits2_pos m) + e = Z.pos (digits2_pos p) + ez) as Hround.
  { intros s p Hp.
    assert (Z.pos (digits2_pos p) <= 53) as Hd.
    { pose proof (digits2_bounds p) as [Hb _].
      destruct (Z_lt_le_dec 53 (Z.pos (digits2_pos p))); [|lia].
      assert (2 ^ 53 <= 2 ^ (Z.pos (digits2_pos p) - 1)) by (apply Z.pow_le_mono_r; lia).
      lia. }
    destruct (mk64_exact s p ez Hd He1 He2) as (m2 & e2 & Hmk & H1 & H2 & H3 & H4).
    unfold JS.mk64, JS.prec64, JS.emax64 in Hmk. rewrite Hmk.
    split; [by rewrite H3|]. exists m2, e2. split; [done|]. split; [lia|done]. }
  destruct D as [|p|p].
  - split; [done|]. by left.
  - destruct (Hround false p ltac:(lia)) as [H1 (m & e & H2 & H3 & H4)].
    split; [exact H1|]. right. by exists false, m, e.
  - destruct (Hround true p ltac:(lia)) as [H1 (m & e & H2 & H3 & H4)].
    split; [rewrite H1; simpl; lia|]. right. by exists true, m, e.
Qed.

Lemma SFsub_exact sx mx ex sy my ey :
  -1074 <= ex -> -1074 <= ey -> ex <= 900 -> ey <= 900 ->
  Z.abs (scaled (S754_finite sx mx ex) - scaled (S754_finite sy my ey))
    < 2 ^ (53 + (Z.min ex ey + 1074)) ->
  let r := JS.sub (S754_finite sx mx ex) (S754_finite sy my ey) in
  scaled r = scaled (S754_finite sx mx ex) - scaled (S754_finite sy my ey) /\
  (r = S754_zero false \/
   exists s m e, r = S754_finite s m e /\ -1074 <= e <= Z.min ex ey).
Proof.
  intros Hx1 Hy1 Hx2 Hy2 Habs. cbv zeta.
  unfold JS.sub, SFsub, JS.prec64, JS.emax64.
  set (ez := Z.min ex ey) in *.
  pose proof (shl_align_spec mx ex ez) as [_ Hax].
  pose proof (shl_align_spec my ey ez) as [_ Hay].
  replace (Z.min ex ez) with ez in Hax by lia.
  replace (Z.min ey ez) with ez in Hay by lia.
  rewrite Hax, Hay.
  set (D := cond_Zopp sx (Z.pos mx * 2 ^ (ex - ez)) - cond_Zopp sy (Z.pos my * 2 ^ (ey - ez))).
  assert (0 < 2 ^ (ez + 1074)) as Hpz by (apply Z.pow_pos_nonneg; lia).
  assert (scaled (S754_finite sx mx ex) - scaled (S754_finite sy my ey)
          = D * 2 ^ (ez + 1074)) as HD.
  { unfold D. cbn [scaled]. rewrite Z.mul_sub_distr_r, !cond_Zopp_mul.
    rewrite <- !Z.mul_assoc, <- !Z.pow_add_r by lia.
    replace (ex - ez + (ez + 1074)) with (ex + 1074) by lia.
    replace (ey - ez + (ez + 1074)) with (ey + 1074) by lia. done. }
  rewrite HD in Habs |- *.
  assert (Z.abs D < 2 ^ 53) as HDlt.
  { rewrite Z.abs_mul, (Z.abs_eq (2 ^ (ez + 1074))), (Z.pow_add_r 2 53 (ez + 1074)) in Habs
      by lia.
    apply Z.mul_lt_mono_pos_r in Habs; lia. }
  destruct (binary_normalize_exact D ez ltac:(lia) ltac:(lia) HDlt)
    as [H1 [H2|(s & m & e & H2 & H3 & _)]].
  - split; [done|]. by left.
  - split; [done|]. right. by exists s, m, e.
Qed.


Lemma scaled_digits s m e :
  -1074 <= e ->
  2 ^ (Z.pos (digits2_pos m) - 1 + (e + 1074)) <= Z.abs (scaled (S754_finite s m e)).
Proof.
  intros He. cbn [scaled]. rewrite Z.abs_mul, cond_Zopp_abs.
  pose proof (digits2_bounds m) as [Hb _].
  assert (0 < 2 ^ (e + 1074)) by (apply Z.pow_pos_nonneg; lia).
  rewrite Z.pow_add_r by lia. rewrite (Z.abs_eq (2 ^ (e + 1074))) by lia.
  rewrite (Z.abs_eq (Z.pos m)) by lia.
  apply Z.mul_le_mono_nonneg_r; lia.
Qed.

(** The value of a binary64 number as a rational: the scaled value over
    2^1074. *)
Definition valueQ (x : JS.number) : Q := Qmake (scaled x) (2 ^ 1074)%positive.

Lemma relative_error_Q (a b c : Z) (D : positive) :
  100000 * Z.abs (a + b - c) <= Z.abs c ->
  (Qabs (Qmake a D + Qmake b D - Qmake c D) <= (1 # 100000) * Qabs (Qmake c D))%Q.
Proof.
  intros H. cbv [Qle Qabs Qplus Qminus Qopp Qmult Qnum Qden]. rewrite !Pos2Z.inj_mul.
  replace ((a * Z.pos D + b * Z.pos D) * Z.pos D + - c * (Z.pos D * Z.pos D))
    with ((a + b - c) * (Z.pos D * Z.pos D)) by ring.
  rewrite Z.abs_mul, (Z.abs_eq (Z.pos D * Z.pos D)) by lia.
  assert (0 < Z.pos D * Z.pos D * Z.pos D) by lia.
  nia.
Qed.

Lemma relative_error_Q_lt (a b c : Z) (D : positive) :
  Z.abs c < 100000 * Z.abs (a + b - c) ->
  ((1 # 100000) * Qabs (Qmake c D) < Qabs (Qmake a D + Qmake b D - Qmake c D))%Q.
Proof.
  intros H. cbv [Qlt Qabs Qplus Qminus Qopp Qmult Qnum Qden]. rewrite !Pos2Z.inj_mul.
  replace ((a * Z.pos D + b * Z.pos D) * Z.pos D + - c * (Z.pos D * Z.pos D))
    with ((a + b - c) * (Z.pos D * Z.pos D)) by ring.
  rewrite Z.abs_mul, (Z.abs_eq (Z.pos D * Z.pos D)) by lia.
  assert (0 < Z.pos D * Z.pos D * Z.pos D) by lia.
  nia.
Qed.

(** *** Rounding to nearest

    The record of a right shift remembers, of the bits shifted out, the last
    one (the round bit) and whether any other was set (the sticky bit).
    [shifted M k mrs] says that [mrs] is [M] after [k] shifts. *)
Definition shifted (M k : Z) (mrs : shr_record) : Prop :=
  0 <= shr_m mrs /\
  exists t, 0 <= t < 2 ^ k /\
    2 * M = (2 * shr_m mrs + Z.b2z (shr_r mrs)) * 2 ^ k + t /\
    (shr_s mrs = false <-> t = 0).

Lemma shifted_start M : 0 <= M -> shifted M 0 (Build_shr_record M false false).
Proof. intros HM. split; [done|]. exists 0. simpl. split; [lia|]. split; [lia|done]. Qed.

Lemma shr_1_nonneg m r s :
  0 <= m -> shr_1 (Build_shr_record m r s) = Build_shr_record (m / 2) (Z.odd m) (r || s).
Proof.
  intros Hm. destruct m as [|[p|p|]|p]; try lia; simpl shr_1.
  - reflexivity.
  - replace (Z.pos p~1 / 2) with (Z.pos p); [done|].
    apply Z.div_unique with 1; lia.
  - replace (Z.pos p~0 / 2) with (Z.pos p); [done|].
    apply Z.div_unique with 0; lia.
  - reflexivity.
Qed.

Lemma shr_1_shifted M k mrs : 0 <= k -> shifted M k mrs -> shifted M (k + 1) (shr_1 mrs).
Proof.
  intros Hk (Hm & t & Ht & HM & Hs). destruct mrs as [m r s]. simpl in Hm, HM, Hs.
  rewrite shr_1_nonneg by done. unfold shifted. cbn [shr_m shr_r shr_s].
  assert (0 < 2 ^ k) as Hp by (apply Z.pow_pos_nonneg; lia).
  rewrite Z.pow_add_r by lia. change (2 ^ 1) with 2.
  pose proof (Z.div_mod m 2 ltac:(lia)) as Hdm. rewrite Zmod_odd in Hdm.
  assert (Z.b2z (Z.odd m) = if Z.odd m then 1 else 0) as Hb by (by destruct (Z.odd m)).
  split; [apply Z.div_pos; lia|].
  exists (Z.b2z r * 2 ^ k + t). split; [destruct r; simpl; lia|]. split.
  - rewrite Hb. set (q := m / 2) in *. set (o := if Z.odd m then 1 else 0) in *.
    rewrite HM, Hdm. ring.
  - destruct r; simpl.
    + split; [done|lia].
    + rewrite Hs. lia.
Qed.

Lemma iter_pos_shifted M p : forall k mrs,
  0 <= k -> shifted M k mrs -> shifted M (k + Z.pos p) (SpecFloat.iter_pos shr_1 p mrs).
Proof.
  induction p as [p IH|p IH|]; intros k mrs Hk H; cbn [SpecFloat.iter_pos].
  - replace (k + Z.pos p~1) with (k + 1 + Z.pos p + Z.pos p) by lia.
    apply IH; [lia|]. apply IH; [lia|]. by apply shr_1_shifted.
  - replace (k + Z.pos p~0) with (k + Z.pos p + Z.pos p) by lia.
    apply IH; [lia|]. by apply IH.
  - by apply shr_1_shifted.
Qed.

(** Rounding a shifted record to nearest: the result is within half a unit
    of the number the record came from. *)
Lemma round_nearest_even_shifted M k mrs :
  0 <= k -> shifted M k mrs ->
  let n := round_nearest_even (shr_m mrs) (loc_of_shr_record mrs) in
  shr_m mrs <= n <= shr_m mrs + 1 /\ 2 * Z.abs (n * 2 ^ k - M) <= 2 ^ k.
Proof.
  intros Hk (Hm & t & Ht & HM & Hs) n.
  split; [apply round_nearest_even_bounds|].
  assert (0 < 2 ^ k) as Hp by (apply Z.pow_pos_nonneg; lia).
  unfold n. destruct mrs as [m r s]. simpl in Hm, HM, Hs |- *.
  destruct r, s; simpl in HM |- *.
  - assert (t <> 0) by (intros ->; by destruct Hs as [_ Hs]; specialize (Hs eq_refl)). nia.
  - assert (t = 0) by by apply Hs. destruct (Z.even m); nia.
  - nia.
  - assert (t = 0) by by apply Hs. nia.
Qed.

Section Nearest.
Variables prec emax : Z.
Hypothesis prec_pos : 0 < prec.

Abbreviation fexp := (fexp prec emax).

(** The float of the rounded integer [n] at exponent [fe], overflow
    included. *)
Definition mkfloat_ov (s : bool) (n fe : Z) : spec_float :=
  if n =? 0 then S754_zero s
  else if n <? 2 ^ prec
       then (if fe <=? emax - prec then S754_finite s (Z.to_pos n) fe else S754_infinity s)
       else (if fe + 1 <=? emax - prec
             then S754_finite s (Z.to_pos (2 ^ (prec - 1))) (fe + 1)
             else S754_infinity s).

Lemma shr_fexp_nearest m e :
  0 <= m -> e < fexp (Zdigits2 m + e) ->
  let fe := fexp (Zdigits2 m + e) in
  let mrs := fst (shr_fexp prec emax m e loc_Exact) in
  let n := round_nearest_even (shr_m mrs) (loc_of_shr_record mrs) in
  snd (shr_fexp prec emax m e loc_Exact) = fe /\
  shr_m mrs = m / 2 ^ (fe - e) /\
  shr_m mrs <= n <= shr_m mrs + 1 /\
  2 * Z.abs (n * 2 ^ (fe - e) - m) <= 2 ^ (fe - e).
Proof.
  intros Hm H fe mrs n.
  destruct (shr_fexp_shift prec emax m e loc_Exact Hm H) as [H1 H2].
  split; [done|]. split; [done|].
  assert (shifted m (fe - e) mrs) as Hsh.
  { unfold mrs, shr_fexp, shr. fold fe.
    destruct (fe - e) as [|p|p] eqn:E; try (unfold fe in E; lia).
    cbn [fst shr_record_of_loc].
    replace (Z.pos p) with (0 + Z.pos p) by lia.
    apply iter_pos_shifted; [lia|]. by apply shifted_start. }
  apply (round_nearest_even_shifted m (fe - e) mrs); [unfold fe; lia|done].
Qed.

(** Rounding [mz * 2^ez] when [ez] is at most the target exponent: the
    rounded integer is within half a unit. *)
Lemma binary_round_aux_nearest s mz ez :
  let fe := fexp (Z.pos (digits2_pos mz) + ez) in
  ez <= fe ->
  exists n,
    0 <= n <= 2 ^ prec /\
    2 * Z.abs (n * 2 ^ (fe - ez) - Z.pos mz) <= 2 ^ (fe - ez) /\
    binary_round_aux prec emax s (Z.pos mz) ez loc_Exact = mkfloat_ov s n fe.
Proof.
  intros fe Hle. unfold binary_round_aux.
  pose proof (digits2_bounds mz) as [Hd1 Hd2].
  set (d := Z.pos (digits2_pos mz)) in *.
  assert (0 < d) as Hd by (unfold d; lia).
  pose proof (fexp_ge prec emax (d + ez)) as Hfe1.
  pose proof (fexp_ge_emin prec emax (d + ez)) as Hfe2.
  fold fe in Hfe1, Hfe2.
  assert (exists mrs',
            shr_fexp prec emax (Z.pos mz) ez loc_Exact = (mrs', fe) /\
            shr_m mrs' = Z.pos mz / 2 ^ (fe - ez) /\
            2 * Z.abs (round_nearest_even (shr_m mrs') (loc_of_shr_record mrs')
                       * 2 ^ (fe - ez) - Z.pos mz) <= 2 ^ (fe - ez))
    as (mrs' & E1 & Hm1 & Hnear).
  { destruct (Z.eq_dec ez fe) as [Heq|Hne].
    - eexists. rewrite shr_fexp_noshift by (simpl Zdigits2; fold d; fold fe; lia).
      split; [by rewrite Heq|]. simpl. rewrite Heq, Z.sub_diag, Z.div_1_r.
      split; [done|]. simpl. lia.
    - destruct (shr_fexp_nearest (Z.pos mz) ez ltac:(lia)) as (H1 & H2 & _ & H4).
      { simpl Zdigits2. fold d. fold fe. lia. }
      simpl Zdigits2 in H1, H2, H4. fold d in H1, H2, H4. fold fe in H1, H2, H4.
      destruct (shr_fexp prec emax (Z.pos mz) ez loc_Exact) as [mrs' e'].
      simpl in H1, H2, H4. subst e'. exists mrs'. split; [done|]. split; done. }
  rewrite E1.
  set (m1 := shr_m mrs') in *.
  set (n := round_nearest_even m1 (loc_of_shr_record mrs')) in *.
  assert (0 <= m1) as Hm1pos by (rewrite Hm1; apply Z.div_pos; lia).
  assert (m1 < 2 ^ prec) as Hm1lt.
  { rewrite Hm1. apply div_pow2_lt; try lia.
    eapply Z.lt_le_trans; [exact Hd2|]. apply Z.pow_le_mono_r; lia. }
  pose proof (round_nearest_even_bounds m1 (loc_of_shr_record mrs')) as Hn. fold n in Hn.
  exists n. split; [lia|]. split; [done|].
  unfold mkfloat_ov.
  destruct (Z.eqb_spec n 0) as [Hn0|Hn0].
  + rewrite Hn0. rewrite shr_fexp_noshift; [done|]. rewrite fexp_spec. simpl Zdigits2.
    pose proof (fexp_ge_emin prec emax (0 + fe)). unfold SpecFloat.fexp, emin in *. lia.
  + destruct (Z.ltb_spec n (2 ^ prec)) as [Hlt|Hge].
    * assert (Zdigits2 n <= prec) as Hdn.
      { pose proof (Zdigits2_bounds n ltac:(lia)) as [Hb _].
        destruct (Z_lt_le_dec prec (Zdigits2 n)); [|lia].
        assert (2 ^ prec <= 2 ^ (Zdigits2 n - 1)) by (apply Z.pow_le_mono_r; lia). lia. }
      rewrite shr_fexp_noshift by (rewrite fexp_spec; lia).
      simpl. destruct n as [|pn|pn]; try lia. done.
    * assert (n = 2 ^ prec) as Hn2 by lia.
      assert (Zdigits2 n = prec + 1) as Hdn.
      { apply Zdigits2_unique; [lia|]. rewrite Hn2.
        replace (prec + 1 - 1) with prec by lia. split; [lia|].
        apply Z.pow_lt_mono_r; lia. }
      destruct (shr_fexp_shift prec emax n fe loc_Exact ltac:(lia)) as [H1 H2].
      { rewrite Hdn, fexp_spec. lia. }
      rewrite Hdn in H1, H2.
      assert (fexp (prec + 1 + fe) = fe + 1) as Hfe' by (rewrite fexp_spec; lia).
      rewrite Hfe' in H1, H2.
      destruct (shr_fexp prec emax n fe loc_Exact) as [mrs'' e''].
      simpl in H1, H2. subst e''. rewrite H2.
      replace (fe + 1 - fe) with 1 by lia. rewrite Hn2.
      replace prec with (prec - 1 + 1) at 1 by lia.
      rewrite Z.pow_add_r by lia. change (2 ^ 1) with 2. rewrite Z.div_mul by lia.
      assert (0 < 2 ^ (prec - 1)) by (apply Z.pow_pos_nonneg; lia).
      destruct (2 ^ (prec - 1)) as [|pp|pp] eqn:Epp; try lia.
      done.
Qed.

Lemma binary_round_nearest s mx ex :
  let fe := fexp (Z.pos (digits2_pos mx) + ex) in
  exists n,
    0 <= n <= 2 ^ prec /\
    (fe <= ex -> n = Z.pos mx * 2 ^ (ex - fe)) /\
    (ex < fe -> 2 * Z.abs (n * 2 ^ (fe - ex) - Z.pos mx) <= 2 ^ (fe - ex)) /\
    binary_round prec emax s mx ex = mkfloat_ov s n fe.
Proof.
  intros fe. unfold binary_round. fold fe.
  pose proof (shl_align_spec mx ex fe) as [Hez Hmz].
  destruct (shl_align mx ex fe) as [mz ez]. simpl in Hez, Hmz.
  assert (Z.pos (digits2_pos mz) + ez = Z.pos (digits2_pos mx) + ex) as Hdig.
  { change (Z.pos (digits2_pos mz)) with (Zdigits2 (Z.pos mz)).
    rewrite Hmz, Zdigits2_shift by lia. simpl. lia. }
  destruct (binary_round_aux_nearest s mz ez) as (n & Hn & Hnear & Hres).
  { rewrite Hdig. fold fe. lia. }
  rewrite Hdig in Hnear, Hres. fold fe in Hnear, Hres.
  exists n. split; [done|]. split; [|split; [|done]].
  - intros Hle. assert (ez = fe) as Heq by lia.
    rewrite Heq, Z.sub_diag in Hnear. simpl in Hnear.
    replace (Z.min ex fe) with fe in Hmz by lia. lia.
  - intros Hlt. assert (ez = ex) as -> by lia.
    assert (mz = mx) as ->.
    { replace (ex - Z.min ex fe) with 0 in Hmz by lia. simpl in Hmz. lia. }
    done.
Qed.

End Nearest.

Lemma mkfloat_ov_finite prec emax s n fe :
  n = 0 \/ (n < 2 ^ prec /\ fe <= emax - prec) \/ fe + 1 <= emax - prec ->
  mkfloat_ov prec emax s n fe = mkfloat prec s n fe.
Proof.
  intros H. unfold mkfloat_ov, mkfloat.
  destruct (Z.eqb_spec n 0); [done|].
  destruct (Z.ltb_spec n (2 ^ prec)).
  - destruct (Z.leb_spec fe (emax - prec)); [done|lia].
  - destruct (Z.leb_spec (fe + 1) (emax - prec)); [done|lia].
Qed.

Lemma mkfloat_ov_infinite prec emax s n fe :
  n <> 0 -> 2 ^ prec <= n \/ emax - prec < fe -> emax - prec <= fe ->
  mkfloat_ov prec emax s n fe = S754_infinity s.
Proof.
  intros Hn H1 H2. unfold mkfloat_ov.
  destruct (Z.eqb_spec n 0); [done|].
  destruct (Z.ltb_spec n (2 ^ prec)).
  - destruct (Z.leb_spec fe (emax - prec)); [lia|done].
  - destruct (Z.leb_spec (fe + 1) (emax - prec)); [lia|done].
Qed.

(** [Math.fround] of a finite number: the rounded integer [n] is within half
    a unit of the float32 grid; the result is finite unless the rounding
    reaches 2^128. *)
Lemma fround_nearest s m e :
  -1074 <= e ->
  let fe := SpecFloat.fexp 24 128 (Z.pos (digits2_pos m) + e) in
  exists n,
    0 <= n <= 2 ^ 24 /\
    2 * Z.abs (n * 2 ^ (fe + 1074) - Z.pos m * 2 ^ (e + 1074)) <= 2 ^ (fe + 1074) /\
    (n = 0 \/ (n < 2 ^ 24 /\ fe <= 104) \/ fe <= 103 ->
       scaled (JS.fround (S754_finite s m e)) = cond_Zopp s n * 2 ^ (fe + 1074) /\
       ((n = 0 /\ JS.fround (S754_finite s m e) = S754_zero s) \/
        (0 < n /\ exists m2 e2,
           JS.fround (S754_finite s m e) = S754_finite s m2 e2 /\
           -1074 <= e2 /\ fe - 52 <= e2 <= fe + 1))) /\
    (n <> 0 -> 2 ^ 24 <= n \/ 104 < fe -> 104 <= fe ->
       JS.fround (S754_finite s m e) = S754_infinity s).
Proof.
  intros He1 fe.
  assert (-149 <= fe) as Hfe1 by (unfold fe, SpecFloat.fexp, emin; lia).
  destruct (binary_round_nearest 24 128 ltac:(lia) s m e) as (n & Hn & Hex & Hrd & Hres).
  fold fe in Hex, Hrd, Hres.
  assert (0 < 2 ^ (e + 1074)) by (apply Z.pow_pos_nonneg; lia).
  exists n. split; [done|]. split; [|split].
  - destruct (Z_le_gt_dec fe e) as [Hle|Hgt].
    + rewrite (Hex Hle). rewrite <- Z.mul_assoc, <- Z.pow_add_r by lia.
      replace (e - fe + (fe + 1074)) with (e + 1074) by lia.
      rewrite Z.sub_diag. simpl. apply Z.pow_nonneg. lia.
    + specialize (Hrd ltac:(lia)).
      replace (fe + 1074) with ((fe - e) + (e + 1074)) by lia.
      rewrite Z.pow_add_r by lia.
      set (P := 2 ^ (fe - e)) in *. set (S := 2 ^ (e + 1074)) in *.
      replace (n * (P * S) - Z.pos m * S) with ((n * P - Z.pos m) * S) by ring.
      rewrite Z.abs_mul, (Z.abs_eq S) by lia. nia.
  - intros HF. unfold JS.fround, JS.prec32, JS.emax32. rewrite Hres.
    rewrite mkfloat_ov_finite by lia.
    pose proof (scaled_mkfloat 24 s n fe ltac:(lia) Hn ltac:(lia)) as Hsc.
    destruct (mkfloat_cases 24 s n fe ltac:(lia) Hn)
      as [[Hn0 Hz]|(Hpos & m1 & e1 & Hf & He1' & Hm1 & Hm1lt)].
    + rewrite Hz in *. split; [done|]. by left.
    + rewrite Hf in *.
      assert (Z.pos (digits2_pos m1) <= 53) as Hd1.
      { pose proof (digits2_bounds m1) as [Hb _].
        destruct (Z_lt_le_dec 53 (Z.pos (digits2_pos m1))); [|lia].
        assert (2 ^ 53 <= 2 ^ (Z.pos (digits2_pos m1) - 1)) by (apply Z.pow_le_mono_r; lia).
        assert (2 ^ 24 < 2 ^ 53) by (apply Z.pow_lt_mono_r; lia). lia. }
      destruct (mk64_exact s m1 e1 Hd1 ltac:(lia) ltac:(lia))
        as (m2 & e2 & Hmk & He2' & He2'' & Hsc2 & _).
      rewrite Hmk. split; [by rewrite Hsc2|]. right. split; [done|].
      exists m2, e2. split; [done|]. split; lia.
  - intros Hn0 Hov Hfe. unfold JS.fround, JS.prec32, JS.emax32. rewrite Hres.
    rewrite mkfloat_ov_infinite; [done|done|lia|lia].
Qed.

(** The bounds of the range on which the pair is always within 1e-5, scaled
    by 2^1074: 50000 * 2^-149 and (2^25 - 1) * 2^103. *)
Definition low_scaled : Z := 50000 * 2 ^ 925.
Definition top_scaled : Z := (2 ^ 25 - 1) * 2 ^ 1177.

Lemma scaled_abs s m e :
  -1074 <= e -> Z.abs (scaled (S754_finite s m e)) = Z.pos m * 2 ^ (e + 1074).
Proof.
  intros He. assert (0 < 2 ^ (e + 1074)) by (apply Z.pow_pos_nonneg; lia).
  cbn [scaled]. rewrite Z.abs_mul, cond_Zopp_abs. lia.
Qed.

Lemma scaled_sign s m e :
  scaled (S754_finite s m e) = cond_Zopp s (Z.pos m * 2 ^ (e + 1074)).
Proof. cbn [scaled]. by rewrite cond_Zopp_mul. Qed.

Lemma split_finite s m e :
  -1074 <= e -> Z.pos (digits2_pos m) <= 53 ->
  let x := S754_finite s m e in
  let hi := JS.fround x in
  let lo := JS.fround (JS.sub x hi) in
  (Z.abs (scaled x) < top_scaled -> JS.isFinite hi = true) /\
  (JS.isFinite hi = true ->
     JS.isFinite lo = true /\
     Z.abs (scaled hi + scaled lo - scaled x) <= Z.abs (scaled hi - scaled x) /\
     (Z.abs (scaled x) < low_scaled ->
        Z.abs (scaled hi - scaled x) <= Z.abs (scaled hi + scaled lo - scaled x)) /\
     (low_scaled <= Z.abs (scaled x) ->
        100000 * Z.abs (scaled hi - scaled x) <= Z.abs (scaled x))).
Proof.
  intros He1 Hd. cbv zeta.
  destruct (fround_nearest s m e He1) as (n & Hn & Hhalf & Hfin & Hinf).
  set (x := S754_finite s m e) in *.
  set (d := Z.pos (digits2_pos m)) in *.
  set (fe := SpecFloat.fexp 24 128 (d + e)) in *.
  assert (fe = Z.max (d + e - 24) (-149)) as Hfe by reflexivity.
  assert (0 < d) as Hdpos by (unfold d; lia).
  pose proof (scaled_digits s m e He1) as HXlow. fold d in HXlow. fold x in HXlow.
  pose proof (digits2_bounds m) as [_ HXup]. fold d in HXup.
  assert (0 < 2 ^ (e + 1074)) as HpE by (apply Z.pow_pos_nonneg; lia).
  pose proof (scaled_abs s m e He1) as HXabs. fold x in HXabs.
  pose proof (scaled_sign s m e) as HXsc. fold x in HXsc.
  set (X := Z.pos m * 2 ^ (e + 1074)) in *.
  rewrite HXabs in HXlow.
  set (U := 2 ^ (fe + 1074)) in *.
  assert (0 < U) as HU by (apply Z.pow_pos_nonneg; lia).
  assert (0 < X) as HX by (unfold X; lia).
  assert (X < 2 ^ (d + (e + 1074))) as HXup'.
  { rewrite Z.pow_add_r by lia. unfold X. nia. }
  (* the grid below 2^-126, and above *)
  assert (fe = -149 /\ U = 2 ^ 925 \/ -149 < fe /\ 2 ^ 23 * U <= X) as Hgrid.
  { destruct (Z_le_gt_dec (d + e - 24) (-149)) as [Hs|Hs].
    - left. split; [lia|]. unfold U. f_equal. lia.
    - right. split; [lia|]. unfold U. rewrite <- Z.pow_add_r by lia.
      eapply Z.le_trans; [|exact HXlow]. apply Z.pow_le_mono_r; lia. }
  assert (X < low_scaled -> fe = -149 /\ U = 2 ^ 925) as Hsmall.
  { intros Hlt. destruct Hgrid as [Hg|[Hg1 Hg2]]; [done|]. exfalso.
    assert (2 ^ 925 <= U) by (apply Z.pow_le_mono_r; lia).
    unfold low_scaled in Hlt. change (2 ^ 23) with 8388608 in Hg2. lia. }
  assert (JS.isFinite (JS.fround x) = true ->
          n = 0 \/ (n < 2 ^ 24 /\ fe <= 104) \/ fe <= 103) as Hfinite.
  { intros Hf. destruct (Z.eq_dec n 0); [by left|]. right.
    destruct (Z_le_gt_dec fe 103); [by right|]. left.
    destruct (Z_lt_le_dec n (2 ^ 24)).
    - destruct (Z_le_gt_dec fe 104); [lia|].
      rewrite Hinf in Hf; [done|done|right; lia|lia].
    - rewrite Hinf in Hf; [done|done|left; lia|lia]. }
  split.
  - (* no overflow below the top *)
    intros Htop. rewrite HXabs in Htop.
    assert (n = 0 \/ (n < 2 ^ 24 /\ fe <= 104) \/ fe <= 103) as HF.
    { destruct (Z.eq_dec n 0); [by left|]. right.
      destruct (Z_le_gt_dec fe 103); [by right|]. left.
      destruct (Z_le_gt_dec fe 104).
      - destruct (Z_lt_le_dec n (2 ^ 24)); [lia|]. exfalso.
        assert (fe = 104) as Hfe104 by lia.
        assert (U = 2 * 2 ^ 1177) as HU2.
        { unfold U. rewrite Hfe104. change (104 + 1074) with (1 + 1177).
          rewrite Z.pow_add_r by lia. done. }
        assert (n = 2 ^ 24) as Hn24 by lia.
        unfold top_scaled in Htop. rewrite Hn24, HU2 in Hhalf.
        change (2 ^ 25) with 33554432 in Htop. change (2 ^ 24) with 16777216 in Hhalf.
        set (W := 2 ^ 1177) in *. lia.
      - exfalso.
        assert (2 ^ (128 + 1074) <= 2 ^ (d - 1 + (e + 1074))) as Hp
          by (apply Z.pow_le_mono_r; lia).
        unfold top_scaled in Htop. change (128 + 1074) with (25 + 1177) in Hp.
        rewrite Z.pow_add_r in Hp by lia.
        change (2 ^ 25) with 33554432 in Htop, Hp.
        set (W := 2 ^ 1177) in *. lia. }
    destruct (Hfin HF) as [_ [[_ ->]|(_ & m2 & e2 & -> & _)]]; done.
  - intros Hf. destruct (Hfin (Hfinite Hf)) as [Hsc Hcase].
    assert (Z.abs (scaled (JS.fround x) - scaled x) = Z.abs (n * U - X)) as Hdiff.
    { rewrite Hsc, HXsc. clear. destruct s; simpl; lia. }
    assert (low_scaled <= Z.abs (scaled x) ->
            100000 * Z.abs (scaled (JS.fround x) - scaled x) <= Z.abs (scaled x)) as Hiii.
    { intros Hlow. rewrite Hdiff, HXabs. rewrite HXabs in Hlow. fold X in Hlow.
      destruct Hgrid as [[_ HU2]|[_ Hg]].
      - unfold low_scaled in Hlow. rewrite HU2 in *. set (W := 2 ^ 925) in *. lia.
      - change (2 ^ 23) with 8388608 in Hg. lia. }
    destruct Hcase as [[Hn0 Hz]|(Hnpos & m2 & e2 & Hhi & He2a & He2b)].
    + (* the high part is zero *)
      rewrite Hz in *. change (JS.sub x (S754_zero s)) with x. rewrite Hz.
      change (scaled (S754_zero s)) with 0 in *.
      replace (0 + 0 - scaled x) with (0 - scaled x) by ring.
      split; [done|]. split; [done|]. split; [done|done].
    + rewrite Hhi in *.
      assert (-149 <= fe) as Hfelo by (clear - Hfe; lia).
      assert (fe <= 104) as Hfe104
        by (destruct (Hfinite Hf) as [Hc|[[_ Hc]|Hc]]; clear - Hc Hnpos; lia).
      assert (e <= 900) as He2 by (clear - Hfe Hfe104 Hdpos; lia).
      assert (Z.abs (n * U - X) <= X) as Hle by (clear - Hhalf Hnpos HU HX; nia).
      destruct (SFsub_exact s m e s m2 e2 He1 He2a He2 ltac:(clear - He2b Hfe104; lia))
        as [Hsub Hlo0].
      { fold x. rewrite <- Z.abs_opp.
        replace (- (scaled x - scaled (S754_finite s m2 e2)))
          with (scaled (S754_finite s m2 e2) - scaled x) by ring.
        rewrite Hdiff.
        assert (2 * U <= 2 ^ (53 + (e2 + 1074))) as H1.
        { unfold U. replace (2 * 2 ^ (fe + 1074)) with (2 ^ (fe + 1074 + 1))
            by (rewrite Z.pow_add_r by (clear - Hfelo; lia); clear; lia).
          apply Z.pow_le_mono_r; clear - He2b Hfelo; lia. }
        assert (2 ^ (d + (e + 1074)) <= 2 ^ (53 + (e + 1074))) as H2
          by (apply Z.pow_le_mono_r; clear - Hd He1 Hdpos; lia).
        destruct (Z.min_spec e e2) as [[_ ->]|[_ ->]]; clear - H1 H2 Hle HXup' HU Hhalf; lia. }
      fold x in Hsub, Hlo0.
      destruct Hlo0 as [Hz|(s' & m' & e' & Hdl & He')].
      * rewrite Hz in *. cbn [JS.fround].
        change (scaled (S754_zero false)) with 0 in *.
        replace (scaled (S754_finite s m2 e2) + 0 - scaled x)
          with (scaled (S754_finite s m2 e2) - scaled x) by ring.
        split; [done|]. split; [done|]. split; [done|done].
      * rewrite Hdl in *.
        assert (-1074 <= e') as He'lo by (clear - He'; lia).
        destruct (fround_nearest s' m' e' He'lo) as (n' & Hn' & Hhalf' & Hfin' & _).
        set (d' := Z.pos (digits2_pos m')) in *.
        set (fe' := SpecFloat.fexp 24 128 (d' + e')) in *.
        assert (0 < d') as Hd'pos by (clear; unfold d'; lia).
        assert (-149 <= fe') as Hfe'lo by (clear; unfold fe', SpecFloat.fexp, emin; lia).
        assert (fe' <= Z.max (d' + e' - 24) (-149)) as Hfe'
          by (clear; unfold fe', SpecFloat.fexp, emin; lia).
        pose proof (scaled_digits s' m' e' He'lo) as HX'low. fold d' in HX'low.
        pose proof (scaled_abs s' m' e' He'lo) as HX'abs.
        pose proof (scaled_sign s' m' e') as HX'sc.
        rewrite HX'abs in HX'low.
        set (X' := Z.pos m' * 2 ^ (e' + 1074)) in *.
        set (U' := 2 ^ (fe' + 1074)) in *.
        assert (0 < U') as HU' by (apply Z.pow_pos_nonneg; clear - Hfe'lo; lia).
        assert (X' = Z.abs (n * U - X)) as HX'.
        { rewrite <- HX'abs, Hsub, <- Hdiff, <- Z.abs_opp. f_equal. ring. }
        assert (d' + e' <= fe) as Hd'.
        { assert (2 ^ (d' + (e' + 1074)) <= 2 ^ (fe + 1074)) as Hp.
          { replace (d' + (e' + 1074)) with (d' - 1 + (e' + 1074) + 1)
              by (clear; lia).
            rewrite Z.pow_add_r by (clear - He'lo Hd'pos; lia).
            fold U. change (2 ^ 1) with 2. clear - HX'low HX' Hhalf. lia. }
          apply Z.pow_le_mono_r_iff in Hp; clear - Hp Hfelo; lia. }
        destruct (Hfin' ltac:(clear - Hfe' Hd' Hfe104; lia)) as [Hsc' Hcase'].
        assert (Z.abs (scaled (S754_finite s m2 e2)
                       + scaled (JS.fround (S754_finite s' m' e')) - scaled x)
                = Z.abs (n' * U' - X')) as Herr.
        { replace (scaled (S754_finite s m2 e2)
                   + scaled (JS.fround (S754_finite s' m' e')) - scaled x)
            with (scaled (JS.fround (S754_finite s' m' e')) - scaled (S754_finite s' m' e'))
            by (rewrite Hsub; ring).
          rewrite Hsc', HX'sc. clear. destruct s'; simpl; lia. }
        rewrite Herr, Hdiff, <- HX'.
        assert (0 < X') as HXp' by (clear - HpE HX'low He'lo; unfold X'; lia).
        split.
        { destruct Hcase' as [[_ ->]|(_ & m3 & e3 & -> & _)]; done. }
        split; [|split].
        3: { intros Hlow. specialize (Hiii Hlow). rewrite Hdiff, <- HX' in Hiii. exact Hiii. }
        -- clear - Hhalf' Hn' HU' HXp'.
           destruct (Z.eq_dec n' 0) as [->|]; [lia|]. nia.
        -- intros Hlt. rewrite HXabs in Hlt. destruct (Hsmall Hlt) as [Hfe149 HU2].
           assert (U <= U') as HUU by (apply Z.pow_le_mono_r; clear - Hfe149 Hfe'lo; lia).
           assert (2 * X' <= U) as HXU by (clear - HX' Hhalf; lia).
           clear - Hhalf' Hn' HU' HXp' HUU HXU.
           destruct (Z.eq_dec n' 0) as [->|]; [lia|]. nia.
Qed.

(** The range on which the pair is within 1e-5 whatever the number: zero,
    or 50000 * 2^-149 <= |x| < (2^25 - 1) * 2^103. *)
Definition pair_range (x : spec_float) : bool :=
  match x with
  | S754_zero _ => true
  | S754_finite _ _ _ =>
      (low_scaled <=? Z.abs (scaled x)) && (Z.abs (scaled x) <? top_scaled)
  | _ => false
  end.

Lemma valid_binary64_finite s m e :
  valid_binary 53 1024 (S754_finite s m e) = true ->
  -1074 <= e /\ Z.pos (digits2_pos m) <= 53.
Proof.
  cbn [valid_binary]. unfold bounded, canonical_mantissa. intros H.
  apply andb_prop in H as [H _]. apply Z.eqb_eq in H.
  unfold SpecFloat.fexp, emin in H. lia.
Qed.

(** The high and low parts of a binary64 number [x].  On [pair_range] the
    high part is finite and within 1e-5 of [x]; and the two parts together are
    within 1e-5 of [x] exactly when the high part alone is. *)
Lemma split_pair x :
  valid_binary 53 1024 x = true ->
  let hi := JS.fround x in
  let lo := JS.fround (JS.sub x hi) in
  (pair_range x = true ->
     JS.isFinite hi = true /\ 100000 * Z.abs (scaled hi - scaled x) <= Z.abs (scaled x)) /\
  (JS.isFinite hi = true /\ JS.isFinite lo = true /\
   100000 * Z.abs (scaled hi + scaled lo - scaled x) <= Z.abs (scaled x)
   <-> JS.isFinite hi = true /\
       100000 * Z.abs (scaled hi - scaled x) <= Z.abs (scaled x)).
Proof.
  intros Hv. cbv zeta. destruct x as [s|s| |s m e].
  - cbn [JS.fround]. split; [done|].
    assert (JS.fround (JS.sub (S754_zero s) (S754_zero s)) = S754_zero false) as ->
      by (by destruct s).
    done.
  - cbn [JS.fround JS.isFinite pair_range]. split; [done|]. split; intros [? _]; done.
  - cbn [JS.fround JS.isFinite pair_range]. split; [done|]. split; intros [? _]; done.
  - destruct (valid_binary64_finite s m e Hv) as [He Hd].
    destruct (split_finite s m e He Hd) as [Htop Hparts]. cbv zeta in Htop, Hparts.
    set (x := S754_finite s m e) in *.
    split.
    + intros Hr. unfold pair_range, x in Hr. fold x in Hr.
      apply andb_prop in Hr as [Hlow Hup]. apply Z.leb_le in Hlow. apply Z.ltb_lt in Hup.
      specialize (Htop Hup). split; [done|].
      destruct (Hparts Htop) as (_ & _ & _ & H). by apply H.
    + split.
      * intros (Hf & _ & Hb). split; [done|].
        destruct (Hparts Hf) as (_ & _ & Hsmall & Hlarge).
        destruct (Z_lt_le_dec (Z.abs (scaled x)) low_scaled) as [Hlt|Hge].
        -- specialize (Hsmall Hlt). clear - Hsmall Hb. lia.
        -- by apply Hlarge.
      * intros (Hf & Hb). destruct (Hparts Hf) as (Hl & Hle & _).
        split; [done|]. split; [done|]. clear - Hle Hb. lia.
Qed.

Lemma relative_error_Q_iff (a b c : Z) (D : positive) :
  (Qabs (Qmake a D + Qmake b D - Qmake c D) <= (1 # 100000) * Qabs (Qmake c D))%Q
  <-> 100000 * Z.abs (a + b - c) <= Z.abs c.
Proof.
  split; [|apply relative_error_Q].
  intros H. destruct (Z_le_gt_dec (100000 * Z.abs (a + b - c)) (Z.abs c)) as [|Hgt]; [done|].
  exfalso. apply (Qlt_not_le _ _ (relative_error_Q_lt a b c D ltac:(lia))). exact H.
Qed.

Lemma relative_error_Q1_iff (a c : Z) (D : positive) :
  (Qabs (Qmake a D - Qmake c D) <= (1 # 100000) * Qabs (Qmake c D))%Q
  <-> 100000 * Z.abs (a - c) <= Z.abs c.
Proof.
  cbv [Qle Qabs Qplus Qminus Qopp Qmult Qnum Qden]. rewrite !Pos2Z.inj_mul.
  replace (a * Z.pos D + - c * Z.pos D) with ((a - c) * Z.pos D) by ring.
  rewrite Z.abs_mul, (Z.abs_eq (Z.pos D)) by lia.
  assert (0 < Z.pos D * Z.pos D) by lia.
  split; intros; nia.
Qed.

(** The same in rationals. *)
Lemma split_pair_Q x :
  valid_binary 53 1024 x = true ->
  let hi := JS.fround x in
  let lo := JS.fround (JS.sub x hi) in
  (pair_range x = true ->
     JS.isFinite hi = true /\ JS.isFinite lo = true /\
     (Qabs (valueQ hi + valueQ lo - valueQ x) <= (1 # 100000) * Qabs (valueQ x))%Q) /\
  (JS.isFinite hi = true /\ JS.isFinite lo = true /\
   (Qabs (valueQ hi + valueQ lo - valueQ x) <= (1 # 100000) * Qabs (valueQ x))%Q
   <-> JS.isFinite hi = true /\
       (Qabs (valueQ hi - valueQ x) <= (1 # 100000) * Qabs (valueQ x))%Q).
Proof.
  intros Hv. cbv zeta. destruct (split_pair x Hv) as [Hrange Hiff]. cbv zeta in Hrange, Hiff.
  unfold valueQ. rewrite relative_error_Q_iff, relative_error_Q1_iff.
  split; [|exact Hiff].
  intros Hr. apply Hiff. by apply Hrange.
Qed.

(** From the upper end of the range on, the high part is infinite. *)
Lemma fround_overflows x :
  valid_binary 53 1024 x = true -> top_scaled <= Z.abs (scaled x) ->
  JS.isFinite (JS.fround x) = false.
Proof.
  intros Hv Htop. destruct x as [s|s| |s m e]; try done.
  destruct (valid_binary64_finite s m e Hv) as [He Hd].
  destruct (fround_nearest s m e He) as (n & Hn & Hhalf & _ & Hinf).
  rewrite scaled_abs in Htop by done.
  pose proof (scaled_digits s m e He) as HXlow. rewrite scaled_abs in HXlow by done.
  pose proof (digits2_bounds m) as [_ HXup].
  set (d := Z.pos (digits2_pos m)) in *.
  set (fe := SpecFloat.fexp 24 128 (d + e)) in *.
  assert (fe = Z.max (d + e - 24) (-149)) as Hfe by reflexivity.
  assert (0 < d) as Hdpos by (unfold d; lia).
  assert (0 < 2 ^ (e + 1074)) as HpE by (apply Z.pow_pos_nonneg; lia).
  set (X := Z.pos m * 2 ^ (e + 1074)) in *.
  set (U := 2 ^ (fe + 1074)) in *.
  assert (0 < 2 ^ 1177) as HW by (apply Z.pow_pos_nonneg; lia).
  assert (X < 2 ^ (d + (e + 1074))) as HXup'.
  { rewrite Z.pow_add_r by lia. unfold X. nia. }
  assert (128 <= d + e) as Hde.
  { destruct (Z_lt_le_dec (d + e) 128) as [Hlt|]; [|done]. exfalso.
    assert (2 ^ (d + (e + 1074)) <= 2 ^ (24 + 1177)) as Hp
      by (apply Z.pow_le_mono_r; lia).
    rewrite (Z.pow_add_r 2 24 1177) in Hp by lia. unfold top_scaled in Htop.
    change (2 ^ 25) with 33554432 in Htop. change (2 ^ 24) with 16777216 in Hp.
    set (W := 2 ^ 1177) in *. lia. }
  assert (2 ^ 23 * U <= X) as HXU.
  { unfold U. rewrite <- Z.pow_add_r by lia.
    eapply Z.le_trans; [|exact HXlow]. apply Z.pow_le_mono_r; lia. }
  assert (0 < U) as HU by (apply Z.pow_pos_nonneg; lia).
  assert (n <> 0) as Hn0.
  { intros ->. change (2 ^ 23) with 8388608 in HXU. lia. }
  destruct (Z_lt_le_dec 128 (d + e)) as [Hbig|Hle].
  - rewrite Hinf; [done|done|right; lia|lia].
  - assert (fe = 104) as Hfe104 by lia.
    assert (U = 2 * 2 ^ 1177) as HU2.
    { unfold U. rewrite Hfe104. change (104 + 1074) with (1 + 1177).
      rewrite Z.pow_add_r by lia. done. }
    destruct (Z_lt_le_dec n (2 ^ 24)) as [Hlt|Hge];
      [|rewrite Hinf; [done|done|left; lia|lia]].
    (* the tie: x is (2^25 - 1) * 2^103 itself *)
    assert (X = top_scaled) as HX.
    { unfold top_scaled in *. rewrite HU2 in Hhalf.
      change (2 ^ 25) with 33554432 in *. change (2 ^ 24) with 16777216 in *.
      set (W := 2 ^ 1177) in *. nia. }
    assert (e = 75) as ->.
    { cbn [valid_binary] in Hv. unfold bounded, canonical_mantissa in Hv.
      apply andb_prop in Hv as [Hc _]. apply Z.eqb_eq in Hc. fold d in Hc.
      unfold SpecFloat.fexp, emin in Hc. lia. }
    assert (Z.pos m = 9007198986305536) as Hm.
    { unfold X, top_scaled in HX. change (75 + 1074) with 1149 in HX.
      change 1177 with (28 + 1149) in HX.
      rewrite !(Z.pow_add_r 2 28 1149) in HX by lia.
      assert (0 < 2 ^ 1149) by (apply Z.pow_pos_nonneg; lia).
      change (2 ^ 25) with 33554432 in HX. change (2 ^ 28) with 268435456 in HX.
      set (W := 2 ^ 1149) in *. nia. }
    injection Hm as ->. by destruct s.
Qed.

(** Outside the range the bound can fail: at 99999 * 2^-150, half a float32
    step below the lower end, the pair is not within 1e-5; and at
    (2^25 - 1) * 2^103, the upper end, the high part is infinite. *)
Lemma pair_fails_below_range :
  let x := JS.mk64 false 99999 (-150) in
  valid_binary 53 1024 x = true /\
  scaled x = low_scaled - 2 ^ 924 /\
  JS.isFinite (JS.fround x) = true /\
  ((1 # 100000) * Qabs (valueQ x)
   < Qabs (valueQ (JS.fround x) + valueQ (JS.fround (JS.sub x (JS.fround x))) - valueQ x))%Q.
Proof.
  cbv zeta. split; [vm_compute; reflexivity|]. split; [vm_compute; reflexivity|].
  split; [vm_compute; reflexivity|].
  apply relative_error_Q_lt. vm_compute. reflexivity.
Qed.

Lemma pair_fails_at_top :
  let x := JS.mk64 false 33554431 103 in
  valid_binary 53 1024 x = true /\
  scaled x = top_scaled /\
  JS.fround x = S754_infinity false.
Proof. cbv zeta. split; [vm_compute; reflexivity|]. split; vm_compute; reflexivity. Qed.

End Float32.

(** ** Concrete instances *)

(** The tesselator of the set of one triangle, and the world after its
    construction from the initial world. *)
Definition exampleTesselator : PolygonTesselator :=
  mkTesselator [triangle] 3
    (mkAttributes (mkBuffer 0 [1; 0; 0; 1; 0; 0; 1; 0; 0]%Z) None None None None None).

Definition exampleWorld : World := mkWorld 1 [DEFAULT_COLOR_value] [] [].

Lemma example_constructed :
  constructor [triangle0] initial_world = (inr exampleTesselator, exampleWorld).
Proof. vm_compute. reflexivity. Qed.

Lemma example_ok : tesselator_ok exampleTesselator.
Proof. exact (constructor_ok _ _ _ _ example_constructed). Qed.

Lemma getPolygonOffsets_prefix_sums_witness :
  getPolygonOffsets [triangle; triangle] = [Some 0; Some 3; Some 6] /\
  length (getPolygonOffsets [triangle; triangle]) = length [triangle; triangle] + 1 /\
  getPolygonOffsets [triangle; triangle] !! 0 = Some (Some 0) /\
  (forall i p, [triangle; triangle] !! i = Some p ->
     exists a b,
       getPolygonOffsets [triangle; triangle] !! i = Some (Some a) /\
       getPolygonOffsets [triangle; triangle] !! (i + 1) = Some (Some b) /\
       b - a = Polygon.getVertexCount p /\ a <= b) /\
  getPolygonOffsets [triangle; triangle] !! length [triangle; triangle]
    = Some (Some (getPointCount [triangle; triangle])) /\
  getPointCount [triangle; triangle]
    = sum_list (Polygon.getVertexCount <$> [triangle; triangle]).
Proof. split; [reflexivity | exact (getPolygonOffsets_prefix_sums [triangle; triangle])]. Defined.

Lemma picking_colors_round_trip_witness :
  [triangle] !! 0 = Some triangle /\ 0 < Polygon.getVertexCount triangle /\
  (Z.of_nat 0 + 1 < 2 ^ 24)%Z /\
  exists b w' r g bl,
    calculatePickingColors [triangle] (getPointCount [triangle]) initial_world = (inr b, w') /\
    buf_data b !! (3 * (offsetOf [triangle] 0 + 0)) = Some r /\
    buf_data b !! (3 * (offsetOf [triangle] 0 + 0) + 1) = Some g /\
    buf_data b !! (3 * (offsetOf [triangle] 0 + 0) + 2) = Some bl /\
    r = ((Z.of_nat 0 + 1) mod 256)%Z /\
    g = (((Z.of_nat 0 + 1) / 256) mod 256)%Z /\
    bl = (((Z.of_nat 0 + 1) / 65536) mod 256)%Z /\
    (r + g * 256 + bl * 65536 - 1)%Z = Z.of_nat 0 /\ (r, g, bl) <> (0, 0, 0)%Z.
Proof.
  assert ([triangle] !! 0 = Some triangle) as H1 by reflexivity.
  assert (0 < Polygon.getVertexCount triangle) as H2 by (vm_compute; lia).
  assert (Z.of_nat 0 + 1 < 2 ^ 24)%Z as H3 by (vm_compute; reflexivity).
  split; [exact H1|]. split; [exact H2|]. split; [exact H3|].
  destruct (picking_colors_round_trip [triangle] initial_world 0 triangle 0 H1 H2)
    as (b & w' & r & g & bl & Hrun & E0 & E1 & E2 & Hr & Hg & Hb & Hdec).
  exists b, w', r, g, bl.
  split; [exact Hrun|]. split; [exact E0|]. split; [exact E1|]. split; [exact E2|].
  split; [exact Hr|]. split; [exact Hg|]. split; [exact Hb|]. exact (Hdec H3).
Defined.

Lemma accessors_before_and_after_update_witness :
  constructor [triangle0] initial_world = (inr exampleTesselator, exampleWorld) /\
  positions_method exampleTesselator = None /\
  (forall args, exists t2 w2 bp,
     updatePositions_method args exampleTesselator exampleWorld = (inr t2, w2) /\
     positions_method t2 = Some bp /\ length (buf_data bp) = 3 * 3) /\
  (forall getColor, exists c t2 w2,
     colors_method getColor exampleTesselator exampleWorld = (inr (c, t2), w2) /\
     length (buf_data c) = 3 * 4).
Proof.
  pose proof (accessors_before_and_after_update [triangle0] initial_world
                exampleTesselator exampleWorld example_constructed) as [[H1 _] [H2 H3]].
  split; [exact example_constructed|]. split; [exact H1|]. split.
  - intros args. destruct (H2 args) as (t2 & w2 & bp & bn & Hr & Hp & Hl & _).
    exists t2, w2, bp. split; [exact Hr|]. split; [exact Hp | exact Hl].
  - exact H3.
Defined.

Definition exampleArgs (extruded fp64 : bool) : UpdateArgs :=
  mkUpdateArgs fp64 extruded (fun polygonIndex => JS.of_Z (Z.of_nat polygonIndex + 10)).


Lemma updatePositions_next_wraps_witness :
  tesselator_ok exampleTesselator /\ arg_extruded (exampleArgs true false) = true /\
  exists t' w' bp bn,
    updatePositions_method (exampleArgs true false) exampleTesselator exampleWorld
      = (inr t', w') /\
    positions_method t' = Some bp /\
    nextPositions_method t' = Some bn /\
    (forall c, c < 3 ->
       is_Some (buf_data bp !! (3 * (0 + 0) + c)) /\
       buf_data bn !! (3 * (0 + (3 - 1)) + c) = buf_data bp !! (3 * (0 + 0) + c)).
Proof.
  split; [exact example_ok|]. split; [reflexivity|].
  destruct (updatePositions_next_wraps (exampleArgs true false) exampleTesselator
              exampleWorld example_ok eq_refl)
    as (t' & w' & bp & bn & Hr & Hp & Hn & _ & Hwrap).
  exists t', w', bp, bn. split; [exact Hr|]. split; [exact Hp|]. split; [exact Hn|].
  intros c Hc.
  exact (Hwrap 0 0 [pt 0 0; pt 1 0; pt 0 1] c eq_refl ltac:(simpl; lia) Hc).
Defined.

Lemma colors_broadcast_witness :
  tesselator_ok exampleTesselator /\
  exists c t' w',
    colors_method None exampleTesselator exampleWorld = (inr (c, t'), w') /\
    colorCalls w' = colorCalls exampleWorld ++ seq 0 1 /\
    buf_data c = [0; 0; 0; 255; 0; 0; 0; 255; 0; 0; 0; 255]%Z.
Proof.
  split; [exact example_ok|].
  assert (forall q, q < length (polygons exampleTesselator) ->
            match colorsAccessor None q with
            | ColorArray r =>
                exists c, jsArrays exampleWorld !! r = Some c /\ (length c = 3 \/ length c = 4)
            | ColorOther _ => True
            end) as Hacc.
  { intros q _. exists DEFAULT_COLOR_value. split; [reflexivity | right; reflexivity]. }
  destruct (colors_broadcast None exampleTesselator exampleWorld example_ok Hacc)
    as (c & t' & w' & Hr & Hcalls & _).
  exists c, t', w'. split; [exact Hr|]. split; [exact Hcalls|].
  vm_compute in Hr. injection Hr as <- _ _. reflexivity.
Defined.

(** A world whose second plain array is a colour of three channels. *)
Definition rgbWorld : World :=
  mkWorld 1
    [DEFAULT_COLOR_value; [JS.Num (JS.of_Z 10); JS.Num (JS.of_Z 20); JS.Num (JS.of_Z 30)]]
    [] [].

Lemma colors_mutates_accessor_array_witness :
  0 < length (polygons exampleTesselator) /\
  jsArrays rgbWorld !! 1
    = Some [JS.Num (JS.of_Z 10); JS.Num (JS.of_Z 20); JS.Num (JS.of_Z 30)] /\
  exists out w' c',
    colors_method (Some (fun _ => ColorArray 1)) exampleTesselator rgbWorld = (inr out, w') /\
    jsArrays w' !! 1 = Some c' /\
    c' !! 3 = Some (JS.Num (JS.of_Z 255)) /\
    c' <> [JS.Num (JS.of_Z 10); JS.Num (JS.of_Z 20); JS.Num (JS.of_Z 30)].
Proof.
  assert (0 < length (polygons exampleTesselator)) as H1 by (simpl; lia).
  split; [exact H1|]. split; [reflexivity|].
  exact (colors_mutates_accessor_array (fun _ => ColorArray 1) exampleTesselator rgbWorld
           0 1 _ H1 eq_refl eq_refl eq_refl).
Defined.

(** ** The 64-bit precision pair *)

(** C8 (amended): after [updatePositions] with the 64-bit flag, the low-part
    buffer holds at the slot of every vertex the stored values of
    x - fround(x) and y - fround(y).  For an ordinate x (or y), a binary64
    number, the high part stored in the position buffer and the stored low
    part are finite and their sum is within 1e-5 of x, relative to |x|,
    whenever x is zero or 50000 * 2^-149 <= |x| < (2^25 - 1) * 2^103; and for
    any x they are so exactly when the high part alone is finite and within
    1e-5 of x. *)
Theorem fp64_low_parts_reconstruct (args : UpdateArgs) (t : PolygonTesselator) (w : World) :
  tesselator_ok t -> arg_fp64 args = true ->
  exists t' w' bp bl,
    updatePositions_method args t w = (inr t', w') /\
    positions_method t' = Some bp /\
    positions64xyLow_method t' = Some bl /\
    forall q p k v,
      polygons t !! q = Some p -> concat (Polygon.rings p) !! k = Some v ->
      buf_data bl !! (2 * (offsetOf (polygons t) q + k))
        = Some (JS.fround (JS.sub (JS.ToNumber (JS.get JS.Num v 0))
                             (JS.fround (JS.ToNumber (JS.get JS.Num v 0))))) /\
      buf_data bl !! (2 * (offsetOf (polygons t) q + k) + 1)
        = Some (JS.fround (JS.sub (JS.ToNumber (JS.get JS.Num v 1))
                             (JS.fround (JS.ToNumber (JS.get JS.Num v 1))))) /\
      forall c (x : JS.number),
        c < 2 -> v !! c = Some x -> valid_binary JS.prec64 JS.emax64 x = true ->
        exists hi lo,
          buf_data bp !! (3 * (offsetOf (polygons t) q + k) + c) = Some hi /\
          buf_data bl !! (2 * (offsetOf (polygons t) q + k) + c) = Some lo /\
          hi = JS.fround x /\ lo = JS.fround (JS.sub x hi) /\
          (Float32.pair_range x = true ->
           JS.isFinite hi = true /\ JS.isFinite lo = true /\
           (Qabs (Float32.valueQ hi + Float32.valueQ lo - Float32.valueQ x)
            <= (1 # 100000) * Qabs (Float32.valueQ x))%Q) /\
          (JS.isFinite hi = true /\ JS.isFinite lo = true /\
           (Qabs (Float32.valueQ hi + Float32.valueQ lo - Float32.valueQ x)
            <= (1 # 100000) * Qabs (Float32.valueQ x))%Q
           <-> JS.isFinite hi = true /\
               (Qabs (Float32.valueQ hi - Float32.valueQ x)
                <= (1 # 100000) * Qabs (Float32.valueQ x))%Q).
Proof.
  intros Hok Hf.
  destruct (updatePositions_low_parts args t w Hok Hf)
    as (t' & w' & bp & bl & Hrun & Hbp & Hbl & Hslots).
  exists t', w', bp, bl. split; [done|]. split; [done|]. split; [done|].
  intros q p k v Hp Hv.
  destruct (Hslots q p k v Hp Hv) as (Hx & Hy & Hxl & Hyl).
  split; [done|]. split; [done|].
  intros c x Hc Hvx Hvalid.
  destruct (Float32.split_pair_Q x Hvalid) as [Hrange Hiff]. cbv zeta in Hrange, Hiff.
  exists (JS.fround x), (JS.fround (JS.sub x (JS.fround x))).
  assert (JS.get JS.Num v c = JS.Num x) as Hget by (unfold JS.get; by rewrite Hvx).
  destruct c as [|[|c]]; [| |lia]; rewrite Hget in *; cbn [JS.ToNumber] in *.
  - rewrite !Nat.add_0_r.
    split; [done|]. split; [done|]. split; [done|]. split; [done|]. by split.
  - split; [done|]. split; [done|]. split; [done|]. split; [done|]. by split.
Qed.

(** A triangle whose first vertex has x = 2^-200. *)
Definition tiny : JS.number := JS.mk64 false 1 (-200).
Definition tinyTriangle : polygon :=
  ComplexPolygon [[ [tiny; JS.of_Z 0]; pt 1 0; pt 0 1 ]].
Definition tinyTesselator : PolygonTesselator :=
  mkTesselator [tinyTriangle] 3
    (mkAttributes (mkBuffer 0 [1; 0; 0; 1; 0; 0; 1; 0; 0]%Z) None None None None None).

Lemma tiny_constructed :
  constructor [tinyTriangle] initial_world = (inr tinyTesselator, exampleWorld).
Proof. vm_compute. reflexivity. Qed.

(** C8, as stated, fails for a small ordinate: with x = 2^-200 both the
    stored high part and the stored low part are 0, and their sum is not
    within 1e-5 of x relative to |x|. *)
Lemma fp64_tiny_counterexample :
  exists t' w' bp bl,
    updatePositions_method (exampleArgs false true) tinyTesselator exampleWorld
      = (inr t', w') /\
    positions_method t' = Some bp /\
    positions64xyLow_method t' = Some bl /\
    buf_data bp !! 0 = Some (S754_zero false) /\
    buf_data bl !! 0 = Some (S754_zero false) /\
    ((1 # 100000) * Qabs (Float32.valueQ tiny)
     < Qabs (Float32.valueQ (S754_zero false) + Float32.valueQ (S754_zero false)
             - Float32.valueQ tiny))%Q.
Proof.
  eexists _, _, _, _. split; [vm_compute; reflexivity|].
  split; [reflexivity|]. split; [reflexivity|]. split; [reflexivity|].
  split; [reflexivity|].
  apply Float32.relative_error_Q_lt. vm_compute. reflexivity.
Qed.

(** A triangle whose first vertex has x = 0.1, the binary64 number
    3602879701896397 * 2^-55, which float32 does not hold exactly. *)
Definition tenth : JS.number := JS.mk64 false 3602879701896397 (-55).
Definition tenthTriangle : polygon :=
  ComplexPolygon [[ [tenth; JS.of_Z 0]; pt 1 0; pt 0 1 ]].
Definition tenthTesselator : PolygonTesselator :=
  mkTesselator [tenthTriangle] 3
    (mkAttributes (mkBuffer 0 [1; 0; 0; 1; 0; 0; 1; 0; 0]%Z) None None None None None).

Lemma tenth_constructed :
  constructor [tenthTriangle] initial_world = (inr tenthTesselator, exampleWorld).
Proof. vm_compute. reflexivity. Qed.

Lemma fp64_low_parts_reconstruct_witness :
  tesselator_ok tenthTesselator /\ arg_fp64 (exampleArgs false true) = true /\
  valid_binary JS.prec64 JS.emax64 tenth = true /\
  Float32.pair_range tenth = true /\
  exists t' w' bp bl,
    updatePositions_method (exampleArgs false true) tenthTesselator exampleWorld
      = (inr t', w') /\
    positions_method t' = Some bp /\
    positions64xyLow_method t' = Some bl /\
    exists hi lo,
      buf_data bp !! (3 * (0 + 0) + 0) = Some hi /\
      buf_data bl !! (2 * (0 + 0) + 0) = Some lo /\
      hi = JS.fround tenth /\ lo = JS.fround (JS.sub tenth hi) /\
      lo <> S754_zero false /\ lo <> S754_zero true /\
      JS.isFinite hi = true /\ JS.isFinite lo = true /\
      (Qabs (Float32.valueQ hi + Float32.valueQ lo - Float32.valueQ tenth)
       <= (1 # 100000) * Qabs (Float32.valueQ tenth))%Q.
Proof.
  assert (valid_binary JS.prec64 JS.emax64 tenth = true) as Hv by (vm_compute; reflexivity).
  assert (Float32.pair_range tenth = true) as Hr by (vm_compute; reflexivity).
  split; [exact (constructor_ok _ _ _ _ tenth_constructed)|]. split; [reflexivity|].
  split; [exact Hv|]. split; [exact Hr|].
  destruct (fp64_low_parts_reconstruct (exampleArgs false true) tenthTesselator
              exampleWorld (constructor_ok _ _ _ _ tenth_constructed) eq_refl)
    as (t' & w' & bp & bl & Hrun & Hp & Hl & Hall).
  exists t', w', bp, bl. split; [exact Hrun|]. split; [exact Hp|]. split; [exact Hl|].
  destruct (Hall 0 tenthTriangle 0 [tenth; JS.of_Z 0] eq_refl eq_refl) as (_ & _ & Hc).
  destruct (Hc 0 tenth ltac:(lia) eq_refl Hv) as (hi & lo & Hhi & Hlo & Ehi & Elo & Hin & _).
  exists hi, lo. split; [exact Hhi|]. split; [exact Hlo|].
  split; [exact Ehi|]. split; [exact Elo|].
  split; [rewrite Elo, Ehi; vm_compute; discriminate|].
  split; [rewrite Elo, Ehi; vm_compute; discriminate|].
  exact (Hin Hr).
Defined.

(** * Further properties *)

(** ** Hole indices *)

Definition holeStep : nat * list nat -> Ring -> nat -> nat * list nat :=
  fun '(polygonStartIndex, holeIndices) polygon _ =>
    let polygonStartIndex := polygonStartIndex + length polygon in
    (polygonStartIndex, holeIndices ++ [polygonStartIndex]).

(** The number of vertices of the rings up to and including ring [k]. *)
Definition ringEnd (rs : list Ring) (k : nat) : nat :=
  sum_list (length <$> take (S k) rs).

Lemma ringEnd_cons r rs k : ringEnd (r :: rs) (S k) = length r + ringEnd rs k.
Proof. done. Qed.

Lemma hole_loop rs idx start acc :
  forEach_from holeStep idx rs (start, acc)
  = (start + sum_list (length <$> rs),
     acc ++ ((fun k => start + ringEnd rs k) <$> seq 0 (length rs))).
Proof.
  revert idx start acc. induction rs as [|r rs IH]; intros idx start acc.
  - cbn. by rewrite Nat.add_0_r, app_nil_r.
  - cbn [forEach_from holeStep]. cbv zeta. rewrite IH.
    rewrite sum_list_fmap_cons. f_equal; [lia|].
    rewrite <- app_assoc. f_equal. cbn [length seq fmap list_fmap app].
    f_equal.
    + unfold ringEnd. cbn [take]. rewrite take_0, sum_list_fmap_cons. simpl. lia.
    + rewrite <- fmap_S_seq, <- list_fmap_compose. apply list_fmap_ext.
      intros _ k _. simpl. rewrite ringEnd_cons. lia.
Qed.

Lemma getHoleIndices_eq rs :
  getHoleIndices rs =
  if 1 <? length rs then Some (ringEnd rs <$> seq 0 (length rs - 1)) else None.
Proof.
  unfold getHoleIndices. destruct (1 <? length rs) eqn:E; [|done].
  apply Nat.ltb_lt in E. unfold forEach.
  match goal with |- context [forEach_from ?f 0 rs (0, [])] =>
    change (forEach_from f 0 rs (0, [])) with (forEach_from holeStep 0 rs (0, []))
  end.
  rewrite hole_loop. cbn [app]. f_equal.
  replace (length rs) with (S (length rs - 1)) at 1 by lia.
  rewrite seq_S, fmap_app. cbn [fmap list_fmap]. rewrite removelast_last.
  apply list_fmap_ext. intros _ k _. simpl. done.
Qed.

(** X3: [getHoleIndices] returns [null] for a polygon of at most one ring;
    for a polygon of r > 1 rings it returns r - 1 indices, the k-th being the
    number of vertices of rings 0..k, which is the vertex index at which ring
    k + 1 (the k-th hole) starts in the flattened polygon. *)
Theorem getHoleIndices_ring_starts (complexPolygon : list Ring) :
  match getHoleIndices complexPolygon with
  | None => length complexPolygon <= 1
  | Some holeIndices =>
      1 < length complexPolygon /\
      length holeIndices = length complexPolygon - 1 /\
      forall k, k < length complexPolygon - 1 ->
        holeIndices !! k = Some (sum_list (length <$> take (S k) complexPolygon)) /\
        length (concat (take (S k) complexPolygon))
          = sum_list (length <$> take (S k) complexPolygon)
  end.
Proof.
  rewrite getHoleIndices_eq. destruct (1 <? length complexPolygon) eqn:E.
  - apply Nat.ltb_lt in E. split; [done|]. split.
    + by rewrite length_fmap, length_seq.
    + intros k Hk. split.
      * rewrite list_lookup_fmap, lookup_seq_lt by done. done.
      * generalize (take (S k) complexPolygon). intros l.
        induction l as [|r l IH]; [done|].
        cbn [concat]. rewrite length_app, sum_list_fmap_cons, IH. done.
  - apply Nat.ltb_ge in E. done.
Qed.

(** ** Index assembly: what the array holds *)

Lemma write_from_twice {A V} (conv : V -> A) (b : Buffer A) i l :
  write_from conv (write_from conv b i l) i l = write_from conv b i l.
Proof.
  assert (forall x y : Buffer A, buf_id x = buf_id y -> buf_data x = buf_data y -> x = y) as Hext.
  { intros [] [] ? ?; simpl in *; by subst. }
  apply Hext; [by rewrite !write_from_id|].
  apply list_eq. intros n.
  destruct (decide (n < i \/ i + length l <= n)) as [Hout|Hin].
  - by rewrite write_from_lookup_out by done.
  - assert (exists j, n = i + j /\ j < length l) as (j & -> & Hj) by (exists (n - i); lia).
    destruct (lookup_lt_is_Some_2 l j Hj) as [v Hv].
    destruct (decide (i + j < length (buf_data b))) as [Hlt|Hge].
    + rewrite (write_from_lookup_in conv _ i l j v Hv) by (by rewrite write_from_length).
      by rewrite (write_from_lookup_in conv _ i l j v Hv).
    + rewrite !lookup_ge_None_2; [done| |]; rewrite !write_from_length; lia.
Qed.

Section IndexContents.

Variable earcut : list JS.number -> option (list nat) -> nat -> list nat.
Variable Polygon_getTriangleCount : polygon -> nat.

(** The number of indices the triangulator returns for the polygons before
    polygon [q]. *)
Definition surfaceStart (ps : list polygon) (q : nat) : nat :=
  sum_list ((fun p => length (calculateSurfaceIndices earcut p)) <$> take q ps).

Lemma surfaceStart_cons p ps q :
  surfaceStart (p :: ps) (S q)
  = length (calculateSurfaceIndices earcut p) + surfaceStart ps q.
Proof. done. Qed.

Lemma indexInner_write ty offset l j i (b : Buffer Z) :
  forEach_from (indexInner ty offset) j l (i, b)
  = (i + length l, write_from (fun index => to_index ty index offset) b i l).
Proof.
  revert j i b. induction l as [|x l IH]; intros j i b; cbn [forEach_from indexInner].
  - by rewrite Nat.add_0_r.
  - rewrite IH. cbn [length write_from]. f_equal. lia.
Qed.

Lemma indexOuter_loop ty offsets (O : nat -> nat) ps j i (b : Buffer Z) :
  (forall q, q < length ps -> offsets !! (j + q) = Some (Some (O (j + q)))) ->
  let r := forEach_from (indexOuter earcut ty offsets) j ps (i, b) in
  buf_id r.2 = buf_id b /\
  length (buf_data r.2) = length (buf_data b) /\
  (forall n, n < i \/ i + surfaceStart ps (length ps) <= n ->
     buf_data r.2 !! n = buf_data b !! n) /\
  (forall q p k index,
     ps !! q = Some p -> calculateSurfaceIndices earcut p !! k = Some index ->
     i + surfaceStart ps q + k < length (buf_data b) ->
     buf_data r.2 !! (i + surfaceStart ps q + k)
       = Some (Z.of_nat (index + O (j + q))%nat mod index_modulus ty)%Z).
Proof.
  revert j i b. induction ps as [|p0 ps IH]; intros j i b Hoff; cbv zeta;
    cbn [forEach_from].
  - repeat split; try done.
  - cbn [indexOuter]. unfold forEach. rewrite indexInner_write.
    set (l0 := calculateSurfaceIndices earcut p0).
    set (b1 := write_from _ b i l0).
    destruct (IH (S j) (i + length l0) b1) as (Hid & Hl & Hkeep & Hnew).
    { intros q Hq. replace (S j + q) with (j + S q) by lia. apply Hoff. simpl. lia. }
    cbv zeta in Hid, Hl, Hkeep, Hnew.
    repeat split.
    + rewrite Hid. apply write_from_id.
    + rewrite Hl. apply write_from_length.
    + intros n Hn. cbn [length] in Hn. rewrite surfaceStart_cons in Hn. fold l0 in Hn.
      rewrite Hkeep by lia. apply write_from_lookup_out. lia.
    + intros q p k index Hp Hk Hlen. destruct q as [|q]; simpl in Hp.
      * injection Hp as ->. fold l0 in Hk.
        change (surfaceStart (p :: ps) 0) with 0 in *. rewrite Nat.add_0_r in *.
        rewrite Hkeep by (pose proof (lookup_lt_Some _ _ _ Hk); lia).
        subst b1. rewrite (write_from_lookup_in _ b i l0 k index Hk Hlen).
        specialize (Hoff 0 ltac:(simpl; lia)). rewrite Nat.add_0_r in Hoff.
        rewrite Hoff. cbn [to_index]. by rewrite (Nat.add_0_r j).
      * rewrite surfaceStart_cons in *. fold l0 in Hlen |- *.
        replace (i + (length l0 + surfaceStart ps q) + k)
          with (i + length l0 + surfaceStart ps q + k) by lia.
        replace (j + S q) with (S j + q) by lia.
        apply (Hnew q p k index Hp Hk). subst b1. rewrite write_from_length. lia.
Qed.

Lemma indexData_length ty ps :
  length (indexData earcut Polygon_getTriangleCount ty ps)
  = 3 * getTriangleCount Polygon_getTriangleCount ps.
Proof.
  set (n := 3 * getTriangleCount Polygon_getTriangleCount ps).
  destruct (indexOuter_loop ty (getPolygonOffsets ps) (offsetOf ps) ps 0 0
              (mkBuffer 0 (replicate n 0%Z))) as (_ & Hl & _).
  { intros q Hq. apply getPolygonOffsets_spec. simpl. lia. }
  rewrite indexOuter_data in Hl. cbn [snd buf_data] in Hl.
  unfold indexData, forEach. fold n. rewrite Hl. apply length_replicate.
Qed.

(** X2: without an overflow, [calculateIndices] returns an array of three
    entries per triangle; the k-th index the triangulator returns for polygon
    q stands, shifted by the number of vertices of the polygons before q and
    reduced to the width of the index type, at the position given by the number
    of indices of the polygons before q plus k; an index that falls past the
    end of the array is dropped, and an entry that no index reaches stays 0. *)
Theorem calculateIndices_contents (polygons : list polygon) (ty : option IndexType)
    (w : World) :
  (ty = Some Uint16Array ->
   (Z.of_nat (3 * getTriangleCount Polygon_getTriangleCount polygons) <= 65535)%Z) ->
  exists b w',
    calculateIndices earcut Polygon_getTriangleCount polygons ty w = (inr b, w') /\
    length (buf_data b) = 3 * getTriangleCount Polygon_getTriangleCount polygons /\
    (forall q p k index,
       polygons !! q = Some p -> calculateSurfaceIndices earcut p !! k = Some index ->
       surfaceStart polygons q + k < length (buf_data b) ->
       buf_data b !! (surfaceStart polygons q + k)
         = Some (Z.of_nat (index + offsetOf polygons q)%nat
                   mod index_modulus (default Uint32Array ty))%Z) /\
    (forall n, surfaceStart polygons (length polygons) <= n < length (buf_data b) ->
       buf_data b !! n = Some 0%Z).
Proof.
  intros Hfit. rewrite calculateIndices_eq.
  assert (overflows Polygon_getTriangleCount ty polygons = false) as ->.
  { unfold overflows. destruct ty as [[|]|]; cbn [default]; [|done..].
    apply Z.ltb_ge. by apply Hfit. }
  set (n := 3 * getTriangleCount Polygon_getTriangleCount polygons).
  set (ty' := default Uint32Array ty).
  set (b0 := mkBuffer (nextBuffer w) (replicate n 0%Z)).
  pose proof (indexOuter_loop ty' (getPolygonOffsets polygons) (offsetOf polygons)
                polygons 0 0 b0) as Hloop.
  destruct Hloop as (_ & Hl & Hkeep & Hnew).
  { intros q Hq. apply getPolygonOffsets_spec. simpl. lia. }
  assert (buf_data (forEach_from (indexOuter earcut ty' (getPolygonOffsets polygons)) 0
                      polygons (0, b0)).2
          = indexData earcut Polygon_getTriangleCount ty' polygons) as Hdata.
  { rewrite indexOuter_data. reflexivity. }
  rewrite Hdata in Hl, Hkeep, Hnew.
  assert (length (buf_data b0) = n) as Hb0 by (simpl; apply length_replicate).
  eexists _, _. split; [reflexivity|]. cbn [buf_data].
  split; [by rewrite Hl|]. split.
  - intros q p k index Hp Hk Hlen. rewrite Hl in Hlen.
    apply (Hnew q p k index Hp Hk). lia.
  - intros m [Hm1 Hm2]. rewrite Hkeep by (right; simpl; lia).
    rewrite Hl, Hb0 in Hm2. simpl. by apply lookup_replicate_2.
Qed.

End IndexContents.

(** ** Picking colours: which indices share a colour *)

Lemma digits256 a :
  (0 <= a ->
   a mod 2 ^ 24 = a mod 256 + 256 * ((a / 256) mod 256) + 65536 * ((a / 256 / 256) mod 256))%Z.
Proof.
  intros Ha.
  pose proof (Z.div_mod a 256 ltac:(lia)) as H1.
  pose proof (Z.div_mod (a / 256) 256 ltac:(lia)) as H2.
  pose proof (Z.div_mod (a / 256 / 256) 256 ltac:(lia)) as H3.
  pose proof (Z.mod_pos_bound a 256 ltac:(lia)).
  pose proof (Z.mod_pos_bound (a / 256) 256 ltac:(lia)).
  pose proof (Z.mod_pos_bound (a / 256 / 256) 256 ltac:(lia)).
  symmetry. apply (Z.mod_unique_pos _ _ (a / 256 / 256 / 256)); lia.
Qed.

Lemma getPickingColor_mod (a b : Z) :
  (0 <= a -> 0 <= b -> a mod 2 ^ 24 = b mod 2 ^ 24 ->
   getPickingColor (a - 1) = getPickingColor (b - 1))%Z.
Proof.
  intros Ha Hb Hab. unfold getPickingColor.
  replace (a - 1 + 1)%Z with a by lia. replace (b - 1 + 1)%Z with b by lia.
  assert (forall x, 0 <= x ->
            x mod 256 = (x mod 2 ^ 24) mod 256 /\
            (x / 256) mod 256 = ((x mod 2 ^ 24) / 256) mod 256 /\
            (x / 256 / 256) mod 256 = ((x mod 2 ^ 24) / 256 / 256) mod 256)%Z as Hd.
  { intros x Hx.
    pose proof (Z.div_mod x (2 ^ 24) ltac:(lia)) as Hx24.
    set (m := (x mod 2 ^ 24)%Z) in *. set (k := (x / 2 ^ 24)%Z) in *.
    assert (x = m + (k * 65536) * 256)%Z as E1 by lia.
    assert (x / 256 = m / 256 + k * 65536)%Z as E2.
    { rewrite E1 at 1. apply Z.div_add. lia. }
    assert (x / 256 / 256 = m / 256 / 256 + k * 256)%Z as E3.
    { rewrite E2. replace (k * 65536)%Z with ((k * 256) * 256)%Z by lia.
      apply Z.div_add. lia. }
    split; [|split].
    - rewrite E1 at 1. apply Z.mod_add. lia.
    - rewrite E2. replace (k * 65536)%Z with ((k * 256) * 256)%Z by lia.
      apply Z.mod_add. lia.
    - rewrite E3. apply Z.mod_add. lia. }
  destruct (Hd a Ha) as (-> & -> & ->). destruct (Hd b Hb) as (-> & -> & ->).
  by rewrite Hab.
Qed.

(** X4: two polygon indices get the same picking colour exactly when they
    differ by a multiple of 2^24; in particular the colours of the indices
    below 2^24 - 1 are pairwise different. *)
Theorem getPickingColor_same_iff (i j : nat) :
  (getPickingColor (Z.of_nat i) = getPickingColor (Z.of_nat j)
   <-> ((Z.of_nat i + 1) mod 2 ^ 24 = (Z.of_nat j + 1) mod 2 ^ 24)%Z) /\
  ((Z.of_nat i + 1 < 2 ^ 24)%Z -> (Z.of_nat j + 1 < 2 ^ 24)%Z ->
   getPickingColor (Z.of_nat i) = getPickingColor (Z.of_nat j) -> i = j).
Proof.
  assert (getPickingColor (Z.of_nat i) = getPickingColor (Z.of_nat j)
          <-> ((Z.of_nat i + 1) mod 2 ^ 24 = (Z.of_nat j + 1) mod 2 ^ 24)%Z) as Hiff.
  { split.
    - intros [= E1 E2 E3].
      rewrite (digits256 (Z.of_nat i + 1)), (digits256 (Z.of_nat j + 1)) by lia.
      by rewrite E1, E2, E3.
    - intros E.
      pose proof (getPickingColor_mod (Z.of_nat i + 1) (Z.of_nat j + 1)
                    ltac:(lia) ltac:(lia) E) as H.
      by replace (Z.of_nat i + 1 - 1)%Z with (Z.of_nat i) in H by lia;
         replace (Z.of_nat j + 1 - 1)%Z with (Z.of_nat j) in H by lia. }
  split; [exact Hiff|].
  intros Hi Hj E. apply Hiff in E.
  rewrite !Z.mod_small in E by lia. lia.
Qed.

(** ** [parseColor] *)

(** X5: [parseColor] is idempotent: parsing the array it returned changes
    nothing and returns the same array; an array given as the colour is the
    one returned, a container that is not an array is copied into a new array
    and no array that existed before is written; no array other than the one
    returned is ever written. *)
Theorem parseColor_idempotent (color : ColorValue) (arrays : list (list JS.value)) :
  let ref := (parseColor color arrays).1 in
  let arrays' := (parseColor color arrays).2 in
  parseColor (ColorArray ref) arrays' = (ref, arrays') /\
  (forall r c, r <> ref -> arrays !! r = Some c -> arrays' !! r = Some c) /\
  match color with
  | ColorArray given => ref = given /\ length arrays' = length arrays
  | ColorOther _ =>
      ref = length arrays /\ length arrays' = S (length arrays) /\
      forall r c, arrays !! r = Some c -> arrays' !! r = Some c
  end.
Proof.
  cbv zeta. rewrite !parseColor_eq. destruct color as [given|c]; cbn [fst snd].
  - split; [|split; [|split]].
    + f_equal. destruct (arrays !! given) as [c|] eqn:Hc.
      * pose proof (lookup_lt_Some _ _ _ Hc).
        rewrite list_lookup_insert_eq by done. cbn [default id].
        rewrite fixAlpha_idempotent. by rewrite list_insert_insert_eq.
      * pose proof (lookup_ge_None_1 _ _ Hc).
        by rewrite !list_insert_ge by (rewrite ?length_insert; lia).
    + intros r c Hne Hc. by rewrite list_lookup_insert_ne.
    + done.
    + apply length_insert.
  - set (a := [JS.get id c 0; JS.get id c 1; JS.get id c 2; JS.get id c 3]).
    cbv zeta. cbn [fst snd].
    split; [|split; [|split; [|split]]].
    + f_equal. rewrite lookup_app_r by lia. rewrite Nat.sub_diag. cbn [lookup list_lookup default id].
      rewrite fixAlpha_idempotent.
      replace (length arrays) with (length arrays + 0) at 1 by lia.
      by rewrite insert_app_r.
    + intros r c' _ Hc. pose proof (lookup_lt_Some _ _ _ Hc).
      by rewrite lookup_app_l by lia.
    + done.
    + rewrite length_app. simpl. lia.
    + intros r c' Hc. pose proof (lookup_lt_Some _ _ _ Hc).
      by rewrite lookup_app_l by lia.
Qed.

(** ** The position pass: repeated calls *)

(** The buffers the method works on exist, whatever the tesselator held. *)
Lemma ensured_some args t w :
  let a := (ensured args t w).1 in
  is_Some (positions a) /\ is_Some (nextPositions a) /\
  (arg_fp64 args = true ->
     is_Some (positions64xyLow a) /\ is_Some (nextPositions64xyLow a)) /\
  (arg_fp64 args = false ->
     positions64xyLow a = positions64xyLow (attributes t) /\
     nextPositions64xyLow a = nextPositions64xyLow (attributes t)) /\
  (forall b, positions (attributes t) = Some b -> positions a = Some b) /\
  (forall b, nextPositions (attributes t) = Some b -> nextPositions a = Some b) /\
  (forall b, positions64xyLow (attributes t) = Some b -> positions64xyLow a = Some b) /\
  (forall b, nextPositions64xyLow (attributes t) = Some b ->
     nextPositions64xyLow a = Some b) /\
  (nextPositions (attributes t) = None ->
     exists b, nextPositions a = Some b /\
       buf_data b = replicate (pointCount t * 3) JS.zero) /\
  pickingColors a = pickingColors (attributes t) /\
  colors a = colors (attributes t).
Proof.
  unfold ensured, orNew. cbv zeta.
  destruct t as [ps pc [pk pos next low nextLow col]].
  cbn [attributes pointCount positions nextPositions positions64xyLow nextPositions64xyLow
       colors pickingColors].
  destruct pos, next, (arg_fp64 args), low, nextLow;
    cbn [fst snd positions nextPositions positions64xyLow nextPositions64xyLow colors
         pickingColors];
    repeat split; try done; try (by eexists); try (intros ? [= <-]; by auto);
    try (intros _; eexists; by split).
Qed.

(** Once every buffer a pass needs exists, the method allocates nothing. *)
Lemma ensured_fixed args t w :
  is_Some (positions (attributes t)) -> is_Some (nextPositions (attributes t)) ->
  (arg_fp64 args = true ->
     is_Some (positions64xyLow (attributes t)) /\
     is_Some (nextPositions64xyLow (attributes t))) ->
  ensured args t w = (attributes t, nextBuffer w).
Proof.
  unfold ensured, orNew. cbv zeta.
  destruct t as [ps pc [pk pos next low nextLow col]].
  cbn [attributes pointCount positions nextPositions positions64xyLow nextPositions64xyLow
       colors pickingColors].
  intros [bp ->] [bn ->] Hlow. destruct (arg_fp64 args); [|done].
  destruct (Hlow eq_refl) as [[bl ->] [bnl ->]]. done.
Qed.

Lemma put_twice b l : put (put b 0 l) 0 l = put b 0 l.
Proof. destruct b as [b|]; [|done]. simpl. by rewrite write_from_twice. Qed.

Lemma put_is_Some b i l : is_Some b -> is_Some (put b i l).
Proof. intros [x ->]. by eexists. Qed.

(** X6: the method [updatePositions] never throws and is idempotent: a second
    call with the same arguments leaves every attribute of the tesselator as
    the first call left it, and allocates no array. *)
Theorem updatePositions_idempotent (args : UpdateArgs) (t : PolygonTesselator) (w : World) :
  exists t' w' w'',
    updatePositions_method args t w = (inr t', w') /\
    updatePositions_method args t' w' = (inr t', w'') /\
    nextBuffer w'' = nextBuffer w' /\
    jsArrays w'' = jsArrays w' /\ colorCalls w'' = colorCalls w'.
Proof.
  rewrite updatePositions_method_eq. cbv zeta.
  destruct (ensured_some args t w)
    as (Hp & Hn & Hlow & _ & _ & _ & _ & _ & _ & _ & _).
  cbv zeta in Hp, Hn, Hlow.
  set (a := (ensured args t w).1) in *. set (ch := finalStreams args t).
  set (t' := mkTesselator _ _ _). set (w' := mkWorld _ _ _ _).
  assert (finalStreams args t' = ch) as Hch by reflexivity.
  exists t', w'. rewrite updatePositions_method_eq. cbv zeta. rewrite Hch.
  rewrite (ensured_fixed args t').
  - eexists. split; [reflexivity|]. split.
    + subst t'. cbn [fst snd attributes polygons pointCount pickingColors positions
                     nextPositions positions64xyLow nextPositions64xyLow colors].
      rewrite !put_twice. reflexivity.
    + by repeat split.
  - by apply put_is_Some.
  - by apply put_is_Some.
  - intros Hf. split; apply put_is_Some; by apply Hlow.
Qed.

(** X7: a call of [updatePositions] without the extrusion flag calls no height
    accessor and writes no next position: an array of next positions (or of
    their low parts) that exists keeps the elements an earlier pass left in
    it, and a newly allocated one holds zeros. *)
Theorem updatePositions_flat_keeps_next (args : UpdateArgs) (t : PolygonTesselator)
    (w : World) :
  arg_extruded args = false ->
  exists t' w',
    updatePositions_method args t w = (inr t', w') /\
    heightCalls w' = heightCalls w /\
    (forall bn, nextPositions_method t = Some bn -> nextPositions_method t' = Some bn) /\
    (forall bnl, nextPositions64xyLow_method t = Some bnl ->
       nextPositions64xyLow_method t' = Some bnl) /\
    (nextPositions_method t = None ->
     exists bn, nextPositions_method t' = Some bn /\
       buf_data bn = replicate (pointCount t * 3) JS.zero).
Proof.
  intros He. rewrite updatePositions_method_eq. cbv zeta.
  eexists _, _. split; [reflexivity|].
  destruct (finalStreams_view args t) as (_ & _ & Sn & Snl).
  rewrite He in Sn, Snl. cbn [andb] in Snl.
  destruct (ensured_some args t w)
    as (_ & _ & _ & _ & _ & Hn & _ & Hnl & Hfresh & _ & _).
  cbv zeta in Hn, Hnl, Hfresh.
  unfold nextPositions_method, nextPositions64xyLow_method.
  cbn [heightCalls attributes nextPositions nextPositions64xyLow].
  rewrite Sn, Snl, !put_nil, He.
  split; [by rewrite app_nil_r|]. split; [exact Hn|]. split; [exact Hnl|exact Hfresh].
Qed.

(** ** The colour pass: the cached array *)

Lemma colors_loop_same getColor pl idx s :
  buf_id (cs_colors (forEach_from (colorStep getColor) idx pl s)) = buf_id (cs_colors s) /\
  length (buf_data (cs_colors (forEach_from (colorStep getColor) idx pl s)))
    = length (buf_data (cs_colors s)).
Proof.
  revert idx s. induction pl as [|p pl IH]; intros idx s; cbn [forEach_from]; [done|].
  destruct (IH (S idx) (colorStep getColor s p idx)) as [-> ->].
  rewrite colorStep_eq. cbn [cs_colors]. by rewrite fillArray_id, fillArray_length.
Qed.

(** X8: [colors()] allocates its array on the first call only: a later call,
    with whatever accessor, overwrites and returns the very array an earlier
    call returned, which is the one it left in the attributes. *)
Theorem colors_reuses_array (getColor1 getColor2 : option (nat -> ColorValue))
    (t : PolygonTesselator) (w : World) :
  exists c1 t1 w1 c2 t2 w2,
    colors_method getColor1 t w = (inr (c1, t1), w1) /\
    colors_method getColor2 t1 w1 = (inr (c2, t2), w2) /\
    colors (attributes t1) = Some c1 /\ colors (attributes t2) = Some c2 /\
    buf_id c2 = buf_id c1 /\ nextBuffer w2 = nextBuffer w1 /\
    length (buf_data c2) = length (buf_data c1).
Proof.
  rewrite colors_method_eq.
  set (c1 := cs_colors (colorsLoop getColor1 t w)).
  set (t1 := mkTesselator _ _ _). set (w1 := mkWorld _ _ _ _).
  exists c1, t1, w1. rewrite colors_method_eq. eexists _, _, _.
  split; [reflexivity|]. split; [reflexivity|].
  split; [done|]. split; [done|].
  destruct (colors_loop_same (colorsAccessor getColor2) (polygons t1) 0
              (mkColorState 0 (colorsBuffer t1 w1) (jsArrays w1) [])) as [Hid Hl].
  fold (colorsLoop getColor2 t1 w1) in Hid, Hl.
  split; [exact Hid|]. split; [done|exact Hl].
Qed.

(** ** Sequences of method calls *)

(** An attribute that was assigned is still assigned, to the same array. *)
Definition same_array {A} (before after : option (Buffer A)) : Prop :=
  forall x, before = Some x ->
    exists y, after = Some y /\ buf_id y = buf_id x /\
      length (buf_data y) = length (buf_data x).

Lemma same_array_refl {A} (b : option (Buffer A)) : same_array b b.
Proof. intros x ->. by exists x. Qed.

Lemma same_array_trans {A} (a b c : option (Buffer A)) :
  same_array a b -> same_array b c -> same_array a c.
Proof.
  intros Hab Hbc x Hx. destruct (Hab x Hx) as (y & Hy & Hid & Hlen).
  destruct (Hbc y Hy) as (z & Hz & Hid' & Hlen'). exists z.
  split; [done|]. split; congruence.
Qed.

Lemma same_array_put (before a : option (Buffer JS.number)) l :
  (forall b, before = Some b -> a = Some b) -> same_array before (put a 0 l).
Proof.
  intros H x Hx. rewrite (H x Hx). eexists. split; [reflexivity|].
  by rewrite write_from_id, write_from_length.
Qed.

Lemma ensured_counter args t w : nextBuffer w <= (ensured args t w).2.
Proof.
  unfold ensured, orNew. cbv zeta.
  destruct (positions (attributes t)), (nextPositions (attributes t)), (arg_fp64 args),
    (positions64xyLow (attributes t)), (nextPositions64xyLow (attributes t));
    cbn [snd]; lia.
Qed.

Section Calls.

Variable earcut : list JS.number -> option (list nat) -> nat -> list nat.
Variable Polygon_getTriangleCount : polygon -> nat.

(** A call of a method of the class, with its arguments. *)
Inductive call :=
  | CallUpdatePositions (args : UpdateArgs)
  | CallColors (getColor : option (nat -> ColorValue))
  | CallIndices
  | CallVertexPositions.

(** The tesselator after the call; the methods update it in place. *)
Definition perform (c : call) (t : PolygonTesselator) : M PolygonTesselator :=
  match c with
  | CallUpdatePositions args => updatePositions_method args t
  | CallColors getColor => (let* r := colors_method getColor t in ret r.2)%tess
  | CallIndices => (let* _ := indices earcut Polygon_getTriangleCount t in ret t)%tess
  | CallVertexPositions => (let* _ := vertexPositions t in ret t)%tess
  end.

Fixpoint performAll (cs : list call) (t : PolygonTesselator) : M PolygonTesselator :=
  match cs with
  | [] => ret t
  | c :: cs' => (let* t := perform c t in performAll cs' t)%tess
  end.

(** What a call keeps. *)
Definition kept (t : PolygonTesselator) (w : World) (t' : PolygonTesselator) (w' : World)
    : Prop :=
  tesselator_ok t' /\
  polygons t' = polygons t /\ pointCount t' = pointCount t /\
  pickingColors_method t' = pickingColors_method t /\
  same_array (positions_method t) (positions_method t') /\
  same_array (nextPositions_method t) (nextPositions_method t') /\
  same_array (positions64xyLow_method t) (positions64xyLow_method t') /\
  same_array (nextPositions64xyLow_method t) (nextPositions64xyLow_method t') /\
  same_array (colors (attributes t)) (colors (attributes t')) /\
  nextBuffer w <= nextBuffer w'.

Lemma kept_refl t w : tesselator_ok t -> kept t w t w.
Proof. intros Hok. split; [exact Hok|]. repeat split; try done; apply same_array_refl. Qed.

Lemma kept_trans t1 w1 t2 w2 t3 w3 :
  kept t1 w1 t2 w2 -> kept t2 w2 t3 w3 -> kept t1 w1 t3 w3.
Proof.
  intros (_ & P1 & C1 & K1 & A1 & A2 & A3 & A4 & A5 & N1)
         (Hok & P2 & C2 & K2 & B1 & B2 & B3 & B4 & B5 & N2).
  split; [done|]. split; [congruence|]. split; [congruence|]. split; [congruence|].
  repeat split; try (eapply same_array_trans; eassumption). lia.
Qed.

Lemma perform_kept c t w :
  tesselator_ok t -> exists t' w', perform c t w = (inr t', w') /\ kept t w t' w'.
Proof.
  intros Hok. destruct c as [args|getColor| |]; cbn [perform].
  - destruct (updatePositions_method_spec args t w Hok)
      as (t' & w' & bp & bn & Hrun & Hok' & Hps & Hpc & _).
    exists t', w'. split; [done|].
    rewrite updatePositions_method_eq in Hrun. cbv zeta in Hrun. injection Hrun as <- <-.
    destruct (ensured_some args t w)
      as (_ & _ & _ & _ & Hp & Hn & Hl & Hnl & _ & Hpick & Hcol).
    cbv zeta in Hp, Hn, Hl, Hnl, Hpick, Hcol.
    split; [done|]. split; [done|]. split; [done|].
    unfold pickingColors_method, positions_method, nextPositions_method,
      positions64xyLow_method, nextPositions64xyLow_method.
    cbn [attributes pickingColors positions nextPositions positions64xyLow
         nextPositions64xyLow colors nextBuffer].
    split; [done|]. split; [by apply same_array_put|]. split; [by apply same_array_put|].
    split; [by apply same_array_put|]. split; [by apply same_array_put|].
    split; [rewrite Hcol; apply same_array_refl|]. apply ensured_counter.
  - destruct (colors_method_length getColor t w Hok) as (c & t' & w' & Hrun & Hc & Hlen).
    unfold bind. rewrite Hrun. unfold ret. cbn [snd]. exists t', w'. split; [done|].
    rewrite colors_method_eq in Hrun. injection Hrun as Ec <- <-.
    destruct (colors_loop_same (colorsAccessor getColor) (polygons t) 0
                (mkColorState 0 (colorsBuffer t w) (jsArrays w) [])) as [Hid Hl].
    fold (colorsLoop getColor t w) in Hid, Hl. cbn [cs_colors] in Hid, Hl.
    rewrite Ec in Hid, Hl.
    unfold pickingColors_method, positions_method, nextPositions_method,
      positions64xyLow_method, nextPositions64xyLow_method.
    cbn [attributes polygons pointCount pickingColors positions nextPositions
         positions64xyLow nextPositions64xyLow colors nextBuffer].
    split.
    { destruct Hok as [H1 H2 H3 H4 H5 H6 H7]. constructor;
        cbn [attributes polygons pointCount pickingColors positions nextPositions
             positions64xyLow nextPositions64xyLow colors]; try done.
      rewrite Ec. by apply has_length_Some. }
    split; [done|]. split; [done|]. split; [done|].
    split; [apply same_array_refl|]. split; [apply same_array_refl|].
    split; [apply same_array_refl|]. split; [apply same_array_refl|].
    split.
    + intros x Hx. rewrite Ec. exists c. split; [done|].
      unfold colorsBuffer in Hid, Hl. rewrite Hx in Hid, Hl. done.
    + unfold colorsCounter. cbn [nextBuffer]. destruct (colors (attributes t)); lia.
  - unfold indices, bind. rewrite calculateIndices_eq. unfold overflows. cbn [default].
    unfold ret. eexists _, _. split; [reflexivity|].
    split; [done|]. repeat split; try done; try apply same_array_refl. cbn. lia.
  - unfold vertexPositions, bind, new_array, ret. eexists _, _. split; [reflexivity|].
    split; [done|]. repeat split; try done; try apply same_array_refl. cbn. lia.
Qed.

(** X9: on a tesselator whose arrays have the lengths the cached vertex count
    asks for (as they have after construction), no sequence of calls of
    [updatePositions], [colors], [indices] and [vertexPositions] throws; the
    calls keep the polygons, the vertex count and the picking-colour array as
    they are, an attribute that was once assigned stays assigned to the same
    array object, and every array keeps its length. *)
Theorem tesselator_methods_keep_arrays (calls : list call) (t : PolygonTesselator)
    (w : World) :
  tesselator_ok t ->
  exists t' w',
    performAll calls t w = (inr t', w') /\
    tesselator_ok t' /\
    polygons t' = polygons t /\ pointCount t' = pointCount t /\
    pickingColors_method t' = pickingColors_method t /\
    same_array (positions_method t) (positions_method t') /\
    same_array (nextPositions_method t) (nextPositions_method t') /\
    same_array (positions64xyLow_method t) (positions64xyLow_method t') /\
    same_array (nextPositions64xyLow_method t) (nextPositions64xyLow_method t') /\
    same_array (colors (attributes t)) (colors (attributes t')) /\
    nextBuffer w <= nextBuffer w'.
Proof.
  revert t w. induction calls as [|c calls IH]; intros t w Hok; cbn [performAll].
  - exists t, w. split; [done|]. by apply kept_refl.
  - destruct (perform_kept c t w Hok) as (t1 & w1 & Hrun & Hkept).
    unfold bind. rewrite Hrun.
    destruct (IH t1 w1 (proj1 Hkept)) as (t' & w' & Hrun' & Hkept').
    exists t', w'. split; [done|]. exact (kept_trans _ _ _ _ _ _ Hkept Hkept').
Qed.

End Calls.

(** ** The benchmark's [testTesselator] *)

Section BenchProperties.

Variable earcut : list JS.number -> option (list nat) -> nat -> list nat.
Variable Polygon_getTriangleCount : polygon -> nat.

Abbreviation testTesselator' := (testTesselator earcut Polygon_getTriangleCount).

(** X10: on a tesselator fresh from the constructor, [testTesselator] does not
    throw; its [positions] entry is an array of 3 numbers per vertex and its
    [nextPositions] entry is that same array, not the array of next positions
    the tesselator holds; the index, vertex-position and colour arrays are
    three further arrays, allocated by the call, and the picking colours are
    the array of the constructor. *)
Theorem testTesselator_result (ps : list polygon) (w0 : World) (t : PolygonTesselator)
    (w : World) (args : UpdateArgs) :
  constructor ps w0 = (inr t, w) ->
  exists r t' w' bp bn,
    testTesselator' t args w = (inr (r, t'), w') /\
    r_positions r = Some bp /\ r_nextPositions r = Some bp /\
    length (buf_data bp) = pointCount t * 3 /\
    nextPositions_method t' = Some bn /\ buf_id bn <> buf_id bp /\
    r_pickingColors r = pickingColors_method t /\
    length (buf_data (r_indices r)) = 3 * getTriangleCount Polygon_getTriangleCount (polygons t) /\
    buf_data (r_vertexPositions r) = replicate (pointCount t * 2) JS.zero /\
    length (buf_data (r_colors r)) = pointCount t * 4 /\
    NoDup [buf_id (r_pickingColors r); buf_id bp; buf_id bn; buf_id (r_indices r);
           buf_id (r_vertexPositions r); buf_id (r_colors r)].
Proof.
  intros Hc. pose proof (constructor_ok _ _ _ _ Hc) as Hok.
  destruct (constructor_inv _ _ _ _ Hc)
    as (qs & _ & _ & _ & Hw & Hpid & _ & Hp & Hn & Hlo & Hnl & Hcol).
  unfold testTesselator, bind.
  destruct (updatePositions_method_spec args t w Hok)
    as (t1 & w1 & bp & bn & Hrun & Hok1 & Hps & Hpc & _ & Hbp & Hbn & Lp & Ln & _).
  rewrite Hrun.
  rewrite updatePositions_method_eq in Hrun. cbv zeta in Hrun. injection Hrun as Et Ew.
  unfold indices. rewrite calculateIndices_eq. unfold overflows. cbn [default].
  unfold vertexPositions, new_array. cbn [nextBuffer].
  rewrite colors_method_eq. unfold ret. cbn [fst snd].
  eexists _, _, _, bp, bn. split; [reflexivity|].
  cbn [r_positions r_nextPositions r_pickingColors r_indices r_vertexPositions r_colors
       buf_data buf_id].
  unfold positions_method, nextPositions_method, pickingColors_method.
  cbn [attributes nextPositions pickingColors].
  assert (buf_id bp = nextBuffer w /\ buf_id bn = S (nextBuffer w) /\
          nextBuffer w <= nextBuffer w1 /\ S (S (nextBuffer w)) <= nextBuffer w1 /\
          pickingColors (attributes t1) = pickingColors (attributes t) /\
          colors (attributes t1) = None) as (Ibp & Ibn & _ & Hw1 & Hpk & Hc1).
  { rewrite <- Et in Hbp, Hbn |- *. rewrite <- Ew.
    cbn [attributes positions nextPositions pickingColors colors nextBuffer] in *.
    unfold ensured, orNew in *. cbv zeta in *. rewrite Hp, Hn, Hlo, Hnl, Hcol in *.
    destruct (arg_fp64 args);
      cbn [fst snd positions nextPositions pickingColors colors put fmap option_fmap
           option_map] in *;
      injection Hbp as <-; injection Hbn as <-;
      rewrite !write_from_id; cbn [buf_id]; repeat split; lia. }
  split; [done|]. split; [done|]. split; [done|]. split; [done|].
  split; [lia|]. split; [done|].
  split.
  { by rewrite indexData_length, Hps. }
  split; [by rewrite Hpc|].
  match goal with |- context [colorsLoop None t1 ?w3] =>
    destruct (colors_loop_same (colorsAccessor None) (polygons t1) 0
                (mkColorState 0 (colorsBuffer t1 w3) (jsArrays w3) [])) as [Hid Hl];
    fold (colorsLoop None t1 w3) in Hid, Hl; rewrite Hid, Hl
  end.
  unfold colorsBuffer. rewrite Hc1, Hpk, Hpid, Ibp, Ibn. cbn [cs_colors buf_id buf_data nextBuffer].
  split; [by rewrite length_replicate, Hpc|].
  assert (nextBuffer w = S (nextBuffer w0)) as Hw0 by (by rewrite Hw).
  repeat (apply NoDup_cons; split;
          [rewrite ?elem_of_cons, elem_of_nil; lia|]).
  apply NoDup_nil_2.
Qed.

End BenchProperties.

(** ** The position pass: the low parts of the next positions *)

Lemma ring_lowStream_lookup (g : Ring -> Ring) trs R q ring m v c x :
  (forall r, length (g r) = length r) ->
  trs !! R = Some (q, ring) -> g ring !! m = Some v ->
  vertexLow v !! c = Some x ->
  concat ((fun qr : nat * Ring => lowOf (g qr.2)) <$> trs)
    !! (2 * (ringStart trs R + m) + c) = Some x.
Proof.
  intros g_length. revert R. induction trs as [|[q0 r0] trs IH]; intros R HR Hv Hx; [done|].
  rewrite fmap_cons. cbn [concat fst snd].
  pose proof (lookup_lt_Some _ _ _ Hx) as Hc. change (length (vertexLow _)) with 2 in Hc.
  destruct R as [|R]; simpl in HR.
  - injection HR as -> ->. unfold ringStart. cbn [take fmap list_fmap sum_list Nat.add].
    pose proof (lookup_lt_Some _ _ _ Hv) as Hm.
    rewrite lookup_app_l by (rewrite length_lowOf; lia).
    by apply (lookup_concat_uniform vertexLow 2) with (a := v).
  - rewrite ringStart_cons. cbn [snd].
    rewrite lookup_app_r; rewrite length_lowOf, g_length; [|lia].
    replace (2 * (length r0 + ringStart trs R + m) + c - 2 * length r0)
      with (2 * (ringStart trs R + m) + c) by lia.
    by apply IH.
Qed.

(** X11: after [updatePositions] with the extrusion flag and the 64-bit flag,
    the two entries of [nextPositions64xyLow] at the slot of vertex m of a
    ring of k vertices are the two entries of [positions64xyLow] at the slot
    of vertex (m + 1) mod k of the same ring: the low parts of the next
    positions wrap around the ring like the next positions themselves. *)
Theorem updatePositions_next_low_wraps (args : UpdateArgs) (t : PolygonTesselator)
    (w : World) :
  tesselator_ok t -> arg_extruded args = true -> arg_fp64 args = true ->
  exists t' w' bl bnl,
    updatePositions_method args t w = (inr t', w') /\
    positions64xyLow_method t' = Some bl /\
    nextPositions64xyLow_method t' = Some bnl /\
    forall R q ring m c,
      allRings (polygons t) !! R = Some (q, ring) -> m < length ring -> c < 2 ->
      exists v x,
        ring !! ((m + 1) mod length ring) = Some v /\
        vertexLow v !! c = Some x /\
        buf_data bnl !! (2 * (ringStart (allRings (polygons t)) R + m) + c)
          = Some (to_float32 x) /\
        buf_data bl
          !! (2 * (ringStart (allRings (polygons t)) R + (m + 1) mod length ring) + c)
          = Some (to_float32 x).
Proof.
  intros Hok He Hf.
  destruct (updatePositions_method_spec args t w Hok)
    as (t' & w' & bp & bn & Hrun & _ & _ & _ & _ & _ & _ & _ & _ & _ & _ & Hlow).
  destruct (Hlow Hf) as (bl & bnl & Hbl & Hbnl & _ & _ & Hl & Hnl).
  specialize (Hnl He).
  exists t', w', bl, bnl. split; [done|]. split; [done|]. split; [done|].
  intros R q ring m c HR Hm Hc.
  assert ((m + 1) mod length ring < length ring) as Hmod
    by (apply Nat.mod_upper_bound; lia).
  destruct (lookup_lt_is_Some_2 ring _ Hmod) as [v Hv].
  destruct (lookup_lt_is_Some_2 (vertexLow v) c Hc) as [x Hx].
  exists v, x. split; [done|]. split; [done|]. split.
  - apply Hnl. unfold nextLowStream.
    apply (ring_lowStream_lookup nextAlong _ R q ring m v c x length_nextAlong HR); [|done].
    by rewrite nextAlong_lookup.
  - apply Hl. unfold lowStream.
    by apply (ring_lowStream_lookup id _ R q ring _ v c x ltac:(done) HR).
Qed.

(** ** [flattenVertices2] on scalars *)

Section FlattenProperties.

Context {Container : Type}.
Variable flattenVertices : Container -> list JS.value -> nat -> list JS.value.

Definition flattenStep (dimensions : nat)
    : list JS.value * nat -> Nested.element Container -> nat -> list JS.value * nat :=
  fun '(result, vertexLength) value _ =>
    match value with
    | Nested.Contained c => (flattenVertices c result dimensions, vertexLength)
    | Nested.Scalar v =>
        if vertexLength <? dimensions then (result ++ [v], S vertexLength)
        else (result, vertexLength)
    end.

Lemma flatten_scalars dimensions (values : list JS.value) idx result n :
  n <= dimensions ->
  forEach_from (flattenStep dimensions) idx (Nested.Scalar <$> values) (result, n)
  = (result ++ take (dimensions - n) values, n + length (take (dimensions - n) values)).
Proof.
  revert idx result n. induction values as [|v values IH]; intros idx result n Hn.
  - cbn. by rewrite take_nil, app_nil_r, Nat.add_0_r.
  - rewrite fmap_cons. cbn [forEach_from flattenStep].
    destruct (n <? dimensions) eqn:E.
    + apply Nat.ltb_lt in E. rewrite IH by lia.
      replace (dimensions - n) with (S (dimensions - S n)) by lia.
      cbn [take length]. rewrite <- app_assoc. f_equal. lia.
    + apply Nat.ltb_ge in E. rewrite IH by lia.
      replace (dimensions - n) with 0 by lia. by rewrite take_0.
Qed.

(** X12: on an array of elements none of which is a container,
    [flattenVertices2] appends the first [dimensions] elements to [result],
    and one 0 after them when there are fewer than [dimensions] and at least
    one; so a vertex of two ordinates becomes three numbers, and a vertex of
    one ordinate becomes two. *)
Theorem flattenVertices2_of_scalars (values : list JS.value) (result : list JS.value)
    (dimensions : nat) :
  Nested.flattenVertices2 flattenVertices (Nested.Scalar <$> values) result dimensions
  = result ++ take dimensions values
    ++ (if (0 <? length values) && (length values <? dimensions)
        then [JS.Num (JS.of_Z 0)] else []).
Proof.
  unfold Nested.flattenVertices2, forEach.
  match goal with |- context [forEach_from ?f 0 ?l (result, 0)] =>
    change (forEach_from f 0 l (result, 0))
      with (forEach_from (flattenStep dimensions) 0 l (result, 0))
  end.
  rewrite flatten_scalars by lia. rewrite Nat.sub_0_r, Nat.add_0_l, length_take.
  destruct (decide (length values < dimensions)) as [Hlt|Hge].
  - rewrite Nat.min_r by lia.
    destruct (0 <? length values) eqn:E0; cbn [andb].
    + apply Nat.ltb_lt in Hlt as ->. by rewrite <- app_assoc.
    + by rewrite app_nil_r.
  - rewrite Nat.min_l by lia.
    assert ((dimensions <? dimensions) = false) as -> by (apply Nat.ltb_ge; lia).
    assert ((length values <? dimensions) = false) as -> by (apply Nat.ltb_ge; lia).
    by rewrite !andb_false_r, app_nil_r.
Qed.

End FlattenProperties.

(** On the rings of a complex polygon, where every element is a container,
    this is [flattenVertices2] of the index assembly. *)
Lemma flattenVertices2_of_rings (rings : list Ring) :
  Nested.flattenVertices2
    (fun (ring : Ring) result dimensions => result ++ (JS.Num <$> flattenVertices dimensions ring))
    (Nested.Contained <$> rings) [] 3
  = JS.Num <$> flattenVertices2 rings.
Proof.
  unfold Nested.flattenVertices2, flattenVertices2, forEach.
  assert (forall idx result,
            forEach_from
              (fun '(result, vertexLength) (value : Nested.element Ring) (_ : nat) =>
                 match value with
                 | Nested.Contained c =>
                     (result ++ (JS.Num <$> flattenVertices 3 c), vertexLength)
                 | Nested.Scalar v =>
                     if vertexLength <? 3 then (result ++ [v], S vertexLength)
                     else (result, vertexLength)
                 end)
              idx (Nested.Contained <$> rings) (JS.Num <$> result, 0)
            = (JS.Num <$> forEach_from
                 (fun result (value : Ring) (_ : nat) => result ++ flattenVertices 3 value)
                 idx rings result, 0)) as H.
  { induction rings as [|r rs IH]; intros idx result; [done|].
    rewrite fmap_cons. cbn [forEach_from]. rewrite <- fmap_app. apply IH. }
  specialize (H 0 []). cbn [fmap list_fmap] in H. by rewrite H.
Qed.

(** ** The solid polygon layer: geometry updates *)

Section LayerProperties.

Context {Datum Trigger : Type}.
Variable compareProps : Trigger -> Trigger -> bool.
Variable Layer_updateState : LayerState -> LayerState.

Abbreviation Props := (LayerProps Datum Trigger).

Lemma constructor_fails ps w e :
  normalizeAll ps = inl e -> constructor ps w = (inl e, w).
Proof. intros H. unfold constructor, bind, lift. by rewrite H. Qed.

Lemma constructor_succeeds ps w qs :
  normalizeAll ps = inr qs ->
  exists t, constructor ps w
            = (inr t, mkWorld (S (nextBuffer w)) (jsArrays w) (heightCalls w) (colorCalls w)) /\
    polygons t = qs /\ pointCount t = getPointCount qs.
Proof.
  intros H. unfold constructor, bind, lift. rewrite H.
  rewrite calculatePickingColors_unfold. unfold ret. eexists. split; [reflexivity|]. done.
Qed.

(** X13: when the data or the polygon accessor changed, [updateGeometry] throws
    the error of the constructor if a polygon is not valid, leaving the layer
    as it was; otherwise it installs a new tesselator on the normalized
    polygons of the data, tells the attribute manager to invalidate all
    attributes, and runs the position pass on the new tesselator before it
    returns, so that [calculatePositions] and [calculateNextPositions] find
    arrays of 3 numbers per vertex. *)
Theorem updateGeometry_rebuilds (props oldProps : Props) (changeFlags : ChangeFlags)
    (state : LayerState) (w : World) :
  geometryConfigChanged changeFlags = true ->
  match normalizeAll (props_getPolygon props <$> props_data props) with
  | inl e =>
      updateGeometry compareProps props oldProps changeFlags state w
        = (inl (TesselatorError e), w)
  | inr qs =>
      exists t w' bp bn,
        updateGeometry compareProps props oldProps changeFlags state w
          = (inr (mkLayerState (Some t) (attributeManager state ++ [InvalidateAll])
                    (modelsChanged state) (models state)), w') /\
        polygons t = qs /\ pointCount t = getPointCount qs /\
        heightCalls w' = heightCalls w
                         ++ (if props_extruded props then seq 0 (length qs) else []) /\
        calculatePositions
          (mkLayerState (Some t) (attributeManager state ++ [InvalidateAll])
             (modelsChanged state) (models state)) w' = (inr (Some bp), w') /\
        calculateNextPositions
          (mkLayerState (Some t) (attributeManager state ++ [InvalidateAll])
             (modelsChanged state) (models state)) w' = (inr (Some bn), w') /\
        length (buf_data bp) = pointCount t * 3 /\
        length (buf_data bn) = pointCount t * 3
  end.
Proof.
  intros Hg. unfold updateGeometry, shouldUpdatePositions. rewrite Hg. cbn [orb].
  destruct (normalizeAll (props_getPolygon props <$> props_data props)) as [e|qs] eqn:Hn.
  - unfold lbind, call_tesselator. by rewrite (constructor_fails _ _ _ Hn).
  - destruct (constructor_succeeds _ w _ Hn) as (t0 & Hc & Hps & Hpc).
    pose proof (constructor_ok _ _ _ _ Hc) as Hok.
    destruct (updatePositions_method_spec (positionArgs props) t0
                (mkWorld (S (nextBuffer w)) (jsArrays w) (heightCalls w) (colorCalls w)) Hok)
      as (t & w' & bp & bn & Hrun & _ & Hps' & Hpc' & Hcalls & Hbp & Hbn & Lp & Ln & _).
    exists t, w', bp, bn.
    unfold lbind, call_tesselator. rewrite Hc. unfold lret.
    cbn [polygonTesselator attributeManager modelsChanged models]. rewrite Hrun.
    split; [done|]. split; [congruence|]. split; [congruence|].
    split; [by rewrite Hcalls, Hps|].
    unfold calculatePositions, calculateNextPositions, lret, positions_method,
      nextPositions_method. cbn [polygonTesselator]. rewrite Hbp, Hbn.
    split; [done|]. split; [done|]. split; congruence.
Qed.

(** X14: [updateGeometry] throws a [TypeError] exactly when the positions are to
    be updated (the elevation trigger, the extrusion flag or the 64-bit flag
    changed) while neither the data nor the polygon accessor changed and the
    layer has no tesselator yet. *)
Theorem updateGeometry_type_error_iff (props oldProps : Props) (changeFlags : ChangeFlags)
    (state : LayerState) (w : World) :
  (exists w', updateGeometry compareProps props oldProps changeFlags state w
              = (inl TypeError, w'))
  <-> geometryConfigChanged changeFlags = false /\
      shouldUpdatePositions compareProps props oldProps changeFlags = true /\
      polygonTesselator state = None.
Proof.
  unfold updateGeometry.
  destruct (geometryConfigChanged changeFlags) eqn:Hg.
  - split; [|by intros [? _]]. intros [w' H]. exfalso. revert H.
    assert (shouldUpdatePositions compareProps props oldProps changeFlags = true) as ->
      by (unfold shouldUpdatePositions; by rewrite Hg).
    unfold lbind, call_tesselator.
    destruct (normalizeAll (props_getPolygon props <$> props_data props)) as [e|qs] eqn:Hn.
    + by rewrite (constructor_fails _ _ _ Hn).
    + destruct (constructor_succeeds _ w _ Hn) as (t0 & -> & _). unfold lret.
      cbn [polygonTesselator]. rewrite updatePositions_method_eq. done.
  - unfold lbind, lret at 1.
    destruct (shouldUpdatePositions compareProps props oldProps changeFlags) eqn:Hs.
    + destruct (polygonTesselator state) as [t|] eqn:Ht.
      * split; [|by intros (_ & _ & [=])]. intros [w' H]. exfalso. revert H.
        unfold call_tesselator. rewrite updatePositions_method_eq. done.
      * split; [done|]. intros _. by exists w.
    + split; [|by intros (_ & [=] & _)]. by intros [w' [=]].
Qed.

(** X15: after the geometry update, [updateState] asks the attribute manager to
    invalidate the attributes that depend on [extruded] exactly when the
    extrusion flag is the same as before, and those that depend on [fp64]
    exactly when the 64-bit flag is the same as before; a flag that changed
    triggers no invalidation of its own. The tesselator is the one the
    geometry update left. *)
Theorem updateState_invalidates_unchanged (props oldProps : Props)
    (changeFlags : ChangeFlags) (state : LayerState) (w : World) :
  match updateGeometry compareProps props oldProps changeFlags (Layer_updateState state) w with
  | (inl e, w') =>
      updateState compareProps Layer_updateState props oldProps changeFlags state w
        = (inl e, w')
  | (inr updated, w') =>
      exists state',
        updateState compareProps Layer_updateState props oldProps changeFlags state w
          = (inr state', w') /\
        polygonTesselator state' = polygonTesselator updated /\
        attributeManager state'
          = attributeManager updated
            ++ (if eqb (props_extruded props) (props_extruded oldProps)
                then [Invalidate "extruded"%string] else [])
            ++ (if eqb (props_fp64 props) (props_fp64 oldProps)
                then [Invalidate "fp64"%string] else [])
  end.
Proof.
  unfold updateState, lbind.
  destruct (updateGeometry compareProps props oldProps changeFlags (Layer_updateState state) w)
    as [[e|updated] w']; [done|].
  eexists. split; [reflexivity|].
  destruct (props_extruded props), (props_extruded oldProps), (props_fp64 props),
    (props_fp64 oldProps), (props_wireframe props), (props_wireframe oldProps);
    cbn; by rewrite <- ?app_assoc, ?app_nil_r.
Qed.

End LayerProperties.

(** ** The index type *)





(** ** The map controller: the limits of zoom and pitch *)

Section ViewportProperties.

Import MapController.

Variable project : ViewportProps -> JS.value * JS.value -> JS.value * JS.value.
Variable unproject : ViewportProps -> JS.value * JS.value -> JS.value * JS.value.
Variable Math_log2 : JS.number -> JS.number.

Abbreviation getViewportProps' := (getViewportProps project unproject Math_log2).

(** The pitch, the bearing, the zoom and the lower limits, as
    [getViewportProps] reads them from the view state. *)
Definition givenPitch (viewState : ViewStateProps) : JS.value :=
  or_default (JS.of_Z 0) (vs_pitch viewState).
Definition givenBearing (viewState : ViewStateProps) : JS.value :=
  or_default (JS.of_Z 0) (vs_bearing viewState).
Definition givenMinPitch (viewState : ViewStateProps) : JS.value :=
  default (minPitch MAPBOX_LIMITS) (vs_minPitch viewState).
Definition givenMinZoom (viewState : ViewStateProps) : JS.value :=
  default (minZoom MAPBOX_LIMITS) (vs_minZoom viewState).

(** The props before the latitude range is looked at, when the longitude and
    the bearing pass the tests on degrees. *)
Definition limitedProps (viewState : ViewStateProps) : ViewportProps :=
  mkViewportProps (vs_width viewState) (vs_height viewState)
    (vs_longitude viewState)
    (vs_latitude viewState)
    (if lt (vs_zoom viewState) (givenMinZoom viewState)
     then givenMinZoom viewState else vs_zoom viewState)
    (if lt (givenPitch viewState) (givenMinPitch viewState)
     then givenMinPitch viewState else givenPitch viewState)
    (givenBearing viewState)
    (or_default (decimal 15 10) (vs_altitude viewState))
    (default (maxZoom MAPBOX_LIMITS) (vs_maxZoom viewState))
    (givenMinZoom viewState)
    (default (maxPitch MAPBOX_LIMITS) (vs_maxPitch viewState))
    (givenMinPitch viewState)
    (default (maxLatitude MAPBOX_LIMITS) (vs_maxLatitude viewState))
    (default (minLatitude MAPBOX_LIMITS) (vs_minLatitude viewState)).

(** Whether the flat map of the limited props is lower than the viewport: the
    test [bottomY - topY < height]. *)
Definition mapTooLow (viewState : ViewStateProps) : bool :=
  let '(_, (topY, bottomY)) := _getLatitudeRange project (limitedProps viewState) in
  lt (JS.Num (JS.sub (JS.ToNumber bottomY) (JS.ToNumber topY))) (vs_height viewState).

(** X16: [getViewportProps] throws a ReferenceError exactly when the
    longitude, or the bearing (0 when there is none), is below -180 or above
    180, because [mod] is not bound.  Otherwise it returns props with the
    longitude and the bearing as given, and it applies the lower limits only:
    the pitch is the pitch of the view state (0 when there is none), replaced
    by [minPitch] when it is below [minPitch]; the zoom, when the flat map is
    not lower than the viewport, is the zoom of the view state, replaced by
    [minZoom] when it is below [minZoom].  [maxPitch] and [maxZoom] have no
    influence on either: a pitch above [maxPitch] and a zoom above [maxZoom]
    are returned as they are. *)
Theorem getViewportProps_lower_limits_only (viewState : ViewStateProps) :
  if outside180 (vs_longitude viewState) || outside180 (givenBearing viewState)
  then getViewportProps' viewState = inl ReferenceError
  else
    exists props,
      getViewportProps' viewState = inr props /\
      longitude props = vs_longitude viewState /\
      bearing props = givenBearing viewState /\
      pitch props
        = (if lt (givenPitch viewState) (givenMinPitch viewState)
           then givenMinPitch viewState else givenPitch viewState) /\
      (mapTooLow viewState = false ->
       zoom props
         = (if lt (vs_zoom viewState) (givenMinZoom viewState)
            then givenMinZoom viewState else vs_zoom viewState)).
Proof.
  unfold getViewportProps, mapTooLow. cbv zeta.
  fold (givenPitch viewState) (givenBearing viewState) (givenMinPitch viewState)
    (givenMinZoom viewState).
  destruct (outside180 (vs_longitude viewState)); [done|].
  destruct (outside180 (givenBearing viewState)); [done|]. cbn [orb].
  change (mkViewportProps (vs_width viewState) _ _ _ _ _ _ _ _ _ _ _ _ _)
    with (limitedProps viewState).
  destruct (_getLatitudeRange project (limitedProps viewState)) as [viewport [topY bottomY]].
  destruct (lt (JS.Num (JS.sub (JS.ToNumber bottomY) (JS.ToNumber topY)))
              (vs_height viewState)).
  - destruct (_getLatitudeRange project (set_zoom (limitedProps viewState) _))
      as [viewport' [topY' bottomY']].
    destruct (JS.truthy _); (eexists; split; [reflexivity|]; by repeat split).
  - destruct (JS.truthy _); (eexists; split; [reflexivity|]; by repeat split).
Qed.

End ViewportProperties.

(** ** The trip decoder: what [shiftTrip] keeps *)

Section ShiftProperties.

Import HeroDataDecoder.

Variable TRAIL_LENGTH : JS.number.
Variable offset : JS.number.

(** The test [t < -TRAIL_LENGTH] on the shifted time of a point. *)
Definition beforeTrail (p : list JS.value) : bool :=
  SFltb (shiftedTime offset p) (SFopp TRAIL_LENGTH).

Definition shiftPoint (p : list JS.value) : list JS.value :=
  [JS.get id p 0; JS.get id p 1; JS.Num (shiftedTime offset p)].

Definition shiftStep : nat * list (list JS.value) -> list JS.value -> nat
    -> nat * list (list JS.value) :=
  fun '(cutoffIndex, mapped) p i =>
    let t := shiftedTime offset p in
    let cutoffIndex := if SFltb t (SFopp TRAIL_LENGTH) then i else cutoffIndex in
    (cutoffIndex, mapped ++ [[JS.get id p 0; JS.get id p 1; JS.Num t]]).

Lemma shift_loop segs idx c mapped :
  c <= idx ->
  let r := forEach_from shiftStep idx segs (c, mapped) in
  r.2 = mapped ++ (shiftPoint <$> segs) /\
  (r.1 = c /\ (forall j p, segs !! j = Some p -> beforeTrail p = false) \/
   exists j p, r.1 = idx + j /\ segs !! j = Some p /\ beforeTrail p = true /\
     forall k q, segs !! k = Some q -> j < k -> beforeTrail q = false).
Proof.
  revert idx c mapped. induction segs as [|p segs IH]; intros idx c mapped Hc; cbv zeta.
  - cbn. split; [by rewrite app_nil_r|]. left. by split.
  - cbn [forEach_from shiftStep]. cbv zeta.
    fold (beforeTrail p). fold (shiftPoint p).
    destruct (beforeTrail p) eqn:Hb.
    + destruct (IH (S idx) idx (mapped ++ [shiftPoint p]) ltac:(lia)) as [Hm Hcase].
      cbv zeta in Hm, Hcase. split; [by rewrite Hm, <- app_assoc|].
      right. destruct Hcase as [[Hc' Hnone]|(j & q & Hj & Hq & Hbq & Hlast)].
      * exists 0, p. split; [lia|]. split; [done|]. split; [done|].
        intros k q Hq Hk. destruct k as [|k]; [lia|]. by apply (Hnone k).
      * exists (S j), q. split; [lia|]. split; [done|]. split; [done|].
        intros k q' Hq' Hk. destruct k as [|k]; [lia|]. apply (Hlast k); [done|lia].
    + destruct (IH (S idx) c (mapped ++ [shiftPoint p]) ltac:(lia)) as [Hm Hcase].
      cbv zeta in Hm, Hcase. split; [by rewrite Hm, <- app_assoc|].
      destruct Hcase as [[Hc' Hnone]|(j & q & Hj & Hq & Hbq & Hlast)].
      * left. split; [done|]. intros j q Hq. destruct j as [|j].
        -- by injection Hq as <-.
        -- by apply (Hnone j).
      * right. exists (S j), q. split; [lia|]. split; [done|]. split; [done|].
        intros k q' Hq' Hk. destruct k as [|k]; [lia|]. apply (Hlast k); [done|lia].
Qed.

(** X17: [shiftTrip] shifts the start time, the end time and the time of every
    point by the offset and keeps the two other ordinates of a point; it drops
    the points before the last point whose shifted time is before
    [-TRAIL_LENGTH] and keeps that point and all later ones, or keeps all
    points when there is no such point; so a trip with at least one point keeps
    at least one. *)
Theorem shiftTrip_cutoff (trip : Trip) :
  let shifted := shiftTrip TRAIL_LENGTH trip offset in
  startTime shifted = JS.Num (JS.add (JS.ToNumber (startTime trip)) offset) /\
  endTime shifted = JS.Num (JS.add (JS.ToNumber (endTime trip)) offset) /\
  vendor shifted = vendor trip /\
  exists cutoffIndex,
    segments shifted = shiftPoint <$> drop cutoffIndex (segments trip) /\
    (forall k p, segments trip !! k = Some p -> cutoffIndex < k -> beforeTrail p = false) /\
    (cutoffIndex = 0 \/
     exists p, segments trip !! cutoffIndex = Some p /\ beforeTrail p = true) /\
    (segments trip <> [] -> segments shifted <> []).
Proof.
  cbv zeta. unfold shiftTrip, forEach.
  match goal with |- context [forEach_from ?f 0 (segments trip) (0, [])] =>
    change (forEach_from f 0 (segments trip) (0, []))
      with (forEach_from shiftStep 0 (segments trip) (0, []))
  end.
  destruct (shift_loop (segments trip) 0 0 [] ltac:(lia)) as [Hm Hcase].
  cbv zeta in Hm, Hcase.
  destruct (forEach_from shiftStep 0 (segments trip) (0, [])) as [c mapped].
  cbn [fst snd] in Hm, Hcase. cbn [startTime endTime vendor segments].
  split; [done|]. split; [done|]. split; [done|].
  exists c. rewrite Hm. cbn [app]. split; [by rewrite fmap_drop|].
  destruct Hcase as [[-> Hnone]|(j & p & -> & Hp & Hb & Hlast)].
  - split; [intros k p Hp _; by apply (Hnone k)|]. split; [by left|].
    intros Hne. rewrite drop_0. by destruct (segments trip).
  - cbn [Nat.add]. split; [exact Hlast|]. split; [right; by exists p|].
    intros _ Hnil. apply (f_equal length) in Hnil.
    rewrite length_drop, length_fmap in Hnil. pose proof (lookup_lt_Some _ _ _ Hp).
    simpl in Hnil. lia.
Qed.

End ShiftProperties.

(** ** The position pass: every entry is written *)

Lemma write_from_full {A V} (conv : V -> A) (b : Buffer A) l :
  length l = length (buf_data b) -> buf_data (write_from conv b 0 l) = conv <$> l.
Proof.
  intros Hlen. apply list_eq. intros n. rewrite list_lookup_fmap.
  destruct (l !! n) as [v|] eqn:Hv.
  - pose proof (lookup_lt_Some _ _ _ Hv).
    apply (write_from_lookup_in conv b 0 l n v Hv). lia.
  - pose proof (lookup_ge_None_1 _ _ Hv). simpl.
    apply lookup_ge_None_2. rewrite write_from_length. lia.
Qed.

Lemma put_full (a : option (Buffer JS.number)) b l :
  a = Some b -> length l = length (buf_data b) ->
  buf_data <$> put a 0 l = Some (to_float32 <$> l).
Proof. intros -> Hlen. simpl. by rewrite write_from_full. Qed.

Lemma stream_lengths hf polygons :
  length (posStream hf (allRings polygons)) = 3 * getPointCount polygons /\
  length (nextStream hf (allRings polygons)) = 3 * getPointCount polygons /\
  length (lowStream (allRings polygons)) = 2 * getPointCount polygons /\
  length (nextLowStream (allRings polygons)) = 2 * getPointCount polygons.
Proof.
  unfold allRings.
  destruct (length_ring_streams id hf (ringsFrom 0 polygons) ltac:(done)) as [Hp Hl].
  destruct (length_ring_streams nextAlong hf (ringsFrom 0 polygons) length_nextAlong)
    as [Hn Hnl].
  rewrite ringsTotal_ringsFrom in Hp, Hl, Hn, Hnl. by repeat split.
Qed.

(** The elements of the four arrays after a pass, as far as the pass
    determines them. *)
Lemma updatePositions_method_data args t w :
  tesselator_ok t ->
  let hf := heightOf (arg_extruded args) (arg_getHeight args) in
  exists t' w',
    updatePositions_method args t w = (inr t', w') /\
    tesselator_ok t' /\ polygons t' = polygons t /\
    buf_data <$> positions_method t'
      = Some (to_float32 <$> posStream hf (allRings (polygons t))) /\
    (arg_extruded args = true ->
     buf_data <$> nextPositions_method t'
       = Some (to_float32 <$> nextStream hf (allRings (polygons t)))) /\
    (arg_fp64 args = true ->
     buf_data <$> positions64xyLow_method t'
       = Some (to_float32 <$> lowStream (allRings (polygons t)))) /\
    (arg_extruded args = true -> arg_fp64 args = true ->
     buf_data <$> nextPositions64xyLow_method t'
       = Some (to_float32 <$> nextLowStream (allRings (polygons t)))).
Proof.
  intros Hok hf.
  destruct (updatePositions_method_spec args t w Hok)
    as (t' & w' & bp & bn & Hrun & Hok' & Hps & _).
  exists t', w'. split; [done|]. split; [done|]. split; [done|].
  rewrite updatePositions_method_eq in Hrun. cbv zeta in Hrun. injection Hrun as <- _.
  destruct (ensured_spec args t w Hok)
    as (bp0 & bn0 & Hp0 & Hlp0 & Hn0 & Hln0 & Hl0 & Hnl0 & Hfp & _ & _).
  destruct (finalStreams_view args t) as (Sp & Sl & Sn & Snl).
  destruct (stream_lengths hf (polygons t)) as (L1 & L2 & L3 & L4).
  rewrite <- (ok_pointCount t Hok) in L1, L2, L3, L4.
  unfold positions_method, nextPositions_method, positions64xyLow_method,
    nextPositions64xyLow_method.
  cbn [attributes positions nextPositions positions64xyLow nextPositions64xyLow].
  rewrite Sp, Sl, Sn, Snl. fold hf.
  split; [apply (put_full _ bp0); [done|lia]|].
  split; [intros ->; apply (put_full _ bn0); [done|lia]|].
  split.
  - intros Hf. rewrite Hf. destruct (Hfp Hf) as [[bl0 Ebl0] _].
    apply (put_full _ bl0); [done|]. rewrite (Hl0 _ Ebl0). lia.
  - intros -> Hf. rewrite Hf. cbn [andb]. destruct (Hfp Hf) as [_ [bnl0 Ebnl0]].
    apply (put_full _ bnl0); [done|]. rewrite (Hnl0 _ Ebnl0). lia.
Qed.

(** X18: a pass of [updatePositions] overwrites every entry of the arrays it
    writes, so the last pass wins.  After a pass with some arguments, a second
    pass with other arguments leaves in [positions], at each of its 3 entries
    per vertex, the float32 of the ordinates of the vertices with the heights
    of the second pass, and nothing of the first pass; with the extrusion
    flag the same holds of [nextPositions], with the 64-bit flag of
    [positions64xyLow], and with both of [nextPositions64xyLow].  These are the
    elements that the second pass alone would have produced. *)
Theorem updatePositions_last_pass_wins (args1 args2 : UpdateArgs) (t : PolygonTesselator)
    (w : World) :
  tesselator_ok t ->
  exists t1 w1 t2 w2 t2' w2' bp,
    updatePositions_method args1 t w = (inr t1, w1) /\
    updatePositions_method args2 t1 w1 = (inr t2, w2) /\
    updatePositions_method args2 t w = (inr t2', w2') /\
    positions_method t2 = Some bp /\
    length (buf_data bp) = 3 * pointCount t /\
    buf_data bp
      = (to_float32 <$> posStream (heightOf (arg_extruded args2) (arg_getHeight args2))
                          (allRings (polygons t))) /\
    (arg_extruded args2 = true ->
     buf_data <$> nextPositions_method t2
       = Some (to_float32 <$> nextStream (heightOf true (arg_getHeight args2))
                                (allRings (polygons t)))) /\
    (arg_fp64 args2 = true ->
     buf_data <$> positions64xyLow_method t2
       = Some (to_float32 <$> lowStream (allRings (polygons t)))) /\
    (arg_extruded args2 = true -> arg_fp64 args2 = true ->
     buf_data <$> nextPositions64xyLow_method t2
       = Some (to_float32 <$> nextLowStream (allRings (polygons t)))) /\
    buf_data <$> positions_method t2 = buf_data <$> positions_method t2' /\
    (arg_extruded args2 = true ->
     buf_data <$> nextPositions_method t2 = buf_data <$> nextPositions_method t2') /\
    (arg_fp64 args2 = true ->
     buf_data <$> positions64xyLow_method t2 = buf_data <$> positions64xyLow_method t2') /\
    (arg_extruded args2 = true -> arg_fp64 args2 = true ->
     buf_data <$> nextPositions64xyLow_method t2
       = buf_data <$> nextPositions64xyLow_method t2').
Proof.
  intros Hok.
  destruct (updatePositions_method_data args1 t w Hok)
    as (t1 & w1 & Hrun1 & Hok1 & Hps1 & _).
  destruct (updatePositions_method_data args2 t1 w1 Hok1)
    as (t2 & w2 & Hrun2 & _ & _ & Hp & Hn & Hl & Hnl).
  destruct (updatePositions_method_data args2 t w Hok)
    as (t2' & w2' & Hrun2' & _ & _ & Hp' & Hn' & Hl' & Hnl').
  cbv zeta in *. rewrite Hps1 in Hp, Hn, Hl, Hnl.
  destruct (positions_method t2) as [bp|] eqn:Ebp; [|done].
  cbn [fmap option_fmap option_map] in Hp. injection Hp as Hp.
  destruct (stream_lengths (heightOf (arg_extruded args2) (arg_getHeight args2)) (polygons t))
    as (L1 & _).
  exists t1, w1, t2, w2, t2', w2', bp.
  split; [done|]. split; [done|]. split; [done|]. split; [done|].
  split; [by rewrite Hp, length_fmap, L1, (ok_pointCount t Hok)|].
  split; [done|].
  split; [intros He; rewrite (Hn He); by rewrite He|].
  split; [done|]. split; [done|].
  split; [rewrite Ebp, Hp'; cbn [fmap option_fmap option_map]; by rewrite Hp|].
  split; [intros He; by rewrite Hn, Hn'|].
  split; [intros Hf; by rewrite Hl, Hl'|]. intros He Hf. by rewrite Hnl, Hnl'.
Qed.

(** ** Index assembly: the 16-bit check is sufficient *)

Section IndexWidth.

Variable earcut : list JS.number -> option (list nat) -> nat -> list nat.
Variable Polygon_getTriangleCount : polygon -> nat.

Lemma pointCount_le_indexCount (ps : list polygon) :
  (forall q p, ps !! q = Some p ->
     Polygon.getVertexCount p <= 3 * Polygon_getTriangleCount p) ->
  getPointCount ps <= 3 * getTriangleCount Polygon_getTriangleCount ps.
Proof.
  intros H. rewrite getPointCount_sum. unfold getTriangleCount.
  rewrite foldl_add_sum_list. induction ps as [|p ps IH]; [simpl; lia|].
  rewrite !sum_list_fmap_cons.
  pose proof (H 0 p eq_refl).
  specialize (IH (fun q p' Hq => H (S q) p' Hq)). lia.
Qed.

(** X19: the check of [calculateIndices] on the index count is sufficient for
    16-bit indices.  When every polygon has at most three times as many
    vertices as triangles (as it has with three vertices or more) and the
    triangulator returns vertex indices of the polygon it was given, a call
    with [Uint16Array] that does not throw stores every index it stores
    exactly: index plus offset is below 65536 and no index wraps around. *)
Theorem calculateIndices_uint16_exact (polygons : list polygon) (w : World) :
  (forall q p, polygons !! q = Some p ->
     Polygon.getVertexCount p <= 3 * Polygon_getTriangleCount p) ->
  (forall q p k index,
     polygons !! q = Some p -> calculateSurfaceIndices earcut p !! k = Some index ->
     index < Polygon.getVertexCount p) ->
  (Z.of_nat (3 * getTriangleCount Polygon_getTriangleCount polygons) <= 65535)%Z ->
  exists b w',
    calculateIndices earcut Polygon_getTriangleCount polygons (Some Uint16Array) w
      = (inr b, w') /\
    (Z.of_nat (getPointCount polygons) <= 65535)%Z /\
    forall q p k index,
      polygons !! q = Some p -> calculateSurfaceIndices earcut p !! k = Some index ->
      surfaceStart earcut polygons q + k < length (buf_data b) ->
      buf_data b !! (surfaceStart earcut polygons q + k)
        = Some (Z.of_nat (index + offsetOf polygons q)) /\
      (Z.of_nat (index + offsetOf polygons q)%nat < 65536)%Z.
Proof.
  intros Htc Hear Hfit.
  pose proof (pointCount_le_indexCount polygons Htc) as Hle.
  rewrite calculateIndices_eq.
  assert (overflows Polygon_getTriangleCount (Some Uint16Array) polygons = false) as ->.
  { unfold overflows. cbn [default]. by apply Z.ltb_ge. }
  set (n := 3 * getTriangleCount Polygon_getTriangleCount polygons) in *.
  set (b0 := mkBuffer (nextBuffer w) (replicate n 0%Z)).
  destruct (indexOuter_loop earcut Uint16Array (getPolygonOffsets polygons)
              (offsetOf polygons) polygons 0 0 b0) as (_ & Hl & _ & Hnew).
  { intros q Hq. apply getPolygonOffsets_spec. simpl. lia. }
  assert (buf_data (forEach_from (indexOuter earcut Uint16Array (getPolygonOffsets polygons))
                      0 polygons (0, b0)).2
          = indexData earcut Polygon_getTriangleCount Uint16Array polygons) as Hdata.
  { rewrite indexOuter_data. reflexivity. }
  rewrite Hdata in Hl, Hnew.
  eexists _, _. split; [reflexivity|]. split; [lia|].
  intros q p k index Hp Hk Hlen. cbn [buf_data default] in *.
  change (id Uint16Array) with Uint16Array in *.
  assert (Z.of_nat (index + offsetOf polygons q) < 65536)%Z as Hsmall.
  { pose proof (Hear q p k index Hp Hk).
    pose proof (offsetOf_le_total _ _ _ Hp). lia. }
  split; [|lia].
  specialize (Hnew q p k index Hp Hk). cbn [Nat.add index_modulus] in Hnew.
  rewrite Hnew by lia. f_equal. apply Z.mod_small. lia.
Qed.

End IndexWidth.

(** ** The position pass: low parts of float32 coordinates *)

Lemma sub_self (x : JS.number) : JS.isFinite x = true -> JS.sub x x = JS.zero.
Proof.
  destruct x as [[|]| | |s m e]; try done. intros _.
  unfold JS.sub, SFsub. rewrite Z.min_id.
  destruct (shl_align m e e) as [m' e'] eqn:E. cbn [fst].
  by rewrite Z.sub_diag.
Qed.

(** X20: with the 64-bit flag, an ordinate that float32 holds exactly (a finite
    number that [Math.fround] leaves as it is) gets the low part 0: the entry
    of [positions64xyLow] for it is +0. *)
Theorem fp64_low_part_zero_on_float32 (args : UpdateArgs) (t : PolygonTesselator)
    (w : World) :
  tesselator_ok t -> arg_fp64 args = true ->
  exists t' w' bl,
    updatePositions_method args t w = (inr t', w') /\
    positions64xyLow_method t' = Some bl /\
    forall q p k v c x,
      polygons t !! q = Some p -> concat (Polygon.rings p) !! k = Some v ->
      c < 2 -> v !! c = Some x ->
      JS.isFinite x = true -> JS.fround x = x ->
      buf_data bl !! (2 * (offsetOf (polygons t) q + k) + c) = Some JS.zero.
Proof.
  intros Hok Hf.
  destruct (updatePositions_low_parts args t w Hok Hf)
    as (t' & w' & bp & bl & Hrun & _ & Hbl & Hall).
  exists t', w', bl. split; [done|]. split; [done|].
  intros q p k v c x Hp Hv Hc Hx Hfin Hfix.
  destruct (Hall q p k v Hp Hv) as (_ & _ & H0 & H1).
  assert (JS.fround (JS.sub x (JS.fround x)) = JS.zero) as Hz.
  { rewrite Hfix, sub_self by done. reflexivity. }
  destruct c as [|[|c]]; [| |lia].
  - rewrite Nat.add_0_r, H0. unfold JS.get. rewrite Hx. simpl JS.ToNumber. by rewrite Hz.
  - rewrite H1. unfold JS.get. rewrite Hx. simpl JS.ToNumber. by rewrite Hz.
Qed.

(** ** Concrete instances, continued *)

(** A triangulator for the examples: it answers the one triangle 0, 1, 2. *)
Definition oneTriangle : list JS.number -> option (list nat) -> nat -> list nat :=
  fun _ _ _ => [0; 1; 2].

Lemma calculateIndices_contents_witness :
  (Some Uint16Array = Some Uint16Array ->
   (Z.of_nat (3 * getTriangleCount Polygon.getTriangleCount [triangle; triangle])
    <= 65535)%Z) /\
  exists b w',
    calculateIndices oneTriangle Polygon.getTriangleCount [triangle; triangle]
      (Some Uint16Array) initial_world = (inr b, w') /\
    buf_data b = [0; 1; 2; 3; 4; 5]%Z.
Proof.
  assert (Some Uint16Array = Some Uint16Array ->
          (Z.of_nat (3 * getTriangleCount Polygon.getTriangleCount [triangle; triangle])
           <= 65535)%Z) as H by (intros _; vm_compute; discriminate).
  split; [exact H|].
  destruct (calculateIndices_contents oneTriangle Polygon.getTriangleCount
              [triangle; triangle] (Some Uint16Array) initial_world H)
    as (b & w' & Hrun & _).
  exists b, w'. split; [exact Hrun|].
  vm_compute in Hrun. injection Hrun as <- _. reflexivity.
Defined.

Lemma updatePositions_flat_keeps_next_witness :
  arg_extruded (exampleArgs false false) = false /\
  exists t' w' bn,
    updatePositions_method (exampleArgs false false) exampleTesselator exampleWorld
      = (inr t', w') /\
    heightCalls w' = heightCalls exampleWorld /\
    nextPositions_method t' = Some bn /\
    buf_data bn = replicate (pointCount exampleTesselator * 3) JS.zero.
Proof.
  split; [reflexivity|].
  destruct (updatePositions_flat_keeps_next (exampleArgs false false) exampleTesselator
              exampleWorld eq_refl) as (t' & w' & Hrun & Hcalls & _ & _ & Hfresh).
  destruct (Hfresh eq_refl) as (bn & Hbn & Hdata).
  exists t', w', bn. split; [exact Hrun|]. split; [exact Hcalls|].
  split; [exact Hbn | exact Hdata].
Defined.

Lemma tesselator_methods_keep_arrays_witness :
  tesselator_ok exampleTesselator /\
  exists t' w',
    performAll oneTriangle Polygon.getTriangleCount
      [CallUpdatePositions (exampleArgs true true); CallColors None; CallIndices;
       CallVertexPositions; CallUpdatePositions (exampleArgs false false)]
      exampleTesselator exampleWorld = (inr t', w') /\
    polygons t' = polygons exampleTesselator /\
    pickingColors_method t' = pickingColors_method exampleTesselator.
Proof.
  split; [exact example_ok|].
  destruct (tesselator_methods_keep_arrays oneTriangle Polygon.getTriangleCount
              [CallUpdatePositions (exampleArgs true true); CallColors None; CallIndices;
               CallVertexPositions; CallUpdatePositions (exampleArgs false false)]
              exampleTesselator exampleWorld example_ok)
    as (t' & w' & Hrun & _ & Hps & _ & Hpk & _).
  exists t', w'. split; [exact Hrun|]. split; [exact Hps | exact Hpk].
Defined.

Lemma testTesselator_result_witness :
  constructor [triangle0] initial_world = (inr exampleTesselator, exampleWorld) /\
  exists r t' w' bp,
    testTesselator oneTriangle Polygon.getTriangleCount exampleTesselator
      (exampleArgs true false) exampleWorld = (inr (r, t'), w') /\
    r_positions r = Some bp /\ r_nextPositions r = Some bp /\
    nextPositions_method t' <> Some bp.
Proof.
  split; [exact example_constructed|].
  destruct (testTesselator_result oneTriangle Polygon.getTriangleCount [triangle0]
              initial_world exampleTesselator exampleWorld (exampleArgs true false)
              example_constructed)
    as (r & t' & w' & bp & bn & Hrun & Hp & Hn & _ & Hbn & Hne & _).
  exists r, t', w', bp. split; [exact Hrun|]. split; [exact Hp|]. split; [exact Hn|].
  rewrite Hbn. intros [= ->]. by apply Hne.
Defined.

Lemma updatePositions_next_low_wraps_witness :
  tesselator_ok exampleTesselator /\
  exists t' w' bl bnl,
    updatePositions_method (exampleArgs true true) exampleTesselator exampleWorld
      = (inr t', w') /\
    positions64xyLow_method t' = Some bl /\
    nextPositions64xyLow_method t' = Some bnl /\
    buf_data bnl !! (2 * (0 + 2) + 0) = buf_data bl !! (2 * (0 + 0) + 0).
Proof.
  split; [exact example_ok|].
  destruct (updatePositions_next_low_wraps (exampleArgs true true) exampleTesselator
              exampleWorld example_ok eq_refl eq_refl)
    as (t' & w' & bl & bnl & Hrun & Hbl & Hbnl & Hall).
  exists t', w', bl, bnl. split; [exact Hrun|]. split; [exact Hbl|]. split; [exact Hbnl|].
  destruct (Hall 0 0 [pt 0 0; pt 1 0; pt 0 1] 2 0 eq_refl ltac:(simpl; lia) ltac:(lia))
    as (v & x & _ & _ & Hn & Hp).
  change (ringStart (allRings (polygons exampleTesselator)) 0) with 0 in Hn, Hp.
  change ((2 + 1) mod length [pt 0 0; pt 1 0; pt 0 1]) with 0 in Hp.
  rewrite Hn, Hp. reflexivity.
Defined.

(** A layer on the set of one triangle, whose data are the polygons. *)
Definition exampleProps : LayerProps polygon unit :=
  mkLayerProps "layer"%string [triangle0] id (fun _ => JS.of_Z 10)
    (fun _ => ColorArray DEFAULT_COLOR) true false false tt.

Definition emptyLayer : LayerState := mkLayerState None [] false [].

Lemma updateGeometry_rebuilds_witness :
  geometryConfigChanged (mkChangeFlags true None) = true /\
  exists t w' bp,
    updateGeometry (fun _ _ => false) exampleProps exampleProps (mkChangeFlags true None)
      emptyLayer initial_world
      = (inr (mkLayerState (Some t) [InvalidateAll] false []), w') /\
    heightCalls w' = [0] /\
    calculatePositions (mkLayerState (Some t) [InvalidateAll] false []) w'
      = (inr (Some bp), w') /\
    length (buf_data bp) = 9.
Proof.
  split; [reflexivity|].
  pose proof (updateGeometry_rebuilds (fun _ _ => false) exampleProps exampleProps
                (mkChangeFlags true None) emptyLayer initial_world eq_refl) as H.
  assert (normalizeAll (props_getPolygon exampleProps <$> props_data exampleProps)
          = inr [triangle]) as Hn by reflexivity.
  rewrite Hn in H.
  destruct H as (t & w' & bp & bn & Hrun & _ & Hpc & Hcalls & Hpos & _ & Hlen & _).
  exists t, w', bp. split; [exact Hrun|]. split; [exact Hcalls|]. split; [exact Hpos|].
  rewrite Hlen, Hpc. reflexivity.
Defined.

(** A viewport that maps a latitude to minus its value, and a view state of
    pitch 80 and zoom 25 without limits of its own, on a 100 by 100 window. *)
Definition flipped : MapController.ViewportProps -> JS.value * JS.value
    -> JS.value * JS.value :=
  fun _ p => (p.1, JS.Num (SFopp (JS.ToNumber p.2))).

Definition steepViewState : MapController.ViewStateProps :=
  MapController.mkViewStateProps
    (JS.Num (JS.of_Z 100)) (JS.Num (JS.of_Z 100)) (JS.Num (JS.of_Z 0)) (JS.Num (JS.of_Z 0))
    (JS.Num (JS.of_Z 25)) (JS.Num (JS.of_Z 80)) JS.Undefined JS.Undefined
    None None None None None None.

(** The same view state further east, at the longitude 190. *)
Definition farEastViewState : MapController.ViewStateProps :=
  MapController.mkViewStateProps
    (JS.Num (JS.of_Z 100)) (JS.Num (JS.of_Z 100)) (JS.Num (JS.of_Z 190)) (JS.Num (JS.of_Z 0))
    (JS.Num (JS.of_Z 25)) (JS.Num (JS.of_Z 80)) JS.Undefined JS.Undefined
    None None None None None None.

Lemma getViewportProps_lower_limits_only_witness :
  MapController.gt (JS.Num (JS.of_Z 80)) (MapController.maxPitch MapController.MAPBOX_LIMITS)
    = true /\
  MapController.gt (JS.Num (JS.of_Z 25)) (MapController.maxZoom MapController.MAPBOX_LIMITS)
    = true /\
  mapTooLow flipped steepViewState = false /\
  (exists props,
     MapController.getViewportProps flipped flipped id steepViewState = inr props /\
     MapController.pitch props = JS.Num (JS.of_Z 80) /\
     MapController.zoom props = JS.Num (JS.of_Z 25)) /\
  MapController.getViewportProps flipped flipped id farEastViewState
    = inl MapController.ReferenceError.
Proof.
  assert (mapTooLow flipped steepViewState = false) as Hlow by (vm_compute; reflexivity).
  split; [vm_compute; reflexivity|]. split; [vm_compute; reflexivity|].
  split; [exact Hlow|]. split.
  - pose proof (getViewportProps_lower_limits_only flipped flipped id steepViewState) as H.
    assert (MapController.outside180 (MapController.vs_longitude steepViewState)
            || MapController.outside180 (givenBearing steepViewState) = false) as Hin
      by (vm_compute; reflexivity).
    rewrite Hin in H. destruct H as (props & Hrun & _ & _ & Hp & Hz).
    exists props. split; [exact Hrun|]. split.
    + rewrite Hp. vm_compute. reflexivity.
    + rewrite (Hz Hlow). vm_compute. reflexivity.
  - pose proof (getViewportProps_lower_limits_only flipped flipped id farEastViewState) as H.
    assert (MapController.outside180 (MapController.vs_longitude farEastViewState)
            || MapController.outside180 (givenBearing farEastViewState) = true) as Hout
      by (vm_compute; reflexivity).
    rewrite Hout in H. exact H.
Defined.

Lemma updatePositions_last_pass_wins_witness :
  tesselator_ok exampleTesselator /\
  exists t1 w1 t2 w2 b1 bp,
    updatePositions_method (exampleArgs true true) exampleTesselator exampleWorld
      = (inr t1, w1) /\
    updatePositions_method (exampleArgs false true) t1 w1 = (inr t2, w2) /\
    positions_method t1 = Some b1 /\
    buf_data b1 !! 2 = Some (JS.fround (JS.of_Z 10)) /\
    positions_method t2 = Some bp /\
    length (buf_data bp) = 3 * 3 /\
    buf_data bp !! 2 = Some JS.zero /\
    buf_data bp
      = (to_float32 <$> posStream (heightOf false (fun q => JS.of_Z (Z.of_nat q + 10)))
                          (allRings [triangle])).
Proof.
  split; [exact example_ok|].
  destruct (updatePositions_last_pass_wins (exampleArgs true true) (exampleArgs false true)
              exampleTesselator exampleWorld example_ok)
    as (t1 & w1 & t2 & w2 & t2' & w2' & bp & H1 & H2 & _ & Hbp & Hlen & Hdata & _).
  assert (exists b1, positions_method t1 = Some b1 /\
                     buf_data b1 !! 2 = Some (JS.fround (JS.of_Z 10))) as (b1 & Hb1 & Hz).
  { pose proof H1 as H1'. vm_compute in H1'. injection H1' as <- _.
    eexists. split; [reflexivity|]. vm_compute. reflexivity. }
  exists t1, w1, t2, w2, b1, bp.
  split; [exact H1|]. split; [exact H2|]. split; [exact Hb1|]. split; [exact Hz|].
  split; [exact Hbp|]. split; [exact Hlen|].
  split; [rewrite Hdata; vm_compute; reflexivity | exact Hdata].
Defined.

Lemma calculateIndices_uint16_exact_witness :
  (forall q p, [triangle; triangle] !! q = Some p ->
     Polygon.getVertexCount p <= 3 * Polygon.getTriangleCount p) /\
  (forall q p k index, [triangle; triangle] !! q = Some p ->
     calculateSurfaceIndices oneTriangle p !! k = Some index ->
     index < Polygon.getVertexCount p) /\
  (Z.of_nat (3 * getTriangleCount Polygon.getTriangleCount [triangle; triangle])
   <= 65535)%Z /\
  exists b w',
    calculateIndices oneTriangle Polygon.getTriangleCount [triangle; triangle]
      (Some Uint16Array) initial_world = (inr b, w') /\
    buf_data b !! 5 = Some 5%Z.
Proof.
  assert (forall q p, [triangle; triangle] !! q = Some p ->
            Polygon.getVertexCount p <= 3 * Polygon.getTriangleCount p) as H1.
  { intros i p Hp.
    destruct i as [|[|i]]; simpl in Hp; [injection Hp as <-..|done]; vm_compute; lia. }
  assert (forall q p k index, [triangle; triangle] !! q = Some p ->
            calculateSurfaceIndices oneTriangle p !! k = Some index ->
            index < Polygon.getVertexCount p) as H2.
  { intros i p k index Hp Hk.
    destruct i as [|[|i]]; simpl in Hp; [injection Hp as <-..|done];
      (destruct k as [|[|[|k]]]; simpl in Hk; [injection Hk as <-..|done]; vm_compute; lia). }
  assert (Z.of_nat (3 * getTriangleCount Polygon.getTriangleCount [triangle; triangle])
          <= 65535)%Z as H3 by (vm_compute; discriminate).
  split; [exact H1|]. split; [exact H2|]. split; [exact H3|].
  destruct (calculateIndices_uint16_exact oneTriangle Polygon.getTriangleCount
              [triangle; triangle] initial_world H1 H2 H3) as (b & w' & Hrun & _ & Hall).
  exists b, w'. split; [exact Hrun|].
  assert (length (buf_data b) = 6) as Hlen.
  { vm_compute in Hrun. injection Hrun as <- _. reflexivity. }
  destruct (Hall 1 triangle 2 2 eq_refl eq_refl) as [H _].
  { rewrite Hlen. vm_compute. lia. }
  exact H.
Defined.

Lemma fp64_low_part_zero_on_float32_witness :
  tesselator_ok exampleTesselator /\
  JS.fround (JS.of_Z 1) = JS.of_Z 1 /\
  exists t' w' bl,
    updatePositions_method (exampleArgs false true) exampleTesselator exampleWorld
      = (inr t', w') /\
    positions64xyLow_method t' = Some bl /\
    buf_data bl !! (2 * (0 + 1) + 0) = Some JS.zero.
Proof.
  assert (JS.fround (JS.of_Z 1) = JS.of_Z 1) as Hfix by (vm_compute; reflexivity).
  split; [exact example_ok|]. split; [exact Hfix|].
  destruct (fp64_low_part_zero_on_float32 (exampleArgs false true) exampleTesselator
              exampleWorld example_ok eq_refl) as (t' & w' & bl & Hrun & Hbl & Hall).
  exists t', w', bl. split; [exact Hrun|]. split; [exact Hbl|].
  exact (Hall 0 triangle 1 (pt 1 0) 0 (JS.of_Z 1) eq_refl eq_refl ltac:(lia) eq_refl
           eq_refl Hfix).
Defined.
